(** * sdfx: signed distance functions, 2D and 3D

    A shallow embedding of [sdf/sdf2.go], the 3D companion file and
    [sdf/3mf.go].

    Numbers.  Go's [float64] is read as a real number: the arithmetic of the
    source ([+], [-], [*], [/], [math.Sqrt], comparisons) is the exact one,
    without rounding, infinities or NaN.  [math.MaxFloat64] is the real number
    it denotes.  Go's [int] is read as [Z].

    Interfaces.  [SDF2] and [SDF3] are Go interfaces with the two methods
    [Evaluate] and [BoundingBox]; an interface value is the record of the two
    methods of the node it holds, and a nil interface value is [None]. *)

From Stdlib Require Import Reals Lra Lia ZArith List Bool.
Import ListNotations.

Set Implicit Arguments.
Open Scope R_scope.

(** ** float64 *)

Abbreviation float64 := R.

Definition MaxFloat64 : float64 := IZR (2 ^ 1024 - 2 ^ 971).

(** A finite float64 lies between [-MaxFloat64] and [MaxFloat64]. *)
Definition finite (x : float64) : Prop := - MaxFloat64 <= x <= MaxFloat64.

Definition ltb (a b : float64) : bool := if Rlt_dec a b then true else false.
Definition leb (a b : float64) : bool := if Rle_dec a b then true else false.
Definition eqb (a b : float64) : bool := if Req_dec_T a b then true else false.

Declare Scope float64_scope.
Delimit Scope float64_scope with f64.
Infix "<?" := ltb (at level 70, no associativity) : float64_scope.
Infix "<=?" := leb (at level 70, no associativity) : float64_scope.
Infix "=?" := eqb (at level 70, no associativity) : float64_scope.
Notation "a >? b" := (ltb b a)
  (at level 70, no associativity, only parsing) : float64_scope.
Open Scope float64_scope.

(** Modelled from the spec: the helpers [Abs], [Min] and [Max] of the package
    (their file is not part of the sources) are the absolute value and the
    exact minimum and maximum of two distances. *)
Definition Abs (a : float64) : float64 := Rabs a.
Definition Min (a b : float64) : float64 := Rmin a b.
Definition Max (a b : float64) : float64 := Rmax a b.

(** Modelled from the spec: a blend function takes two distances and a blend
    parameter; the default ones are the exact minimum and maximum and do not
    use the parameter. *)
Definition MinFunc := float64 -> float64 -> float64 -> float64.
Definition MaxFunc := float64 -> float64 -> float64 -> float64.
Definition NormalMin : MinFunc := fun a b _ => Min a b.
Definition NormalMax : MaxFunc := fun a b _ => Max a b.

(** [math.Pi] and the package's [PI] and [TAU]. *)
Definition TAU : float64 := 2 * PI.

(** [for i := 0; i < n; i++]: the values [i] takes, in order. *)
Definition Range (n : Z) : list Z := map Z.of_nat (seq 0 (Z.to_nat n)).

(** ** Vectors *)

(** Modelled from the spec: the vector types of the package (their file is
    not part of the sources).  [V2] is a pair of float64 with componentwise
    arithmetic, dot product, length, normalization and componentwise minimum
    and maximum; [Equals] is "coincide within the tolerance". *)
Module V2.
Record t := mk { X : float64; Y : float64 }.

Definition Equals (a b : t) (tolerance : float64) : bool :=
  (Abs (X a - X b) <=? tolerance) && (Abs (Y a - Y b) <=? tolerance).
Definition Abs (a : t) : t := mk (Abs (X a)) (Abs (Y a)).
Definition Add (a b : t) : t := mk (X a + X b) (Y a + Y b).
Definition Sub (a b : t) : t := mk (X a - X b) (Y a - Y b).
Definition Mul (a b : t) : t := mk (X a * X b) (Y a * Y b).
Definition Negate (a : t) : t := mk (- X a) (- Y a).
Definition MulScalar (a : t) (b : float64) : t := mk (X a * b) (Y a * b).
Definition AddScalar (a : t) (b : float64) : t := mk (X a + b) (Y a + b).
Definition SubScalar (a : t) (b : float64) : t := mk (X a - b) (Y a - b).
Definition Dot (a b : t) : float64 := X a * X b + Y a * Y b.
Definition Length2 (a : t) : float64 := X a * X a + Y a * Y a.
Definition Length (a : t) : float64 := sqrt (Length2 a).
Definition Min (a b : t) : t := mk (Min (X a) (X b)) (Min (Y a) (Y b)).
Definition Max (a b : t) : t := mk (Max (X a) (X b)) (Max (Y a) (Y b)).
(** A vector of length zero is left as it is. *)
Definition Normalize (a : t) : t :=
  if Length a =? 0 then a else MulScalar a (/ Length a).
End V2.
Abbreviation V2 := V2.t.

(** Modelled from the spec: [V3] is a triple of float64, with the operations
    of [V2] and the cross product. *)
Module V3.
Record t := mk { X : float64; Y : float64; Z : float64 }.

Definition Abs (a : t) : t := mk (Abs (X a)) (Abs (Y a)) (Abs (Z a)).
Definition Add (a b : t) : t := mk (X a + X b) (Y a + Y b) (Z a + Z b).
Definition Sub (a b : t) : t := mk (X a - X b) (Y a - Y b) (Z a - Z b).
Definition Mul (a b : t) : t := mk (X a * X b) (Y a * Y b) (Z a * Z b).
Definition Negate (a : t) : t := mk (- X a) (- Y a) (- Z a).
Definition MulScalar (a : t) (b : float64) : t :=
  mk (X a * b) (Y a * b) (Z a * b).
Definition SubScalar (a : t) (b : float64) : t :=
  mk (X a - b) (Y a - b) (Z a - b).
Definition Dot (a b : t) : float64 := X a * X b + Y a * Y b + Z a * Z b.
Definition Cross (a b : t) : t :=
  mk (Y a * Z b - Z a * Y b) (Z a * X b - X a * Z b) (X a * Y b - Y a * X b).
Definition Length (a : t) : float64 :=
  sqrt (X a * X a + Y a * Y a + Z a * Z a).
Definition MaxComponent (a : t) : float64 := Max (Max (X a) (Y a)) (Z a).
Definition Min (a b : t) : t :=
  mk (Min (X a) (X b)) (Min (Y a) (Y b)) (Min (Z a) (Z b)).
Definition Max (a b : t) : t :=
  mk (Max (X a) (X b)) (Max (Y a) (Y b)) (Max (Z a) (Z b)).
Definition Normalize (a : t) : t :=
  if Length a =? 0 then a else MulScalar a (/ Length a).
End V3.
Abbreviation V3 := V3.t.

(** Go's [int] arithmetic wraps around at 64 bits; [MaxInt] is the largest
    [int]. *)
Definition MaxInt : Z := (2 ^ 63 - 1)%Z.

Definition wrap64 (n : Z) : Z := ((n + 2 ^ 63) mod 2 ^ 64 - 2 ^ 63)%Z.

(** Modelled from the spec: [V2i] and [V3i] are the integer counterparts of
    [V2] and [V3], Go arrays of two and three [int]: [num[0]] is [n0]. *)
Module V2i.
Record t := mk { n0 : Z; n1 : Z }.
Definition SubScalar (a : t) (b : Z) : t :=
  mk (wrap64 (n0 a - b)) (wrap64 (n1 a - b)).
Definition ToV2 (a : t) : V2 := V2.mk (IZR (n0 a)) (IZR (n1 a)).
End V2i.
Abbreviation V2i := V2i.t.

(** Modelled from the spec: see [V2i]. *)
Module V3i.
Record t := mk { n0 : Z; n1 : Z; n2 : Z }.
Definition SubScalar (a : t) (b : Z) : t :=
  mk (wrap64 (n0 a - b)) (wrap64 (n1 a - b)) (wrap64 (n2 a - b)).
Definition ToV3 (a : t) : V3 := V3.mk (IZR (n0 a)) (IZR (n1 a)) (IZR (n2 a)).
End V3i.
Abbreviation V3i := V3i.t.

(** Modelled from the spec: [V2Set] and [V3Set] are slices of vectors;
    [Min] and [Max] are the componentwise extremes of the set, starting from
    its first element (the zero vector stands for the extreme of an empty
    set, where the source has no element to start from). *)
Module V2Set.
Definition t := list V2.
Definition Min (a : t) : V2 :=
  match a with
  | [] => V2.mk 0 0
  | v :: _ => fold_left V2.Min a v
  end.
Definition Max (a : t) : V2 :=
  match a with
  | [] => V2.mk 0 0
  | v :: _ => fold_left V2.Max a v
  end.
End V2Set.
Abbreviation V2Set := V2Set.t.

(** Modelled from the spec: see [V2Set]. *)
Module V3Set.
Definition t := list V3.
Definition Min (a : t) : V3 :=
  match a with
  | [] => V3.mk 0 0 0
  | v :: _ => fold_left V3.Min a v
  end.
Definition Max (a : t) : V3 :=
  match a with
  | [] => V3.mk 0 0 0
  | v :: _ => fold_left V3.Max a v
  end.
End V3Set.
Abbreviation V3Set := V3Set.t.

(** ** Boxes *)

(** Modelled from the spec: an axis-aligned box is its minimum and maximum
    corner; [Size], [Center], [Extend] (the union of the extents),
    [Translate] and [Vertices] (4 corners in 2D, 8 in 3D) are derived.
    [Contains] is the reading of "the point lies within the box". *)
Module Box2.
Record t := mk { Min : V2; Max : V2 }.
Definition Size (a : t) : V2 := V2.Sub (Max a) (Min a).
Definition Center (a : t) : V2 := V2.Add (Min a) (V2.MulScalar (Size a) (1 / 2)).
Definition Extend (a b : t) : t :=
  mk (V2.Min (Min a) (Min b)) (V2.Max (Max a) (Max b)).
Definition Translate (a : t) (v : V2) : t :=
  mk (V2.Add (Min a) v) (V2.Add (Max a) v).
Definition Vertices (a : t) : V2Set :=
  [ Min a;
    V2.mk (V2.X (Max a)) (V2.Y (Min a));
    V2.mk (V2.X (Min a)) (V2.Y (Max a));
    Max a ].
Definition Contains (a : t) (p : V2) : Prop :=
  V2.X (Min a) <= V2.X p <= V2.X (Max a) /\
  V2.Y (Min a) <= V2.Y p <= V2.Y (Max a).
End Box2.
Abbreviation Box2 := Box2.t.

(** Modelled from the spec: [NewBox2(center, size)] is the box of that size
    around the center. *)
Definition NewBox2 (center size : V2) : Box2 :=
  let half := V2.MulScalar size (1 / 2) in
  Box2.mk (V2.Sub center half) (V2.Add center half).

(** Modelled from the spec: see [Box2]. *)
Module Box3.
Record t := mk { Min : V3; Max : V3 }.
Definition Size (a : t) : V3 := V3.Sub (Max a) (Min a).
Definition Extend (a b : t) : t :=
  mk (V3.Min (Min a) (Min b)) (V3.Max (Max a) (Max b)).
Definition Translate (a : t) (v : V3) : t :=
  mk (V3.Add (Min a) v) (V3.Add (Max a) v).
Definition Vertices (a : t) : V3Set :=
  let l := Min a in
  let h := Max a in
  [ V3.mk (V3.X l) (V3.Y l) (V3.Z l);
    V3.mk (V3.X l) (V3.Y l) (V3.Z h);
    V3.mk (V3.X l) (V3.Y h) (V3.Z l);
    V3.mk (V3.X l) (V3.Y h) (V3.Z h);
    V3.mk (V3.X h) (V3.Y l) (V3.Z l);
    V3.mk (V3.X h) (V3.Y l) (V3.Z h);
    V3.mk (V3.X h) (V3.Y h) (V3.Z l);
    V3.mk (V3.X h) (V3.Y h) (V3.Z h) ].
Definition Contains (a : t) (p : V3) : Prop :=
  V3.X (Min a) <= V3.X p <= V3.X (Max a) /\
  V3.Y (Min a) <= V3.Y p <= V3.Y (Max a) /\
  V3.Z (Min a) <= V3.Z p <= V3.Z (Max a).
End Box3.
Abbreviation Box3 := Box3.t.

(** ** Transform matrices *)

(** Modelled from the spec: [M33] and [M44] are homogeneous affine
    transforms of the plane and of space.  The last row of such a matrix is
    [(0, 0, 1)] (resp. [(0, 0, 0, 1)]), so a matrix is its other rows:
    a linear part and a translation column.  [MulPosition] applies the
    transform to a point (with translation), [Mul] composes, [Inverse] is
    the inverse transform (cofactors over the determinant), [MulBox] is the
    bounding box of the transformed corners of a box. *)
Module M33.
Record t := mk {
  x00 : float64; x01 : float64; x02 : float64;
  x10 : float64; x11 : float64; x12 : float64 }.

Definition MulPosition (a : t) (b : V2) : V2 :=
  V2.mk (x00 a * V2.X b + x01 a * V2.Y b + x02 a)
        (x10 a * V2.X b + x11 a * V2.Y b + x12 a).

Definition Mul (a b : t) : t :=
  mk (x00 a * x00 b + x01 a * x10 b)
     (x00 a * x01 b + x01 a * x11 b)
     (x00 a * x02 b + x01 a * x12 b + x02 a)
     (x10 a * x00 b + x11 a * x10 b)
     (x10 a * x01 b + x11 a * x11 b)
     (x10 a * x02 b + x11 a * x12 b + x12 a).

Definition Determinant (a : t) : float64 := x00 a * x11 a - x01 a * x10 a.

Definition Inverse (a : t) : t :=
  let d := 1 / Determinant a in
  mk (x11 a * d) (- x01 a * d) ((x01 a * x12 a - x02 a * x11 a) * d)
     (- x10 a * d) (x00 a * d) ((x02 a * x10 a - x00 a * x12 a) * d).

Definition MulVertices (v : V2Set) (a : t) : V2Set := map (MulPosition a) v.

Definition MulBox (a : t) (box : Box2) : Box2 :=
  let v := MulVertices (Box2.Vertices box) a in
  Box2.mk (V2Set.Min v) (V2Set.Max v).
End M33.
Abbreviation M33 := M33.t.

(** Modelled from the spec: the identity transform. *)
Definition Identity2d : M33 := M33.mk 1 0 0 0 1 0.

(** Modelled from the spec: see [M33]. *)
Module M44.
Record t := mk {
  x00 : float64; x01 : float64; x02 : float64; x03 : float64;
  x10 : float64; x11 : float64; x12 : float64; x13 : float64;
  x20 : float64; x21 : float64; x22 : float64; x23 : float64 }.

Definition MulPosition (a : t) (b : V3) : V3 :=
  V3.mk (x00 a * V3.X b + x01 a * V3.Y b + x02 a * V3.Z b + x03 a)
        (x10 a * V3.X b + x11 a * V3.Y b + x12 a * V3.Z b + x13 a)
        (x20 a * V3.X b + x21 a * V3.Y b + x22 a * V3.Z b + x23 a).

Definition Mul (a b : t) : t :=
  mk (x00 a * x00 b + x01 a * x10 b + x02 a * x20 b)
     (x00 a * x01 b + x01 a * x11 b + x02 a * x21 b)
     (x00 a * x02 b + x01 a * x12 b + x02 a * x22 b)
     (x00 a * x03 b + x01 a * x13 b + x02 a * x23 b + x03 a)
     (x10 a * x00 b + x11 a * x10 b + x12 a * x20 b)
     (x10 a * x01 b + x11 a * x11 b + x12 a * x21 b)
     (x10 a * x02 b + x11 a * x12 b + x12 a * x22 b)
     (x10 a * x03 b + x11 a * x13 b + x12 a * x23 b + x13 a)
     (x20 a * x00 b + x21 a * x10 b + x22 a * x20 b)
     (x20 a * x01 b + x21 a * x11 b + x22 a * x21 b)
     (x20 a * x02 b + x21 a * x12 b + x22 a * x22 b)
     (x20 a * x03 b + x21 a * x13 b + x22 a * x23 b + x23 a).

Definition Determinant (a : t) : float64 :=
  x00 a * (x11 a * x22 a - x12 a * x21 a)
  - x01 a * (x10 a * x22 a - x12 a * x20 a)
  + x02 a * (x10 a * x21 a - x11 a * x20 a).

Definition Inverse (a : t) : t :=
  let d := 1 / Determinant a in
  let i00 := (x11 a * x22 a - x12 a * x21 a) * d in
  let i01 := (x02 a * x21 a - x01 a * x22 a) * d in
  let i02 := (x01 a * x12 a - x02 a * x11 a) * d in
  let i10 := (x12 a * x20 a - x10 a * x22 a) * d in
  let i11 := (x00 a * x22 a - x02 a * x20 a) * d in
  let i12 := (x02 a * x10 a - x00 a * x12 a) * d in
  let i20 := (x10 a * x21 a - x11 a * x20 a) * d in
  let i21 := (x01 a * x20 a - x00 a * x21 a) * d in
  let i22 := (x00 a * x11 a - x01 a * x10 a) * d in
  mk i00 i01 i02 (- (i00 * x03 a + i01 * x13 a + i02 * x23 a))
     i10 i11 i12 (- (i10 * x03 a + i11 * x13 a + i12 * x23 a))
     i20 i21 i22 (- (i20 * x03 a + i21 * x13 a + i22 * x23 a)).

Definition MulVertices (v : V3Set) (a : t) : V3Set := map (MulPosition a) v.

Definition MulBox (a : t) (box : Box3) : Box3 :=
  let v := MulVertices (Box3.Vertices box) a in
  Box3.mk (V3Set.Min v) (V3Set.Max v).
End M44.
Abbreviation M44 := M44.t.

(** Modelled from the spec: the identity transform. *)
Definition Identity3d : M44 := M44.mk 1 0 0 0 0 1 0 0 0 0 1 0.

(** ** Angles *)

(** [math.Atan2], on real numbers. *)
Definition Atan2 (y x : float64) : float64 :=
  if 0 <? x then atan (y / x)
  else if x <? 0 then (if y <? 0 then atan (y / x) - PI else atan (y / x) + PI)
  else if 0 <? y then PI / 2
  else if y <? 0 then - (PI / 2)
  else 0.

(** [math.Trunc] and [math.Mod] (the remainder has the sign of [x]), on real
    numbers. *)
Definition Trunc (x : float64) : Z := if x <? 0 then Zceil x else Zfloor x.

Definition Mod (x y : float64) : float64 := x - y * IZR (Trunc (x / y)).

(** Modelled from the spec: [PolarToXY] turns polar into cartesian coordinates
    (its file is not part of the sources). *)
Definition PolarToXY (r theta : float64) : V2 :=
  V2.mk (r * cos theta) (r * sin theta).

(** Modelled from the spec: [SawTooth] is the "sawtooth reduction" of an angle
    into the sector [[0, period)] (its file is not part of the sources). *)
Definition SawTooth (x period : float64) : float64 :=
  x - period * IZR (Zfloor (x / period)).

(** ** The interfaces

    The adapter [PtSDF] to the interface of the external ray tracer is left
    out. *)

Module SDF2.
Record t := mk { Evaluate : V2 -> float64; BoundingBox : Box2 }.
End SDF2.
Abbreviation SDF2 := SDF2.t.

Module SDF3.
Record t := mk { Evaluate : V3 -> float64; BoundingBox : Box3 }.
End SDF3.
Abbreviation SDF3 := SDF3.t.

(** Slice indexing [l[i]]; every index the source uses is in range. *)
Definition index {A : Type} (l : list A) (i : Z) (d : A) : A :=
  nth (Z.to_nat i) l d.

Definition len {A : Type} (l : list A) : Z := Z.of_nat (length l).

(** ** 2D signed distance functions ([sdf/sdf2.go]) *)

Definition sdf_box2d (p s : V2) : float64 :=
  let p := V2.Abs p in
  let d := V2.Sub p s in
  let k := V2.Y s - V2.X s in
  if (V2.X d >? 0) && (V2.Y d >? 0) then V2.Length d
  else if V2.Y p - V2.X p >? k then V2.Y d
  else V2.X d.

(** *** 2D circle *)
Module CircleSDF2.
Record t := mk { radius : float64; bb : Box2 }.
Definition Evaluate (s : t) (p : V2) : float64 := V2.Length p - radius s.
Definition BoundingBox (s : t) : Box2 := bb s.
Definition iface (s : t) : SDF2 := SDF2.mk (Evaluate s) (BoundingBox s).
End CircleSDF2.

Definition Circle2D (radius : float64) : SDF2 :=
  let d := V2.mk radius radius in
  CircleSDF2.iface (CircleSDF2.mk radius (Box2.mk (V2.Negate d) d)).

(** *** Multiple circles *)
Module MultiCircleSDF2.
Record t := mk { radius : float64; positions : V2Set; bb : Box2 }.
Definition Evaluate (s : t) (p : V2) : float64 :=
  fold_left
    (fun d posn => Min d (V2.Length (V2.Sub p posn) - radius s))
    (positions s) MaxFloat64.
Definition BoundingBox (s : t) : Box2 := bb s.
Definition iface (s : t) : SDF2 := SDF2.mk (Evaluate s) (BoundingBox s).
End MultiCircleSDF2.

Definition NewMultiCircleSDF2 (radius : float64) (positions : V2Set) : SDF2 :=
  let pmin := V2.Sub (V2Set.Min positions) (V2.mk radius radius) in
  let pmax := V2.Add (V2Set.Max positions) (V2.mk radius radius) in
  MultiCircleSDF2.iface (MultiCircleSDF2.mk radius positions (Box2.mk pmin pmax)).

(** *** 2D box (rounded corners with round > 0) *)
Module BoxSDF2.
Record t := mk { size : V2; round : float64; bb : Box2 }.
Definition Evaluate (s : t) (p : V2) : float64 :=
  sdf_box2d p (size s) - round s.
Definition BoundingBox (s : t) : Box2 := bb s.
Definition iface (s : t) : SDF2 := SDF2.mk (Evaluate s) (BoundingBox s).
End BoxSDF2.

Definition NewBoxSDF2 (size : V2) (round : float64) : SDF2 :=
  let size := V2.MulScalar size (1 / 2) in
  BoxSDF2.iface
    (BoxSDF2.mk (V2.SubScalar size round) round (Box2.mk (V2.Negate size) size)).

(** *** 2D line from (-l/2,0) to (l/2,0) *)
Module LineSDF2.
Record t := mk { l : float64; round : float64; bb : Box2 }.
Definition Evaluate (s : t) (p : V2) : float64 :=
  let p := V2.Abs p in
  if V2.X p <=? l s then V2.Y p - round s
  else V2.Length (V2.Sub p (V2.mk (l s) 0)) - round s.
Definition BoundingBox (s : t) : Box2 := bb s.
Definition iface (s : t) : SDF2 := SDF2.mk (Evaluate s) (BoundingBox s).
End LineSDF2.

Definition NewLineSDF2 (l round : float64) : SDF2 :=
  let l := l / 2 in
  LineSDF2.iface
    (LineSDF2.mk l round
       (Box2.mk (V2.mk (- l - round) (- round)) (V2.mk (l + round) round))).

(** *** Offset: add a constant to the distance function *)
Module OffsetSDF2.
Record t := mk { sdf : SDF2; offset : float64; bb : Box2 }.
Definition Evaluate (s : t) (p : V2) : float64 :=
  SDF2.Evaluate (sdf s) p - offset s.
Definition BoundingBox (s : t) : Box2 := bb s.
Definition iface (s : t) : SDF2 := SDF2.mk (Evaluate s) (BoundingBox s).
End OffsetSDF2.

Definition NewOffsetSDF2 (sdf : SDF2) (offset : float64) : SDF2 :=
  let bb := SDF2.BoundingBox sdf in
  OffsetSDF2.iface
    (OffsetSDF2.mk sdf offset
       (NewBox2 (Box2.Center bb) (V2.AddScalar (Box2.Size bb) (2 * offset)))).

(** *** Cut along a line from a in direction v; the right of the line remains *)
Module CutSDF2.
Record t := mk { sdf : SDF2; a : V2; n : V2; bb : Box2 }.
Definition Evaluate (s : t) (p : V2) : float64 :=
  Max (V2.Dot (V2.Sub p (a s)) (n s)) (SDF2.Evaluate (sdf s) p).
Definition BoundingBox (s : t) : Box2 := bb s.
Definition iface (s : t) : SDF2 := SDF2.mk (Evaluate s) (BoundingBox s).
End CutSDF2.

Definition NewCutSDF2 (sdf : SDF2) (a v : V2) : SDF2 :=
  let v := V2.Normalize v in
  CutSDF2.iface
    (CutSDF2.mk sdf a (V2.mk (- V2.Y v) (V2.X v)) (SDF2.BoundingBox sdf)).

(** *** 2D polygon *)
Module PolySDF2.
Record t := mk {
  vertex : list V2;       (* vertices *)
  vector : list V2;       (* unit line vectors *)
  length : list float64;  (* line lengths *)
  bb : Box2 }.

(** The loop variables of [Evaluate]: [dd], [wn] and [pb]. *)
Record loop := mkloop { dd : float64; wn : Z; pb : V2 }.

(** One turn of the loop of [Evaluate], for the line segment [i]. *)
Definition segment (s : t) (p : V2) (st : loop) (i : Z) : loop :=
  let zero := V2.mk 0 0 in
  let a := index (vertex s) i zero in
  let b := index (vertex s) (i + 1) zero in
  let pa := pb st in
  let pb := V2.Sub p b in
  let vi := index (vector s) i zero in
  let t := V2.Dot pa vi in                            (* t-parameter of projection onto line *)
  let dn := V2.Dot pa (V2.mk (V2.Y vi) (- V2.X vi)) in  (* normal distance from p to line *)
  (* distance to line segment *)
  let dd :=
    if t <? 0 then Min (dd st) (V2.Length2 pa)
    else if t >? index (length s) i 0 then Min (dd st) (V2.Length2 pb)
    else Min (dd st) (dn * dn) in
  (* is the point in the polygon? *)
  let wn :=
    if V2.Y a <=? V2.Y p then
      (if V2.Y b >? V2.Y p then (if dn <? 0 then (wn st + 1)%Z else wn st)
       else wn st)
    else
      (if V2.Y b <=? V2.Y p then (if dn >? 0 then (wn st - 1)%Z else wn st)
       else wn st) in
  mkloop dd wn pb.

Definition Evaluate (s : t) (p : V2) : float64 :=
  let nsegs := (len (vertex s) - 1)%Z in
  let st :=
    fold_left (segment s p) (Range nsegs)
      (mkloop MaxFloat64 0 (V2.Sub p (index (vertex s) 0 (V2.mk 0 0)))) in
  (* normalise d*d to d *)
  let d := sqrt (dd st) in
  if negb (wn st =? 0)%Z then - d else d.

Definition BoundingBox (s : t) : Box2 := bb s.
Definition Vertices (s : t) : list V2 := vertex s.
Definition iface (s : t) : SDF2 := SDF2.mk (Evaluate s) (BoundingBox s).
End PolySDF2.

Definition NewPolySDF2 (vertex : list V2) : option SDF2 :=
  let zero := V2.mk 0 0 in
  let n := len vertex in
  if (n <? 3)%Z then None
  else
    (* close the loop (if necessary) *)
    let svertex :=
      if negb (V2.Equals (index vertex 0 zero) (index vertex (n - 1) zero) 0)
      then vertex ++ [index vertex 0 zero]
      else vertex in
    (* pre-calculated line segment info *)
    let nsegs := (len svertex - 1)%Z in
    let seg (i : Z) := V2.Sub (index svertex (i + 1) zero) (index svertex i zero) in
    let length := map (fun i => V2.Length (seg i)) (Range nsegs) in
    let vector := map (fun i => V2.Normalize (seg i)) (Range nsegs) in
    let vmin :=
      fold_left (fun vmin i => V2.Min vmin (index svertex i zero))
        (Range nsegs) (index svertex 0 zero) in
    let vmax :=
      fold_left (fun vmax i => V2.Max vmax (index svertex i zero))
        (Range nsegs) (index svertex 0 zero) in
    Some (PolySDF2.iface (PolySDF2.mk svertex vector length (Box2.mk vmin vmax))).

(** *** Transform *)
Module TransformSDF2.
Record t := mk { sdf : SDF2; matrix : M33; inverse : M33; bb : Box2 }.
Definition Evaluate (s : t) (p : V2) : float64 :=
  let q := M33.MulPosition (inverse s) p in
  SDF2.Evaluate (sdf s) q.
Definition BoundingBox (s : t) : Box2 := bb s.
Definition iface (s : t) : SDF2 := SDF2.mk (Evaluate s) (BoundingBox s).
End TransformSDF2.

Definition NewTransformSDF2 (sdf : SDF2) (matrix : M33) : SDF2 :=
  TransformSDF2.iface
    (TransformSDF2.mk sdf matrix (M33.Inverse matrix)
       (M33.MulBox matrix (SDF2.BoundingBox sdf))).

(** *** Array: an X by Y array of a given SDF2 *)
Module ArraySDF2.
Record t := mk {
  sdf : SDF2; num : V2i; step : V2; min : MinFunc; k : float64; bb : Box2 }.

Definition SetMin (s : t) (min : MinFunc) (k : float64) : t :=
  mk (sdf s) (num s) (step s) min k (bb s).

Definition Evaluate (s : t) (p : V2) : float64 :=
  let blend (d : float64) (x : V2) := min s d (SDF2.Evaluate (sdf s) x) (k s) in
  fold_left
    (fun d j =>
       fold_left
         (fun d k =>
            let x :=
              V2.Sub p (V2.mk (IZR j * V2.X (step s)) (IZR k * V2.Y (step s))) in
            blend d x)
         (Range (V2i.n1 (num s))) d)
    (Range (V2i.n0 (num s))) MaxFloat64.

Definition BoundingBox (s : t) : Box2 := bb s.
Definition iface (s : t) : SDF2 := SDF2.mk (Evaluate s) (BoundingBox s).
End ArraySDF2.

Definition NewArraySDF2 (sdf : SDF2) (num : V2i) (step : V2) : option SDF2 :=
  (* check the number of steps *)
  if (V2i.n0 num <=? 0)%Z || (V2i.n1 num <=? 0)%Z then None
  else
    let bb0 := SDF2.BoundingBox sdf in
    let bb1 := Box2.Translate bb0 (V2.Mul step (V2i.ToV2 (V2i.SubScalar num 1))) in
    Some (ArraySDF2.iface
            (ArraySDF2.mk sdf num step NormalMin 0 (Box2.Extend bb0 bb1))).

(** *** Rotate: num copies, each turned by the step matrix *)
Module RotateSDF2.
Record t := mk {
  sdf : SDF2; num : Z; step : M33; min : MinFunc; k : float64; bb : Box2 }.

Definition SetMin (s : t) (min : MinFunc) (k : float64) : t :=
  mk (sdf s) (num s) (step s) min k (bb s).

Definition Evaluate (s : t) (p : V2) : float64 :=
  fst
    (fold_left
       (fun (st : float64 * M33) (_ : Z) =>
          let (d, rot) := st in
          let x := M33.MulPosition rot p in
          (min s d (SDF2.Evaluate (sdf s) x) (k s), M33.Mul rot (step s)))
       (Range (num s)) (MaxFloat64, Identity2d)).

Definition BoundingBox (s : t) : Box2 := bb s.
Definition iface (s : t) : SDF2 := SDF2.mk (Evaluate s) (BoundingBox s).
End RotateSDF2.

Definition NewRotateSDF2 (sdf : SDF2) (num : Z) (step : M33) : option SDF2 :=
  (* check the number of steps *)
  if (num <=? 0)%Z then None
  else
    let v := Box2.Vertices (SDF2.BoundingBox sdf) in
    let v0 := index v 0 (V2.mk 0 0) in
    let '(bb_min, bb_max, _) :=
      fold_left
        (fun (st : V2 * V2 * V2Set) (_ : Z) =>
           let '(bb_min, bb_max, v) := st in
           (V2.Min bb_min (V2Set.Min v), V2.Max bb_max (V2Set.Max v),
            M33.MulVertices v step))
        (Range num) (v0, v0, v) in
    Some (RotateSDF2.iface
            (RotateSDF2.mk sdf num (M33.Inverse step) NormalMin 0
               (Box2.mk bb_min bb_max))).

(** *** Rotate and copy an SDF2 TAU radians about the origin *)
Module RotateCopySDF2.
Record t := mk { sdf : SDF2; theta : float64; bb : Box2 }.
Definition Evaluate (s : t) (p : V2) : float64 :=
  (* map p to a point in the first copy sector *)
  let pnew :=
    PolarToXY (V2.Length p) (SawTooth (Atan2 (V2.Y p) (V2.X p)) (theta s)) in
  SDF2.Evaluate (sdf s) pnew.
Definition BoundingBox (s : t) : Box2 := bb s.
Definition iface (s : t) : SDF2 := SDF2.mk (Evaluate s) (BoundingBox s).
End RotateCopySDF2.

Definition NewRotateCopySDF2 (sdf : SDF2) (num : Z) : option SDF2 :=
  (* check the number of steps *)
  if (num <=? 0)%Z then None
  else
    let r_max := V2.Length (Box2.Max (SDF2.BoundingBox sdf)) in
    Some (RotateCopySDF2.iface
            (RotateCopySDF2.mk sdf (TAU / IZR num)
               (Box2.mk (V2.mk (- r_max) (- r_max)) (V2.mk r_max r_max)))).

(** *** Slice: an SDF2 from a plane sliced through an SDF3 *)
Module SliceSDF2.
Record t := mk { sdf : SDF3; a : V3; u : V3; v : V3; bb : Box2 }.
Definition Evaluate (s : t) (p : V2) : float64 :=
  let pnew :=
    V3.Add (V3.Add (a s) (V3.MulScalar (u s) (V2.X p)))
           (V3.MulScalar (v s) (V2.Y p)) in
  SDF3.Evaluate (sdf s) pnew.
Definition BoundingBox (s : t) : Box2 := bb s.
Definition iface (s : t) : SDF2 := SDF2.mk (Evaluate s) (BoundingBox s).
End SliceSDF2.

Definition Slice2D (sdf : SDF3) (a n : V3) : SDF2 :=
  (* work out the x/y vectors on the plane *)
  let u :=
    if V3.X n =? 0 then V3.mk 1 0 0
    else if V3.Y n =? 0 then V3.mk 0 1 0
    else if V3.Z n =? 0 then V3.mk 0 0 1
    else V3.mk (V3.Y n) (- V3.X n) 0 in
  let v := V3.Cross n u in
  let u := V3.Normalize u in
  let v := V3.Normalize v in
  (* work out the bounding box *)
  let v3 := Box3.Vertices (SDF3.BoundingBox sdf) in
  let n := V3.Normalize n in
  let v2 :=
    map
      (fun vtx =>
         (* project the 3d bounding box vertex onto the plane *)
         let va := V3.Sub vtx a in
         let pa := V3.Sub va (V3.MulScalar n (V3.Dot n va)) in
         (* work out the 3d point in terms of the 2d unit vectors *)
         V2.mk (V3.Dot pa u) (V3.Dot pa v))
      v3 in
  SliceSDF2.iface (SliceSDF2.mk sdf a u v (Box2.mk (V2Set.Min v2) (V2Set.Max v2))).

(** *** Union *)
Module UnionSDF2.
Record t := mk { s0 : SDF2; s1 : SDF2; min : MinFunc; k : float64; bb : Box2 }.

Definition SetMin (s : t) (min : MinFunc) (k : float64) : t :=
  mk (s0 s) (s1 s) min k (bb s).

Definition Evaluate (s : t) (p : V2) : float64 :=
  let a := SDF2.Evaluate (s0 s) p in
  let b := SDF2.Evaluate (s1 s) p in
  min s a b (k s).

Definition BoundingBox (s : t) : Box2 := bb s.
Definition iface (s : t) : SDF2 := SDF2.mk (Evaluate s) (BoundingBox s).
End UnionSDF2.

Definition NewUnionSDF2 (s0 s1 : option SDF2) : option SDF2 :=
  match s0, s1 with
  | None, _ => s1
  | _, None => s0
  | Some a, Some b =>
      Some (UnionSDF2.iface
              (UnionSDF2.mk a b NormalMin 0
                 (Box2.Extend (SDF2.BoundingBox a) (SDF2.BoundingBox b))))
  end.

(** *** Difference: s0 - s1 *)
Module DifferenceSDF2.
Record t := mk { s0 : SDF2; s1 : SDF2; max : MaxFunc; k : float64; bb : Box2 }.

Definition Evaluate (s : t) (p : V2) : float64 :=
  max s (SDF2.Evaluate (s0 s) p) (- SDF2.Evaluate (s1 s) p) (k s).

Definition SetMax (s : t) (max : MaxFunc) (k : float64) : t :=
  mk (s0 s) (s1 s) max k (bb s).

Definition BoundingBox (s : t) : Box2 := bb s.
Definition iface (s : t) : SDF2 := SDF2.mk (Evaluate s) (BoundingBox s).
End DifferenceSDF2.

Definition NewDifferenceSDF2 (s0 s1 : option SDF2) : option SDF2 :=
  match s1, s0 with
  | None, _ => s0
  | _, None => None
  | Some b, Some a =>
      Some (DifferenceSDF2.iface
              (DifferenceSDF2.mk a b NormalMax 0 (SDF2.BoundingBox a)))
  end.

(** ** 3D signed distance functions *)

Definition sdf_box3d (p s : V3) : float64 :=
  let d := V3.Sub (V3.Abs p) s in
  V3.Length (V3.Max d (V3.mk 0 0 0)) + Min (V3.MaxComponent d) 0.

(** *** Solid of revolution, SDF2 to SDF3 *)
Module SorSDF3.
Record t := mk {
  sdf : SDF2;
  theta : float64;  (* angle for partial revolutions *)
  norm : V2;        (* pre-calculated normal to theta line *)
  bb : Box3 }.

Definition Evaluate (s : t) (p : V3) : float64 :=
  let x := sqrt (V3.X p * V3.X p + V3.Y p * V3.Y p) in
  let a := SDF2.Evaluate (sdf s) (V2.mk x (V3.Z p)) in
  let b :=
    if negb (theta s =? 0) then
      (* combine two vertical planes to give an intersection wedge *)
      let d := V2.Dot (norm s) (V2.mk (V3.X p) (V3.Y p)) in
      if theta s <? PI then Max (- V3.Y p) d (* intersect *)
      else Min (- V3.Y p) d (* union *)
    else a in
  (* return the intersection *)
  Max a b.

Definition BoundingBox (s : t) : Box3 := bb s.
Definition iface (s : t) : SDF3 := SDF3.mk (Evaluate s) (BoundingBox s).
End SorSDF3.

Definition NewSorThetaSDF3 (sdf : SDF2) (theta : float64) : SDF3 :=
  (* normalize theta *)
  let theta := Mod (Abs theta) TAU in
  let sin := sin theta in
  let cos := cos theta in
  (* work out the bounding box *)
  let vset : V2Set :=
    if theta =? 0 then [V2.mk 1 1; V2.mk (-1) (-1)]
    else
      [V2.mk 0 0; V2.mk 1 0; V2.mk cos sin]
        ++ (if theta >? (1 / 2) * PI then [V2.mk 0 1] else [])
        ++ (if theta >? PI then [V2.mk (-1) 0] else [])
        ++ (if theta >? (3 / 2) * PI then [V2.mk 0 (-1)] else []) in
  let bb := SDF2.BoundingBox sdf in
  let l := Max (Abs (V2.X (Box2.Min bb))) (Abs (V2.X (Box2.Max bb))) in
  let vmin := V2.MulScalar (V2Set.Min vset) l in
  let vmax := V2.MulScalar (V2Set.Max vset) l in
  SorSDF3.iface
    (SorSDF3.mk sdf theta
       (V2.mk (- sin) cos)  (* the normal to the theta line *)
       (Box3.mk (V3.mk (V2.X vmin) (V2.Y vmin) (V2.Y (Box2.Min bb)))
                (V3.mk (V2.X vmax) (V2.Y vmax) (V2.Y (Box2.Max bb))))).

Definition NewSorSDF3 (sdf : SDF2) : SDF3 := NewSorThetaSDF3 sdf 0.

(** *** Extrude, SDF2 to SDF3 *)
Module ExtrudeSDF3.
Record t := mk { sdf : SDF2; height : float64; bb : Box3 }.

Definition Evaluate (s : t) (p : V3) : float64 :=
  (* sdf for the projected 2d surface *)
  let a := SDF2.Evaluate (sdf s) (V2.mk (V3.X p) (V3.Y p)) in
  (* sdf for the extrusion region: z = [0, height] *)
  let b := Max (- V3.Z p) (V3.Z p - height s) in
  (* return the intersection *)
  Max a b.

Definition BoundingBox (s : t) : Box3 := bb s.
Definition iface (s : t) : SDF3 := SDF3.mk (Evaluate s) (BoundingBox s).
End ExtrudeSDF3.

Definition NewExtrudeSDF3 (sdf : SDF2) (height : float64) : SDF3 :=
  let bb := SDF2.BoundingBox sdf in
  ExtrudeSDF3.iface
    (ExtrudeSDF3.mk sdf height
       (Box3.mk (V3.mk (V2.X (Box2.Min bb)) (V2.Y (Box2.Min bb)) 0)
                (V3.mk (V2.X (Box2.Max bb)) (V2.Y (Box2.Max bb)) height))).

(** *** 3D box (rounded corners with round > 0) *)
Module BoxSDF3.
Record t := mk { size : V3; round : float64; bb : Box3 }.
Definition Evaluate (s : t) (p : V3) : float64 :=
  sdf_box3d p (size s) - round s.
Definition BoundingBox (s : t) : Box3 := bb s.
Definition iface (s : t) : SDF3 := SDF3.mk (Evaluate s) (BoundingBox s).
End BoxSDF3.

Definition NewBoxSDF3 (size : V3) (round : float64) : SDF3 :=
  let size := V3.MulScalar size (1 / 2) in
  BoxSDF3.iface
    (BoxSDF3.mk (V3.SubScalar size round) round (Box3.mk (V3.Negate size) size)).

(** *** 3D sphere *)
Module SphereSDF3.
Record t := mk { radius : float64; bb : Box3 }.
Definition Evaluate (s : t) (p : V3) : float64 := V3.Length p - radius s.
Definition BoundingBox (s : t) : Box3 := bb s.
Definition iface (s : t) : SDF3 := SDF3.mk (Evaluate s) (BoundingBox s).
End SphereSDF3.

Definition NewSphereSDF3 (radius : float64) : SDF3 :=
  let d := V3.mk radius radius radius in
  SphereSDF3.iface (SphereSDF3.mk radius (Box3.mk (V3.Negate d) d)).

(** *** 3D cylinder (rounded edges with round > 0) *)
Module CylinderSDF3.
Record t := mk { height : float64; radius : float64; round : float64; bb : Box3 }.
Definition Evaluate (s : t) (p : V3) : float64 :=
  let d :=
    sdf_box2d (V2.mk (V2.Length (V2.mk (V3.X p) (V3.Y p))) (V3.Z p))
              (V2.mk (radius s) (height s)) in
  d - round s.
Definition BoundingBox (s : t) : Box3 := bb s.
Definition iface (s : t) : SDF3 := SDF3.mk (Evaluate s) (BoundingBox s).
End CylinderSDF3.

Definition NewCylinderSDF3 (height radius round : float64) : SDF3 :=
  let d := V3.mk radius radius (height / 2) in
  CylinderSDF3.iface
    (CylinderSDF3.mk (height / 2 - round) (radius - round) round
       (Box3.mk (V3.Negate d) d)).

(** A capsule: the source passes [radius] first and [height] second. *)
Definition NewCapsuleSDF3 (radius height : float64) : SDF3 :=
  NewCylinderSDF3 radius height radius.

(** *** Multiple cylinders of the same radius and height *)
Module MultiCylinderSDF3.
Record t := mk {
  height : float64; radius : float64; positions : V2Set; bb : Box3 }.
Definition Evaluate (s : t) (p : V3) : float64 :=
  fold_left
    (fun d posn =>
       let l := V2.Length (V2.Sub (V2.mk (V3.X p) (V3.Y p)) posn) in
       Min d (sdf_box2d (V2.mk l (V3.Z p)) (V2.mk (radius s) (height s))))
    (positions s) MaxFloat64.
Definition BoundingBox (s : t) : Box3 := bb s.
Definition iface (s : t) : SDF3 := SDF3.mk (Evaluate s) (BoundingBox s).
End MultiCylinderSDF3.

Definition NewMultiCylinderSDF3
    (height radius : float64) (positions : V2Set) : SDF3 :=
  let pmin := V2.Sub (V2Set.Min positions) (V2.mk radius radius) in
  let pmax := V2.Add (V2Set.Max positions) (V2.mk radius radius) in
  MultiCylinderSDF3.iface
    (MultiCylinderSDF3.mk (height / 2) radius positions
       (Box3.mk (V3.mk (V2.X pmin) (V2.Y pmin) (- height / 2))
                (V3.mk (V2.X pmax) (V2.Y pmax) (height / 2)))).

(** *** Transform *)
Module TransformSDF3.
Record t := mk { sdf : SDF3; matrix : M44; inverse : M44; bb : Box3 }.
Definition Evaluate (s : t) (p : V3) : float64 :=
  SDF3.Evaluate (sdf s) (M44.MulPosition (inverse s) p).
Definition BoundingBox (s : t) : Box3 := bb s.
Definition iface (s : t) : SDF3 := SDF3.mk (Evaluate s) (BoundingBox s).
End TransformSDF3.

Definition NewTransformSDF3 (sdf : SDF3) (matrix : M44) : SDF3 :=
  TransformSDF3.iface
    (TransformSDF3.mk sdf matrix (M44.Inverse matrix)
       (M44.MulBox matrix (SDF3.BoundingBox sdf))).

(** *** Union *)
Module UnionSDF3.
Record t := mk { s0 : SDF3; s1 : SDF3; min : MinFunc; k : float64; bb : Box3 }.

Definition Evaluate (s : t) (p : V3) : float64 :=
  min s (SDF3.Evaluate (s0 s) p) (SDF3.Evaluate (s1 s) p) (k s).

Definition SetMin (s : t) (min : MinFunc) (k : float64) : t :=
  mk (s0 s) (s1 s) min k (bb s).

Definition BoundingBox (s : t) : Box3 := bb s.
Definition iface (s : t) : SDF3 := SDF3.mk (Evaluate s) (BoundingBox s).
End UnionSDF3.

Definition NewUnionSDF3 (s0 s1 : SDF3) : SDF3 :=
  UnionSDF3.iface
    (UnionSDF3.mk s0 s1 NormalMin 0
       (Box3.Extend (SDF3.BoundingBox s0) (SDF3.BoundingBox s1))).

(** *** Difference: s0 - s1 *)
Module DifferenceSDF3.
Record t := mk { s0 : SDF3; s1 : SDF3; max : MaxFunc; k : float64; bb : Box3 }.

Definition Evaluate (s : t) (p : V3) : float64 :=
  max s (SDF3.Evaluate (s0 s) p) (- SDF3.Evaluate (s1 s) p) (k s).

Definition SetMax (s : t) (max : MaxFunc) (k : float64) : t :=
  mk (s0 s) (s1 s) max k (bb s).

Definition BoundingBox (s : t) : Box3 := bb s.
Definition iface (s : t) : SDF3 := SDF3.mk (Evaluate s) (BoundingBox s).
End DifferenceSDF3.

Definition NewDifferenceSDF3 (s0 s1 : SDF3) : SDF3 :=
  DifferenceSDF3.iface
    (DifferenceSDF3.mk s0 s1 NormalMax 0 (SDF3.BoundingBox s0)).

(** *** Array: an X by Y by Z array of a given SDF3 *)
Module ArraySDF3.
Record t := mk {
  sdf : SDF3; num : V3i; step : V3; min : MinFunc; k : float64; bb : Box3 }.

Definition SetMin (s : t) (min : MinFunc) (k : float64) : t :=
  mk (sdf s) (num s) (step s) min k (bb s).

Definition Evaluate (s : t) (p : V3) : float64 :=
  let blend (d : float64) (x : V3) := min s d (SDF3.Evaluate (sdf s) x) (k s) in
  fold_left
    (fun d j =>
       fold_left
         (fun d k =>
            fold_left
              (fun d l =>
                 let x :=
                   V3.Sub p
                     (V3.mk (IZR j * V3.X (step s)) (IZR k * V3.Y (step s))
                            (IZR l * V3.Z (step s))) in
                 blend d x)
              (Range (V3i.n2 (num s))) d)
         (Range (V3i.n1 (num s))) d)
    (Range (V3i.n0 (num s))) MaxFloat64.

Definition BoundingBox (s : t) : Box3 := bb s.
Definition iface (s : t) : SDF3 := SDF3.mk (Evaluate s) (BoundingBox s).
End ArraySDF3.

Definition NewArraySDF3 (sdf : SDF3) (num : V3i) (step : V3) : option SDF3 :=
  (* check the number of steps *)
  if (V3i.n0 num <=? 0)%Z || (V3i.n1 num <=? 0)%Z || (V3i.n2 num <=? 0)%Z
  then None
  else
    let bb0 := SDF3.BoundingBox sdf in
    let bb1 := Box3.Translate bb0 (V3.Mul step (V3i.ToV3 (V3i.SubScalar num 1))) in
    Some (ArraySDF3.iface
            (ArraySDF3.mk sdf num step NormalMin 0 (Box3.Extend bb0 bb1))).

(** *** Rotate: num copies, each turned by the step matrix *)
Module RotateSDF3.
Record t := mk {
  sdf : SDF3; num : Z; step : M44; min : MinFunc; k : float64; bb : Box3 }.

Definition Evaluate (s : t) (p : V3) : float64 :=
  fst
    (fold_left
       (fun (st : float64 * M44) (_ : Z) =>
          let (d, rot) := st in
          let x := M44.MulPosition rot p in
          (min s d (SDF3.Evaluate (sdf s) x) (k s), M44.Mul rot (step s)))
       (Range (num s)) (MaxFloat64, Identity3d)).

Definition SetMin (s : t) (min : MinFunc) (k : float64) : t :=
  mk (sdf s) (num s) (step s) min k (bb s).

Definition BoundingBox (s : t) : Box3 := bb s.
Definition iface (s : t) : SDF3 := SDF3.mk (Evaluate s) (BoundingBox s).
End RotateSDF3.

Definition NewRotateSDF3 (sdf : SDF3) (num : Z) (step : M44) : option SDF3 :=
  (* check the number of steps *)
  if (num <=? 0)%Z then None
  else
    let v := Box3.Vertices (SDF3.BoundingBox sdf) in
    let v0 := index v 0 (V3.mk 0 0 0) in
    let '(bb_min, bb_max, _) :=
      fold_left
        (fun (st : V3 * V3 * V3Set) (_ : Z) =>
           let '(bb_min, bb_max, v) := st in
           (V3.Min bb_min (V3Set.Min v), V3.Max bb_max (V3Set.Max v),
            M44.MulVertices v step))
        (Range num) (v0, v0, v) in
    Some (RotateSDF3.iface
            (RotateSDF3.mk sdf num (M44.Inverse step) NormalMin 0
               (Box3.mk bb_min bb_max))).

(** ** 3MF export ([sdf/3mf.go])

    [Save3MF] is read up to the model it hands to the XML encoder: the vertex
    and the triangle tables.  Creating the file and encoding are left out.
    A write past the end of a slice panics: the result is [None]. *)

(** Modelled from the spec: a mesh is a list of triangles, three 3D points
    each ([Triangle3] is declared outside the sources). *)
Module Triangle3.
Record t := mk { V_0 : V3; V_1 : V3; V_2 : V3 }.
(** [t.V], an array of three points. *)
Definition V (t : t) : list V3 := [V_0 t; V_1 t; V_2 t].
End Triangle3.
Abbreviation Triangle3 := Triangle3.t.

Module ThreeMFVertex.
Record t := mk { X : float64; Y : float64; Z : float64 }.
End ThreeMFVertex.
Abbreviation ThreeMFVertex := ThreeMFVertex.t.

Module ThreeMFTriangle.
Record t := mk { V1 : Z; V2 : Z; V3 : Z }.
End ThreeMFTriangle.
Abbreviation ThreeMFTriangle := ThreeMFTriangle.t.

Definition V3_eq_dec (a b : V3) : {a = b} + {a <> b}.
Proof.
  destruct a as [ax ay az], b as [bx b_y bz].
  destruct (Req_dec_T ax bx) as [Hx | Hx];
    [ destruct (Req_dec_T ay b_y) as [Hy | Hy];
      [ destruct (Req_dec_T az bz) as [Hz | Hz] | ] | ].
  - left; congruence.
  - right; congruence.
  - right; congruence.
  - right; congruence.
Defined.

(** [map[V3]int]: the entries of the map, one per key.  Go ranges over a map
    in an order of its own; what is proved below about the entries holds for
    every order. *)
Module VertexMap.
Definition t := list (V3 * Z).

Definition len (m : t) : Z := Z.of_nat (length m).

(** [m[v]]: zero for a key that is not in the map. *)
Fixpoint get (m : t) (v : V3) : Z :=
  match m with
  | [] => 0%Z
  | (w, i) :: r => if V3_eq_dec w v then i else get r v
  end.

Fixpoint mem (m : t) (v : V3) : bool :=
  match m with
  | [] => false
  | (w, _) :: r => if V3_eq_dec w v then true else mem r v
  end.

(** [m[v] = i]: the entry of [v] is replaced, or a new one is added. *)
Fixpoint set (m : t) (v : V3) (i : Z) : t :=
  match m with
  | [] => [(v, i)]
  | (w, j) :: r => if V3_eq_dec w v then (w, i) :: r else (w, j) :: set r v i
  end.
End VertexMap.

(** [l[i] = x] on a slice. *)
Fixpoint update {A : Type} (l : list A) (i : nat) (x : A) : list A :=
  match l, i with
  | [], _ => []
  | _ :: r, O => x :: r
  | y :: r, S i => y :: update r i x
  end.

Definition store {A : Type} (l : list A) (i : Z) (x : A) : option (list A) :=
  if (0 <=? i)%Z && (i <? len l)%Z then Some (update l (Z.to_nat i) x) else None.

(** The first loop of [Save3MF]: "dedupe the vertices". *)
Definition dedupe (mesh : list Triangle3) : VertexMap.t :=
  fold_left
    (fun vertices t =>
       fold_left
         (fun vertices v => VertexMap.set vertices v (VertexMap.len vertices))
         (Triangle3.V t) vertices)
    mesh [].

(** The second loop: [outputVertices[i] = ThreeMFVertex{...}] for every
    entry [(v, i)] of the map, into a slice of [len(vertices)] elements.
    [fill_step] is one turn of the loop; once a write has panicked the
    result stays [None]. *)
Definition fill_step (out : option (list ThreeMFVertex)) (e : V3 * Z)
    : option (list ThreeMFVertex) :=
  match out with
  | None => None
  | Some out =>
      let (v, i) := e in
      store out i (ThreeMFVertex.mk (V3.X v) (V3.Y v) (V3.Z v))
  end.

Definition outputVertices (vertices : VertexMap.t) : option (list ThreeMFVertex) :=
  fold_left fill_step vertices
    (Some (repeat (ThreeMFVertex.mk 0 0 0) (length vertices))).

(** The third loop. *)
Definition outputTriangles
    (vertices : VertexMap.t) (mesh : list Triangle3) : list ThreeMFTriangle :=
  map
    (fun t =>
       ThreeMFTriangle.mk (VertexMap.get vertices (Triangle3.V_0 t))
                          (VertexMap.get vertices (Triangle3.V_1 t))
                          (VertexMap.get vertices (Triangle3.V_2 t)))
    mesh.

Definition Save3MF (mesh : list Triangle3)
    : option (list ThreeMFVertex * list ThreeMFTriangle) :=
  let vertices := dedupe mesh in
  match outputVertices vertices with
  | None => None
  | Some vs => Some (vs, outputTriangles vertices mesh)
  end.

(** The vertices of a mesh in the order the first loop visits them, and the
    map the first loop builds from them. *)
Definition mesh_vertices (mesh : list Triangle3) : list V3 :=
  flat_map Triangle3.V mesh.

Definition build (l : list V3) : VertexMap.t :=
  fold_left (fun vertices v => VertexMap.set vertices v (VertexMap.len vertices)) l [].

Definition keys (m : VertexMap.t) : list V3 := map fst m.

(** Every index stored in the map is a valid index of a slice that has one
    element per key: no write of the second loop is out of range. *)
Definition InBounds (m : VertexMap.t) : Prop :=
  forall v i, In (v, i) m -> (0 <= i < VertexMap.len m)%Z.

(** The element of the output that stands for the position [v]. *)
Definition vertex_of (v : V3) : ThreeMFVertex :=
  ThreeMFVertex.mk (V3.X v) (V3.Y v) (V3.Z v).

(** What a reader of the file does with a corner: the index [i] is looked up
    in the vertex list, and the position [v] is expected there. *)
Definition corner_ok (vs : list ThreeMFVertex) (i : Z) (v : V3) : Prop :=
  (0 <= i)%Z /\ nth_error vs (Z.to_nat i) = Some (vertex_of v).

(** An exported mesh is faithful to the mesh it was made from when it has
    the same triangles in the same order, and every corner of every triangle
    is found again through its index. *)
Definition Faithful
    (mesh : list Triangle3) (out : list ThreeMFVertex * list ThreeMFTriangle) : Prop :=
  Forall2
    (fun t o =>
       corner_ok (fst out) (ThreeMFTriangle.V1 o) (Triangle3.V_0 t) /\
       corner_ok (fst out) (ThreeMFTriangle.V2 o) (Triangle3.V_1 t) /\
       corner_ok (fst out) (ThreeMFTriangle.V3 o) (Triangle3.V_2 t))
    mesh (snd out).

(** ** Soundness of a bounding box

    The contract of [BoundingBox]: the box contains every point at which
    [Evaluate] is [<= 0]. *)
Definition Sound2 (s : SDF2) : Prop :=
  forall p : V2, SDF2.Evaluate s p <= 0 -> Box2.Contains (SDF2.BoundingBox s) p.

Definition Sound3 (s : SDF3) : Prop :=
  forall p : V3, SDF3.Evaluate s p <= 0 -> Box3.Contains (SDF3.BoundingBox s) p.

(** ** Nodes that cannot be told apart

    Two nodes are the same to a caller when their two methods agree: the
    same distance at every point and the same box.  Two interface values
    are the same when both are nil or both hold such nodes. *)
Definition Same2 (u v : SDF2) : Prop :=
  (forall p : V2, SDF2.Evaluate u p = SDF2.Evaluate v p) /\
  SDF2.BoundingBox u = SDF2.BoundingBox v.

Definition Same3 (u v : SDF3) : Prop :=
  (forall p : V3, SDF3.Evaluate u p = SDF3.Evaluate v p) /\
  SDF3.BoundingBox u = SDF3.BoundingBox v.

Definition SameOpt2 (x y : option SDF2) : Prop :=
  match x, y with
  | Some u, Some v => Same2 u v
  | None, None => True
  | _, _ => False
  end.

(** * Properties *)

(** ** Comparisons and constants *)

Lemma ltb_true (a b : float64) : a < b -> (a <? b) = true.
Proof. intros H; unfold ltb; destruct (Rlt_dec a b); [reflexivity | contradiction]. Qed.

Lemma ltb_false (a b : float64) : b <= a -> (a <? b) = false.
Proof. intros H; unfold ltb; destruct (Rlt_dec a b); [lra | reflexivity]. Qed.

Lemma leb_true (a b : float64) : a <= b -> (a <=? b) = true.
Proof. intros H; unfold leb; destruct (Rle_dec a b); [reflexivity | contradiction]. Qed.

Lemma leb_false (a b : float64) : b < a -> (a <=? b) = false.
Proof. intros H; unfold leb; destruct (Rle_dec a b); [lra | reflexivity]. Qed.

Lemma eqb_true (a b : float64) : a = b -> (a =? b) = true.
Proof. intros H; unfold eqb; destruct (Req_dec_T a b); [reflexivity | contradiction]. Qed.

Lemma eqb_false (a b : float64) : a <> b -> (a =? b) = false.
Proof. intros H; unfold eqb; destruct (Req_dec_T a b); [contradiction | reflexivity]. Qed.

Lemma MaxFloat64_pos : 1 <= MaxFloat64.
Proof. unfold MaxFloat64. apply IZR_le. vm_compute. discriminate. Qed.

Lemma Min_MaxFloat64 (d : float64) : d <= MaxFloat64 -> Min MaxFloat64 d = d.
Proof. intros H. unfold Min. apply Rmin_right. exact H. Qed.

Lemma sqrt_sq_0 : sqrt (0 * 0 + 0 * 0) = 0.
Proof. replace (0 * 0 + 0 * 0) with 0 by ring. apply sqrt_0. Qed.

(** Unfold the nodes and the vector helpers down to real arithmetic. *)
Ltac eval_sdf :=
  cbv -[Rplus Rminus Rmult Ropp Rinv Rdiv sqrt Rmax Rmin Rabs IZR
        Rlt Rle Rgt Rge not Rlt_dec Rle_dec Req_dec_T ltb leb eqb
        PI sin cos atan Zfloor Zceil MaxFloat64].

(** ** Extrusion *)

(** C6: the extrusion of a profile [S] to height [h] evaluates at [(x,y,z)]
    to the maximum of [S] at [(x,y)] and of the slab distance
    [max(-z, z-h)]; the unit circle extruded to height 2 gives [-1] at
    [(0,0,1)] and a positive distance at [(0,0,3)]. *)
Theorem ExtrudeSDF3_Evaluate_max :
  (forall (S : SDF2) (h x y z : float64),
      SDF3.Evaluate (NewExtrudeSDF3 S h) (V3.mk x y z)
      = Rmax (SDF2.Evaluate S (V2.mk x y)) (Rmax (- z) (z - h)))
  /\ SDF3.Evaluate (NewExtrudeSDF3 (Circle2D 1) 2) (V3.mk 0 0 1) = -1
  /\ SDF3.Evaluate (NewExtrudeSDF3 (Circle2D 1) 2) (V3.mk 0 0 3) > 0.
Proof.
  split; [ | split ].
  - intros S h x y z. reflexivity.
  - eval_sdf. rewrite sqrt_sq_0.
    rewrite (Rmax_left (- (1)) (1 - 2)) by lra.
    rewrite Rmax_left by lra. lra.
  - eval_sdf. rewrite sqrt_sq_0.
    rewrite (Rmax_right (- (3)) (3 - 2)) by lra.
    rewrite Rmax_right by lra. lra.
Qed.

(** ** Union and difference *)

Lemma sqrt_sq3_0 : sqrt (0 * 0 + 0 * 0 + 0 * 0) = 0.
Proof. replace (0 * 0 + 0 * 0 + 0 * 0) with 0 by ring. apply sqrt_0. Qed.

(** C2: a freshly constructed union of two shapes evaluates to the minimum
    of the two distances and does not depend on the order of the two
    shapes, in 2D and in 3D. *)
Theorem Union_Evaluate_min_comm :
  (forall A B : SDF2,
      exists u v : SDF2,
        NewUnionSDF2 (Some A) (Some B) = Some u /\
        NewUnionSDF2 (Some B) (Some A) = Some v /\
        forall p : V2,
          SDF2.Evaluate u p = Rmin (SDF2.Evaluate A p) (SDF2.Evaluate B p) /\
          SDF2.Evaluate u p = SDF2.Evaluate v p)
  /\
  (forall (A B : SDF3) (p : V3),
      SDF3.Evaluate (NewUnionSDF3 A B) p
      = Rmin (SDF3.Evaluate A p) (SDF3.Evaluate B p) /\
      SDF3.Evaluate (NewUnionSDF3 A B) p = SDF3.Evaluate (NewUnionSDF3 B A) p).
Proof.
  split.
  - intros A B. do 2 eexists. split; [reflexivity | split; [reflexivity | ]].
    intros p. split; [reflexivity | ].
    cbn. unfold UnionSDF2.Evaluate, NormalMin, Min. cbn. apply Rmin_comm.
  - intros A B p. split; [reflexivity | ].
    cbn. unfold UnionSDF3.Evaluate, NormalMin, Min. cbn. apply Rmin_comm.
Qed.

(** C3: a freshly constructed difference [A - B] evaluates to the maximum
    of the distance of [A] and the negated distance of [B], in 2D and in
    3D; and in both there are shapes and a point at which [A - B] and
    [B - A] differ. *)
Theorem Difference_Evaluate_max_not_comm :
  (forall A B : SDF2,
      exists d : SDF2,
        NewDifferenceSDF2 (Some A) (Some B) = Some d /\
        forall p : V2,
          SDF2.Evaluate d p = Rmax (SDF2.Evaluate A p) (- SDF2.Evaluate B p))
  /\
  (exists (A B d e : SDF2) (p : V2),
      NewDifferenceSDF2 (Some A) (Some B) = Some d /\
      NewDifferenceSDF2 (Some B) (Some A) = Some e /\
      SDF2.Evaluate d p <> SDF2.Evaluate e p)
  /\
  (forall (A B : SDF3) (p : V3),
      SDF3.Evaluate (NewDifferenceSDF3 A B) p
      = Rmax (SDF3.Evaluate A p) (- SDF3.Evaluate B p))
  /\
  (exists (A B : SDF3) (p : V3),
      SDF3.Evaluate (NewDifferenceSDF3 A B) p
      <> SDF3.Evaluate (NewDifferenceSDF3 B A) p).
Proof.
  split; [ | split; [ | split ] ].
  - intros A B. eexists. split; [reflexivity | ]. intros p. reflexivity.
  - exists (Circle2D 1), (Circle2D 2). do 2 eexists. exists (V2.mk 0 0).
    split; [reflexivity | split; [reflexivity | ]].
    eval_sdf. rewrite sqrt_sq_0.
    rewrite (Rmax_right (0 - 1) (- (0 - 2))) by lra.
    rewrite (Rmax_right (0 - 2) (- (0 - 1))) by lra. lra.
  - intros A B p. reflexivity.
  - exists (NewSphereSDF3 1), (NewSphereSDF3 2), (V3.mk 0 0 0).
    eval_sdf. rewrite sqrt_sq3_0.
    rewrite (Rmax_right (0 - 1) (- (0 - 2))) by lra.
    rewrite (Rmax_right (0 - 2) (- (0 - 1))) by lra. lra.
Qed.

(** ** Capsule *)

(** C9: [NewCapsuleSDF3 r h] is [NewCylinderSDF3 r h r]: the cylinder's
    height parameter receives [r] and its radius parameter receives [h],
    with rounding [r].  The node is the cylinder with fields
    [height = r/2 - r], [radius = h - r], [round = r]; its box is
    [(-h,-h,-r/2) .. (h,h,r/2)] and it evaluates as that rounded
    cylinder does. *)
Theorem NewCapsuleSDF3_is_swapped_cylinder :
  forall r h : float64,
    NewCapsuleSDF3 r h = NewCylinderSDF3 r h r /\
    NewCapsuleSDF3 r h
    = CylinderSDF3.iface
        (CylinderSDF3.mk (r / 2 - r) (h - r) r
           (Box3.mk (V3.mk (- h) (- h) (- (r / 2))) (V3.mk h h (r / 2)))) /\
    SDF3.BoundingBox (NewCapsuleSDF3 r h)
    = Box3.mk (V3.mk (- h) (- h) (- (r / 2))) (V3.mk h h (r / 2)) /\
    forall x y z : float64,
      SDF3.Evaluate (NewCapsuleSDF3 r h) (V3.mk x y z)
      = sdf_box2d (V2.mk (sqrt (x * x + y * y)) z) (V2.mk (h - r) (r / 2 - r)) - r.
Proof.
  intros r h. repeat split; reflexivity.
Qed.

(** ** Construction failures *)

Lemma len_lt_3 {A : Type} (l : list A) : (len l <? 3)%Z = true <-> (length l < 3)%nat.
Proof. unfold len. rewrite Z.ltb_lt. lia. Qed.

(** C7: [NewPolySDF2] returns nil exactly for the vertex lists with fewer
    than 3 vertices; [NewArraySDF2] and [NewArraySDF3] return nil exactly
    when a count component is [<= 0]; [NewRotateSDF2], [NewRotateSDF3] and
    [NewRotateCopySDF2] return nil exactly when [num <= 0].  In every other
    case the constructor returns a node. *)
Theorem constructors_nil_iff :
  (forall vertex : list V2,
      NewPolySDF2 vertex = None <-> (length vertex < 3)%nat)
  /\ (forall (sdf : SDF2) (num : V2i) (step : V2),
         NewArraySDF2 sdf num step = None
         <-> (V2i.n0 num <= 0 \/ V2i.n1 num <= 0)%Z)
  /\ (forall (sdf : SDF3) (num : V3i) (step : V3),
         NewArraySDF3 sdf num step = None
         <-> (V3i.n0 num <= 0 \/ V3i.n1 num <= 0 \/ V3i.n2 num <= 0)%Z)
  /\ (forall (sdf : SDF2) (num : Z) (step : M33),
         NewRotateSDF2 sdf num step = None <-> (num <= 0)%Z)
  /\ (forall (sdf : SDF3) (num : Z) (step : M44),
         NewRotateSDF3 sdf num step = None <-> (num <= 0)%Z)
  /\ (forall (sdf : SDF2) (num : Z),
         NewRotateCopySDF2 sdf num = None <-> (num <= 0)%Z).
Proof.
  repeat match goal with |- _ /\ _ => split end.
  - intros vertex. unfold NewPolySDF2.
    destruct (len vertex <? 3)%Z eqn:E.
    + apply len_lt_3 in E. tauto.
    + split; [discriminate | ].
      intros H. apply len_lt_3 in H. congruence.
  - intros sdf num step. unfold NewArraySDF2.
    destruct (V2i.n0 num <=? 0)%Z eqn:E0; destruct (V2i.n1 num <=? 0)%Z eqn:E1;
      cbn [orb]; rewrite ?Z.leb_le, ?Z.leb_gt in *;
      (split; [intros; try discriminate; lia | intros; try reflexivity; lia]).
  - intros sdf num step. unfold NewArraySDF3.
    destruct (V3i.n0 num <=? 0)%Z eqn:E0; destruct (V3i.n1 num <=? 0)%Z eqn:E1;
      destruct (V3i.n2 num <=? 0)%Z eqn:E2;
      cbn [orb]; rewrite ?Z.leb_le, ?Z.leb_gt in *;
      (split; [intros; try discriminate; lia | intros; try reflexivity; lia]).
  - intros sdf num step. unfold NewRotateSDF2.
    destruct (num <=? 0)%Z eqn:E; rewrite ?Z.leb_le, ?Z.leb_gt in *.
    + tauto.
    + destruct (fold_left _ _ _) as [[bb_min bb_max] v].
      split; [discriminate | lia].
  - intros sdf num step. unfold NewRotateSDF3.
    destruct (num <=? 0)%Z eqn:E; rewrite ?Z.leb_le, ?Z.leb_gt in *.
    + tauto.
    + destruct (fold_left _ _ _) as [[bb_min bb_max] v].
      split; [discriminate | lia].
  - intros sdf num. unfold NewRotateCopySDF2.
    destruct (num <=? 0)%Z eqn:E; rewrite ?Z.leb_le, ?Z.leb_gt in *.
    + tauto.
    + split; [discriminate | lia].
Qed.

(** A two-vertex polygon, counts and numbers of copies that are zero or
    negative, and six rotated copies of the unit circle. *)
Lemma constructors_nil_iff_witness :
  NewPolySDF2 [V2.mk 0 0; V2.mk 1 0] = None /\
  NewArraySDF2 (Circle2D 1) (V2i.mk 0 3) (V2.mk 1 1) = None /\
  NewArraySDF3 (NewSphereSDF3 1) (V3i.mk 1 (-1) 1) (V3.mk 1 1 1) = None /\
  NewRotateSDF2 (Circle2D 1) 0 Identity2d = None /\
  NewRotateSDF3 (NewSphereSDF3 1) (-2) Identity3d = None /\
  NewRotateCopySDF2 (Circle2D 1) 0 = None /\
  NewRotateCopySDF2 (Circle2D 1) 6 <> None.
Proof.
  destruct constructors_nil_iff as [HP [HA2 [HA3 [HR2 [HR3 HRC]]]]].
  repeat match goal with |- (_ = None) /\ _ => split end.
  - apply HP. cbn. lia.
  - apply HA2. cbn. lia.
  - apply HA3. cbn. lia.
  - apply HR2. lia.
  - apply HR3. lia.
  - apply HRC. lia.
  - intros H. apply HRC in H. lia.
Defined.

(** ** Arrays *)

Lemma V2_Sub_zero_step (p step : V2) :
  V2.Sub p (V2.mk (0 * V2.X step) (0 * V2.Y step)) = p.
Proof. destruct p as [x y]. unfold V2.Sub. cbn. f_equal; ring. Qed.

Lemma V3_Sub_zero_step (p step : V3) :
  V3.Sub p (V3.mk (0 * V3.X step) (0 * V3.Y step) (0 * V3.Z step)) = p.
Proof. destruct p as [x y z]. unfold V3.Sub. cbn. f_equal; ring. Qed.

Lemma Range_1 : Range 1 = [0%Z].
Proof. reflexivity. Qed.

(** C8: an array with all counts equal to 1 is pointwise the base shape,
    for every step vector: with the default min function, at every point
    where the base shape's distance is finite, the array evaluates to the
    base shape's distance.  In 2D with counts (1,1), in 3D with (1,1,1). *)
Theorem Array_count_one_identity :
  (forall (S : SDF2) (step p : V2),
      finite (SDF2.Evaluate S p) ->
      exists a : SDF2,
        NewArraySDF2 S (V2i.mk 1 1) step = Some a /\
        SDF2.Evaluate a p = SDF2.Evaluate S p)
  /\
  (forall (S : SDF3) (step p : V3),
      finite (SDF3.Evaluate S p) ->
      exists a : SDF3,
        NewArraySDF3 S (V3i.mk 1 1 1) step = Some a /\
        SDF3.Evaluate a p = SDF3.Evaluate S p).
Proof.
  split.
  - intros S step p [_ Hfin]. eexists. split; [reflexivity | ].
    cbn -[Range]. unfold ArraySDF2.Evaluate, NormalMin. cbn -[Range].
    rewrite Range_1. cbn. rewrite V2_Sub_zero_step. apply Min_MaxFloat64. exact Hfin.
  - intros S step p [_ Hfin]. eexists. split; [reflexivity | ].
    cbn -[Range]. unfold ArraySDF3.Evaluate, NormalMin. cbn -[Range].
    rewrite Range_1. cbn. rewrite V3_Sub_zero_step. apply Min_MaxFloat64. exact Hfin.
Qed.

Lemma finite_minus_1 : finite (-1).
Proof. unfold finite. pose proof MaxFloat64_pos. lra. Qed.

Lemma Circle2D_1_origin : SDF2.Evaluate (Circle2D 1) (V2.mk 0 0) = -1.
Proof. eval_sdf. rewrite sqrt_sq_0. lra. Qed.

Lemma NewSphereSDF3_1_origin : SDF3.Evaluate (NewSphereSDF3 1) (V3.mk 0 0 0) = -1.
Proof. eval_sdf. rewrite sqrt_sq3_0. lra. Qed.

(** The unit circle and the unit sphere at the origin, with steps (5,7) and
    (5,7,9). *)
Lemma Array_count_one_identity_witness :
  (exists a : SDF2,
      NewArraySDF2 (Circle2D 1) (V2i.mk 1 1) (V2.mk 5 7) = Some a /\
      SDF2.Evaluate a (V2.mk 0 0) = SDF2.Evaluate (Circle2D 1) (V2.mk 0 0))
  /\
  (exists a : SDF3,
      NewArraySDF3 (NewSphereSDF3 1) (V3i.mk 1 1 1) (V3.mk 5 7 9) = Some a /\
      SDF3.Evaluate a (V3.mk 0 0 0) = SDF3.Evaluate (NewSphereSDF3 1) (V3.mk 0 0 0)).
Proof.
  split.
  - apply (proj1 Array_count_one_identity).
    rewrite Circle2D_1_origin. exact finite_minus_1.
  - apply (proj2 Array_count_one_identity).
    rewrite NewSphereSDF3_1_origin. exact finite_minus_1.
Defined.

(** ** Transform *)

Lemma M33_Inverse_MulPosition (M : M33) (p : V2) :
  M33.Determinant M <> 0 ->
  M33.MulPosition (M33.Inverse M) (M33.MulPosition M p) = p.
Proof.
  destruct M as [a00 a01 a02 a10 a11 a12], p as [x y].
  unfold M33.Determinant, M33.Inverse, M33.MulPosition, M33.Determinant.
  cbn. intros Hdet. f_equal; field; exact Hdet.
Qed.

Lemma M44_Inverse_MulPosition (M : M44) (p : V3) :
  M44.Determinant M <> 0 ->
  M44.MulPosition (M44.Inverse M) (M44.MulPosition M p) = p.
Proof.
  destruct M as [a00 a01 a02 a03 a10 a11 a12 a13 a20 a21 a22 a23], p as [x y z].
  unfold M44.Determinant, M44.Inverse, M44.MulPosition, M44.Determinant.
  cbn. intros Hdet. f_equal; field; exact Hdet.
Qed.

(** C4: a transform node evaluates its child at the precomputed inverse
    matrix applied to the query point; hence for an invertible matrix [M]
    (non-zero determinant) the node evaluates at [M * p] to what the child
    evaluates at [p].  In 2D and in 3D. *)
Theorem Transform_round_trip :
  (forall (S : SDF2) (M : M33) (q : V2),
      SDF2.Evaluate (NewTransformSDF2 S M) q
      = SDF2.Evaluate S (M33.MulPosition (M33.Inverse M) q))
  /\
  (forall (S : SDF2) (M : M33) (p : V2),
      M33.Determinant M <> 0 ->
      SDF2.Evaluate (NewTransformSDF2 S M) (M33.MulPosition M p)
      = SDF2.Evaluate S p)
  /\
  (forall (S : SDF3) (M : M44) (q : V3),
      SDF3.Evaluate (NewTransformSDF3 S M) q
      = SDF3.Evaluate S (M44.MulPosition (M44.Inverse M) q))
  /\
  (forall (S : SDF3) (M : M44) (p : V3),
      M44.Determinant M <> 0 ->
      SDF3.Evaluate (NewTransformSDF3 S M) (M44.MulPosition M p)
      = SDF3.Evaluate S p).
Proof.
  split; [ | split; [ | split ] ].
  - intros S M q. reflexivity.
  - intros S M p Hdet. cbn. unfold TransformSDF2.Evaluate. cbn.
    rewrite M33_Inverse_MulPosition by exact Hdet. reflexivity.
  - intros S M q. reflexivity.
  - intros S M p Hdet. cbn. unfold TransformSDF3.Evaluate. cbn.
    rewrite M44_Inverse_MulPosition by exact Hdet. reflexivity.
Qed.

Lemma M33_example_det : M33.Determinant (M33.mk 2 0 1 0 2 2) <> 0.
Proof. unfold M33.Determinant. cbn. lra. Qed.

Lemma M44_example_det :
  M44.Determinant (M44.mk 2 0 0 1 0 2 0 2 0 0 2 3) <> 0.
Proof. unfold M44.Determinant. cbn. lra. Qed.

(** The unit circle and the unit sphere, scaled by 2 and moved by (1,2) and
    (1,2,3), at the image of the origin. *)
Lemma Transform_round_trip_witness :
  SDF2.Evaluate (NewTransformSDF2 (Circle2D 1) (M33.mk 2 0 1 0 2 2))
                (M33.MulPosition (M33.mk 2 0 1 0 2 2) (V2.mk 0 0))
  = SDF2.Evaluate (Circle2D 1) (V2.mk 0 0)
  /\
  SDF3.Evaluate (NewTransformSDF3 (NewSphereSDF3 1) (M44.mk 2 0 0 1 0 2 0 2 0 0 2 3))
                (M44.MulPosition (M44.mk 2 0 0 1 0 2 0 2 0 0 2 3) (V3.mk 0 0 0))
  = SDF3.Evaluate (NewSphereSDF3 1) (V3.mk 0 0 0).
Proof.
  split.
  - apply (proj1 (proj2 Transform_round_trip)). exact M33_example_det.
  - apply (proj2 (proj2 (proj2 Transform_round_trip))). exact M44_example_det.
Defined.

(** ** Solid of revolution *)

Lemma Trunc_small (r : float64) : 0 <= r < 1 -> Trunc r = 0%Z.
Proof.
  intros [H0 H1]. unfold Trunc. rewrite ltb_false by exact H0.
  apply Zfloor_eq. cbn. lra.
Qed.

Lemma TAU_pos : 0 < TAU.
Proof. unfold TAU. pose proof PI_RGT_0. lra. Qed.

Lemma Mod_small (t : float64) : 0 <= t < TAU -> Mod (Abs t) TAU = t.
Proof.
  intros [H0 H1]. pose proof TAU_pos as HT.
  unfold Mod, Abs. rewrite Rabs_pos_eq by exact H0.
  rewrite Trunc_small.
  - ring.
  - split.
    + apply Rmult_le_pos; [exact H0 | ]. left. apply Rinv_0_lt_compat. exact HT.
    + apply Rmult_lt_reg_r with TAU; [exact HT | ].
      unfold Rdiv. rewrite Rmult_assoc, Rinv_l by lra. lra.
Qed.

(** [Evaluate] on the node [NewSorThetaSDF3] builds, in terms of the
    normalized angle. *)
Lemma SorSDF3_Evaluate_unfold (S : SDF2) (theta x y z : float64) :
  let th := Mod (Abs theta) TAU in
  let a := SDF2.Evaluate S (V2.mk (sqrt (x * x + y * y)) z) in
  let d := - sin th * x + cos th * y in
  SDF3.Evaluate (NewSorThetaSDF3 S theta) (V3.mk x y z)
  = Max a (if negb (th =? 0)
           then (if th <? PI then Max (- y) d else Min (- y) d)
           else a).
Proof. reflexivity. Qed.

(** C5: the solid of revolution of a profile [S] evaluates at [(x,y,z)]
    from the profile's distance [a] at [(sqrt(x^2+y^2), z)].  With [th] the
    normalized angle and [d] the dot product of [(x,y)] with the normal
    [(-sin th, cos th)] to the theta line: the result is [a] when [th] is
    zero; otherwise it is the maximum of [a] and the wedge term, which is
    [max(-y, d)] when [th < pi] and [min(-y, d)] when [th >= pi]. *)
Theorem SorSDF3_Evaluate_wedge :
  forall (S : SDF2) (theta x y z : float64),
    let th := Mod (Abs theta) TAU in
    let a := SDF2.Evaluate S (V2.mk (sqrt (x * x + y * y)) z) in
    let d := - sin th * x + cos th * y in
    let r := SDF3.Evaluate (NewSorThetaSDF3 S theta) (V3.mk x y z) in
    (th = 0 -> r = a) /\
    (th <> 0 -> th < PI -> r = Rmax a (Rmax (- y) d)) /\
    (th <> 0 -> PI <= th -> r = Rmax a (Rmin (- y) d)).
Proof.
  intros S theta x y z th a d r.
  pose proof (SorSDF3_Evaluate_unfold S theta x y z) as Hr.
  cbv zeta in Hr. fold th a d r in Hr.
  repeat split.
  - intros H0. rewrite Hr, eqb_true by exact H0. cbn.
    unfold Max. apply Rmax_left. lra.
  - intros Hn Hlt. rewrite Hr, eqb_false, ltb_true by assumption. reflexivity.
  - intros Hn Hge. rewrite Hr, eqb_false, ltb_false by assumption. reflexivity.
Qed.

Lemma Mod_0 : Mod (Abs 0) TAU = 0.
Proof. apply Mod_small. pose proof TAU_pos. lra. Qed.

Lemma Mod_PI2 : Mod (Abs (PI / 2)) TAU = PI / 2.
Proof. apply Mod_small. unfold TAU. pose proof PI_RGT_0. lra. Qed.

Lemma Mod_PI : Mod (Abs PI) TAU = PI.
Proof. apply Mod_small. unfold TAU. pose proof PI_RGT_0. lra. Qed.

(** The unit circle revolved by 0 (a full turn), by a quarter turn and by a
    half turn, at the point (1,1,0). *)
Lemma SorSDF3_Evaluate_wedge_witness :
  SDF3.Evaluate (NewSorThetaSDF3 (Circle2D 1) 0) (V3.mk 1 1 0)
  = SDF2.Evaluate (Circle2D 1) (V2.mk (sqrt (1 * 1 + 1 * 1)) 0)
  /\
  SDF3.Evaluate (NewSorThetaSDF3 (Circle2D 1) (PI / 2)) (V3.mk 1 1 0)
  = Rmax (SDF2.Evaluate (Circle2D 1) (V2.mk (sqrt (1 * 1 + 1 * 1)) 0))
         (Rmax (- (1))
               (- sin (Mod (Abs (PI / 2)) TAU) * 1 + cos (Mod (Abs (PI / 2)) TAU) * 1))
  /\
  SDF3.Evaluate (NewSorThetaSDF3 (Circle2D 1) PI) (V3.mk 1 1 0)
  = Rmax (SDF2.Evaluate (Circle2D 1) (V2.mk (sqrt (1 * 1 + 1 * 1)) 0))
         (Rmin (- (1))
               (- sin (Mod (Abs PI) TAU) * 1 + cos (Mod (Abs PI) TAU) * 1)).
Proof.
  pose proof PI_RGT_0 as Hpi.
  split; [ | split ].
  - apply (proj1 (SorSDF3_Evaluate_wedge (Circle2D 1) 0 1 1 0)).
    exact Mod_0.
  - apply (proj1 (proj2 (SorSDF3_Evaluate_wedge (Circle2D 1) (PI / 2) 1 1 0)));
      rewrite Mod_PI2; lra.
  - apply (proj2 (proj2 (SorSDF3_Evaluate_wedge (Circle2D 1) PI 1 1 0)));
      rewrite Mod_PI; lra.
Defined.

(** X5: a revolution through a half turn ([theta = pi]) evaluates to the
    maximum of the profile's distance and [-y]: the wedge is the half space
    [y >= 0].  For the unit circle as profile the point (0,1/2,0) is inside
    and its image (0,-1/2,0) under the half turn about the Z axis is not. *)
Theorem SorSDF3_half_turn :
  (forall (S : SDF2) (x y z : float64),
      SDF3.Evaluate (NewSorThetaSDF3 S PI) (V3.mk x y z)
      = Rmax (SDF2.Evaluate S (V2.mk (sqrt (x * x + y * y)) z)) (- y))
  /\ SDF3.Evaluate (NewSorThetaSDF3 (Circle2D 1) PI) (V3.mk 0 (1 / 2) 0) < 0
  /\ SDF3.Evaluate (NewSorThetaSDF3 (Circle2D 1) PI) (V3.mk 0 (- (1 / 2)) 0) > 0.
Proof.
  assert (H : forall (S : SDF2) (x y z : float64),
             SDF3.Evaluate (NewSorThetaSDF3 S PI) (V3.mk x y z)
             = Rmax (SDF2.Evaluate S (V2.mk (sqrt (x * x + y * y)) z)) (- y)).
  { intros S x y z. pose proof PI_RGT_0 as Hpi.
    rewrite SorSDF3_Evaluate_unfold, Mod_PI.
    rewrite eqb_false, ltb_false by lra. cbn [negb]. unfold Max, Min.
    rewrite sin_PI, cos_PI.
    replace (- 0 * x + -1 * y) with (- y) by ring.
    rewrite Rmin_left by lra. reflexivity. }
  split; [exact H | split].
  - rewrite H. eval_sdf.
    replace (sqrt (sqrt (0 * 0 + 1 / 2 * (1 / 2)) * sqrt (0 * 0 + 1 / 2 * (1 / 2)) + 0 * 0))
      with (1 / 2).
    + rewrite Rmax_right by lra. lra.
    + symmetry. rewrite (@sqrt_lem_1 (0 * 0 + 1 / 2 * (1 / 2)) (1 / 2)) by lra.
      apply sqrt_lem_1; lra.
  - rewrite H. eval_sdf.
    match goal with |- Rmax ?a ?b > 0 => pose proof (Rmax_r a b) end. lra.
Qed.

(** ** Bounding boxes *)

Lemma sqrt_9 : sqrt 9 = 3.
Proof. apply sqrt_lem_1; lra. Qed.

Lemma sqrt_5_lt_3 : sqrt 5 < 3.
Proof. rewrite <- sqrt_9. apply sqrt_lt_1; lra. Qed.

Lemma sqrt_le_1_inv (s : R) : 0 <= s -> sqrt s <= 1 -> s <= 1.
Proof.
  intros Hs H. pose proof (sqrt_pos s) as Hp.
  rewrite <- (sqrt_sqrt s Hs). nra.
Qed.

Lemma sum_sq_nonneg (a b : R) : 0 <= a * a + b * b.
Proof. nra. Qed.

Lemma sum_sq_le_1 (a b : R) :
  a * a + b * b <= 1 -> -1 <= a <= 1 /\ -1 <= b <= 1.
Proof. intros H. repeat split; nra. Qed.

Lemma Atan2_neg_x_axis : Atan2 0 (-3) = PI.
Proof.
  unfold Atan2.
  rewrite (@ltb_false 0 (-3)) by lra.
  rewrite (@ltb_true (-3) 0) by lra.
  rewrite (@ltb_false 0 0) by lra.
  replace (0 / -3) with 0 by (field; lra).
  rewrite atan_0. ring.
Qed.

Lemma SawTooth_PI_TAU : SawTooth PI (TAU / 1) = PI.
Proof.
  unfold SawTooth, TAU. pose proof PI_RGT_0 as Hpi.
  replace (PI / (2 * PI / 1)) with (1 / 2) by (field; lra).
  rewrite (Zfloor_eq 0) by (cbn; lra).
  ring.
Qed.

Lemma PolarToXY_3_PI : PolarToXY 3 PI = V2.mk (-3) 0.
Proof. unfold PolarToXY. rewrite cos_PI, sin_PI. f_equal; ring. Qed.

Lemma Length_neg3_0 : V2.Length (V2.mk (-3) 0) = 3.
Proof. unfold V2.Length, V2.Length2. cbn. apply sqrt_lem_1; lra. Qed.

(** *** Nodes whose box is sound *)

Lemma Rabs_le_sqrt_sum (x y : R) : Rabs x <= sqrt (x * x + y * y).
Proof.
  rewrite <- sqrt_Rsqr_abs. unfold Rsqr.
  apply sqrt_le_1_alt. pose proof (Rle_0_sqr y) as H. unfold Rsqr in H. lra.
Qed.

Lemma Rabs_le_sqrt_sum3 (x y z : R) :
  Rabs x <= sqrt (x * x + y * y + z * z) /\
  Rabs y <= sqrt (x * x + y * y + z * z) /\
  Rabs z <= sqrt (x * x + y * y + z * z).
Proof.
  pose proof (Rle_0_sqr x) as Hx. pose proof (Rle_0_sqr y) as Hy.
  pose proof (Rle_0_sqr z) as Hz. unfold Rsqr in *.
  repeat split; rewrite <- sqrt_Rsqr_abs; unfold Rsqr; apply sqrt_le_1_alt; lra.
Qed.

Lemma Rabs_le_bounds (x r : R) : Rabs x <= r -> - r <= x <= r.
Proof.
  intros H. unfold Rabs in H.
  destruct (Rcase_abs x) as [Hneg | Hpos]; lra.
Qed.

Lemma Rmax_le_0 (a b : R) : Rmax a b <= 0 -> a <= 0 /\ b <= 0.
Proof.
  intros H. pose proof (Rmax_l a b). pose proof (Rmax_r a b). lra.
Qed.

Lemma Rmin_le_0 (a b : R) : Rmin a b <= 0 -> a <= 0 \/ b <= 0.
Proof.
  intros H. destruct (Rle_dec a b) as [Hab | Hab].
  - rewrite Rmin_left in H by exact Hab. left; exact H.
  - rewrite Rmin_right in H by lra. right; exact H.
Qed.

Lemma Box2_Extend_l (a b : Box2) (p : V2) :
  Box2.Contains a p -> Box2.Contains (Box2.Extend a b) p.
Proof.
  unfold Box2.Contains, Box2.Extend, V2.Min, V2.Max, Min, Max. cbn.
  intros [[H1 H2] [H3 H4]].
  pose proof (Rmin_l (V2.X (Box2.Min a)) (V2.X (Box2.Min b))).
  pose proof (Rmin_l (V2.Y (Box2.Min a)) (V2.Y (Box2.Min b))).
  pose proof (Rmax_l (V2.X (Box2.Max a)) (V2.X (Box2.Max b))).
  pose proof (Rmax_l (V2.Y (Box2.Max a)) (V2.Y (Box2.Max b))).
  repeat split; lra.
Qed.

Lemma Box2_Extend_r (a b : Box2) (p : V2) :
  Box2.Contains b p -> Box2.Contains (Box2.Extend a b) p.
Proof.
  unfold Box2.Contains, Box2.Extend, V2.Min, V2.Max, Min, Max. cbn.
  intros [[H1 H2] [H3 H4]].
  pose proof (Rmin_r (V2.X (Box2.Min a)) (V2.X (Box2.Min b))).
  pose proof (Rmin_r (V2.Y (Box2.Min a)) (V2.Y (Box2.Min b))).
  pose proof (Rmax_r (V2.X (Box2.Max a)) (V2.X (Box2.Max b))).
  pose proof (Rmax_r (V2.Y (Box2.Max a)) (V2.Y (Box2.Max b))).
  repeat split; lra.
Qed.

Lemma Box3_Extend_l (a b : Box3) (p : V3) :
  Box3.Contains a p -> Box3.Contains (Box3.Extend a b) p.
Proof.
  unfold Box3.Contains, Box3.Extend, V3.Min, V3.Max, Min, Max. cbn.
  intros [[H1 H2] [[H3 H4] [H5 H6]]].
  pose proof (Rmin_l (V3.X (Box3.Min a)) (V3.X (Box3.Min b))).
  pose proof (Rmin_l (V3.Y (Box3.Min a)) (V3.Y (Box3.Min b))).
  pose proof (Rmin_l (V3.Z (Box3.Min a)) (V3.Z (Box3.Min b))).
  pose proof (Rmax_l (V3.X (Box3.Max a)) (V3.X (Box3.Max b))).
  pose proof (Rmax_l (V3.Y (Box3.Max a)) (V3.Y (Box3.Max b))).
  pose proof (Rmax_l (V3.Z (Box3.Max a)) (V3.Z (Box3.Max b))).
  repeat split; lra.
Qed.

Lemma Box3_Extend_r (a b : Box3) (p : V3) :
  Box3.Contains b p -> Box3.Contains (Box3.Extend a b) p.
Proof.
  unfold Box3.Contains, Box3.Extend, V3.Min, V3.Max, Min, Max. cbn.
  intros [[H1 H2] [[H3 H4] [H5 H6]]].
  pose proof (Rmin_r (V3.X (Box3.Min a)) (V3.X (Box3.Min b))).
  pose proof (Rmin_r (V3.Y (Box3.Min a)) (V3.Y (Box3.Min b))).
  pose proof (Rmin_r (V3.Z (Box3.Min a)) (V3.Z (Box3.Min b))).
  pose proof (Rmax_r (V3.X (Box3.Max a)) (V3.X (Box3.Max b))).
  pose proof (Rmax_r (V3.Y (Box3.Max a)) (V3.Y (Box3.Max b))).
  pose proof (Rmax_r (V3.Z (Box3.Max a)) (V3.Z (Box3.Max b))).
  repeat split; lra.
Qed.

(** The circle and the sphere of any radius have a sound box. *)
Lemma Circle2D_Sphere_Sound :
  (forall r : float64, Sound2 (Circle2D r)) /\
  (forall r : float64, Sound3 (NewSphereSDF3 r)).
Proof.
  split.
  - intros r [x y]. unfold Sound2, Box2.Contains. cbn.
    unfold CircleSDF2.Evaluate, V2.Length, V2.Length2. cbn. intros H.
    pose proof (Rabs_le_sqrt_sum x y) as Hx.
    pose proof (Rabs_le_sqrt_sum y x) as Hy.
    rewrite (Rplus_comm (y * y)) in Hy.
    apply Rabs_le_bounds in Hx. apply Rabs_le_bounds in Hy.
    repeat split; lra.
  - intros r [x y z]. unfold Sound3, Box3.Contains. cbn.
    unfold SphereSDF3.Evaluate, V3.Length. cbn. intros H.
    destruct (Rabs_le_sqrt_sum3 x y z) as [Hx [Hy Hz]].
    apply Rabs_le_bounds in Hx. apply Rabs_le_bounds in Hy.
    apply Rabs_le_bounds in Hz.
    repeat split; lra.
Qed.

(** X1: a cut keeps the box of its child (the source leaves "cut the
    bounding box" as a TODO), and that box is sound for the cut when it is
    for the child. *)
Lemma NewCutSDF2_Sound (sdf : SDF2) (a v : V2) :
  Sound2 sdf ->
  SDF2.BoundingBox (NewCutSDF2 sdf a v) = SDF2.BoundingBox sdf /\
  Sound2 (NewCutSDF2 sdf a v).
Proof.
  intros Hs. split; [reflexivity | ].
  intros p. cbn. unfold CutSDF2.Evaluate, Max. cbn. intros H.
  apply Rmax_le_0 in H. apply Hs. tauto.
Qed.

Lemma NewCutSDF2_Sound_witness :
  SDF2.BoundingBox (NewCutSDF2 (Circle2D 1) (V2.mk 0 0) (V2.mk 0 1))
  = SDF2.BoundingBox (Circle2D 1) /\
  Sound2 (NewCutSDF2 (Circle2D 1) (V2.mk 0 0) (V2.mk 0 1)).
Proof.
  apply NewCutSDF2_Sound. apply (proj1 Circle2D_Sphere_Sound).
Defined.

(** X2: the union of two nodes with sound boxes has a sound box, and so
    has the difference of a node with a sound box and any node; in 2D and
    in 3D. *)
Lemma Union_Difference_Sound :
  (forall a b u : SDF2,
      Sound2 a -> Sound2 b ->
      NewUnionSDF2 (Some a) (Some b) = Some u -> Sound2 u) /\
  (forall a b d : SDF2,
      Sound2 a ->
      NewDifferenceSDF2 (Some a) (Some b) = Some d -> Sound2 d) /\
  (forall a b : SDF3, Sound3 a -> Sound3 b -> Sound3 (NewUnionSDF3 a b)) /\
  (forall a b : SDF3, Sound3 a -> Sound3 (NewDifferenceSDF3 a b)).
Proof.
  split; [ | split; [ | split ] ].
  - intros a b u Ha Hb E. injection E as <-. intros p. cbn.
    unfold UnionSDF2.Evaluate, NormalMin, Min. cbn. intros H.
    apply Rmin_le_0 in H. destruct H as [H | H].
    + apply Box2_Extend_l, Ha, H.
    + apply Box2_Extend_r, Hb, H.
  - intros a b d Ha E. injection E as <-. intros p. cbn.
    unfold DifferenceSDF2.Evaluate, NormalMax, Max. cbn. intros H.
    apply Rmax_le_0 in H. apply Ha. tauto.
  - intros a b Ha Hb p. cbn.
    unfold UnionSDF3.Evaluate, NormalMin, Min. cbn. intros H.
    apply Rmin_le_0 in H. destruct H as [H | H].
    + apply Box3_Extend_l, Ha, H.
    + apply Box3_Extend_r, Hb, H.
  - intros a b Ha p. cbn.
    unfold DifferenceSDF3.Evaluate, NormalMax, Max. cbn. intros H.
    apply Rmax_le_0 in H. apply Ha. tauto.
Qed.

(** Circles and spheres of radius 1 and 2. *)
Lemma Union_Difference_Sound_witness :
  (exists u : SDF2,
      NewUnionSDF2 (Some (Circle2D 1)) (Some (Circle2D 2)) = Some u /\ Sound2 u) /\
  (exists d : SDF2,
      NewDifferenceSDF2 (Some (Circle2D 2)) (Some (Circle2D 1)) = Some d /\
      Sound2 d) /\
  Sound3 (NewUnionSDF3 (NewSphereSDF3 1) (NewSphereSDF3 2)) /\
  Sound3 (NewDifferenceSDF3 (NewSphereSDF3 2) (NewSphereSDF3 1)).
Proof.
  destruct Union_Difference_Sound as [HU2 [HD2 [HU3 HD3]]].
  pose proof (proj1 Circle2D_Sphere_Sound) as HC.
  pose proof (proj2 Circle2D_Sphere_Sound) as HS.
  split; [ | split; [ | split ] ].
  - eexists. split; [reflexivity | ].
    apply (HU2 (Circle2D 1) (Circle2D 2)); [apply HC | apply HC | reflexivity].
  - eexists. split; [reflexivity | ].
    apply (HD2 (Circle2D 2) (Circle2D 1)); [apply HC | reflexivity].
  - apply HU3; apply HS.
  - apply HD3. apply HS.
Defined.

(** X3: the extrusion of a profile with a sound box has a sound box. *)
Lemma NewExtrudeSDF3_Sound (sdf : SDF2) (height : float64) :
  Sound2 sdf -> Sound3 (NewExtrudeSDF3 sdf height).
Proof.
  intros Hs [x y z]. unfold Box3.Contains. cbn.
  unfold ExtrudeSDF3.Evaluate, Max. cbn. intros H.
  apply Rmax_le_0 in H. destruct H as [Ha Hb].
  apply Rmax_le_0 in Hb. destruct Hb as [Hz0 Hzh].
  destruct (Hs (V2.mk x y) Ha) as [Hx Hy]. cbn in Hx, Hy.
  repeat split; lra.
Qed.

Lemma NewExtrudeSDF3_Sound_witness : Sound3 (NewExtrudeSDF3 (Circle2D 1) 2).
Proof.
  apply NewExtrudeSDF3_Sound. apply (proj1 Circle2D_Sphere_Sound).
Defined.

(** *** Rotate-copy *)

Lemma MultiCircle_example_Sound : Sound2 (NewMultiCircleSDF2 1 [V2.mk (-3) 0]).
Proof.
  intros [qx qy]. eval_sdf. intros H.
  rewrite !Rmax_left, !Rmin_left by lra. pose proof MaxFloat64_pos as HM.
  assert (Hs : sqrt ((qx - -3) * (qx - -3) + (qy - 0) * (qy - 0)) <= 1).
  { apply Rmin_le_0 in H. destruct H as [H | H]; lra. }
  clear H. apply sqrt_le_1_inv in Hs; [ | apply sum_sq_nonneg ].
  destruct (sum_sq_le_1 Hs) as [Hx Hy].
  repeat split; lra.
Qed.

(** C1 (the code departs from the claim): the multi-circle node of radius 1
    with its one circle at (-3,0) has a sound box, (-4,-1)..(-2,1).  Its
    rotate-copy with one copy evaluates to a distance [<= 0] at (-3,0), and
    (-3,0) lies outside the box of the rotate-copy node, whose half-width is
    the length of the corner (-2,1) only: that box is not sound. *)
Theorem RotateCopySDF2_box_unsound :
  let base := NewMultiCircleSDF2 1 [V2.mk (-3) 0] in
  let p := V2.mk (-3) 0 in
  Sound2 base /\
  exists node : SDF2,
    NewRotateCopySDF2 base 1 = Some node /\
    SDF2.Evaluate node p <= 0 /\
    ~ Box2.Contains (SDF2.BoundingBox node) p /\
    ~ Sound2 node.
Proof.
  intros base p. split; [exact MultiCircle_example_Sound | ].
  eexists. split; [reflexivity | ].
  match goal with |- ?A /\ ?B /\ _ => assert (HA : A); [ | assert (HB : B) ] end.
  - subst base p. cbn.
    unfold RotateCopySDF2.Evaluate.
    cbn [RotateCopySDF2.sdf RotateCopySDF2.theta V2.X V2.Y].
    rewrite Length_neg3_0, Atan2_neg_x_axis, SawTooth_PI_TAU, PolarToXY_3_PI.
    eval_sdf.
    replace (sqrt ((-3 - -3) * (-3 - -3) + (0 - 0) * (0 - 0))) with 0
      by (symmetry; apply sqrt_lem_1; lra).
    pose proof MaxFloat64_pos as HM.
    rewrite Rmin_right by lra. lra.
  - subst base p. eval_sdf.
    rewrite !Rmax_left by lra.
    replace ((-3 + 1) * (-3 + 1) + (0 + 1) * (0 + 1)) with 5 by ring.
    pose proof sqrt_5_lt_3. lra.
  - split; [exact HA | split; [exact HB | ]].
    intros Hsound. apply HB, Hsound, HA.
Qed.

(** ** 3MF export: the vertex table *)

Lemma dedupe_build (mesh : list Triangle3) :
  dedupe mesh = build (mesh_vertices mesh).
Proof.
  unfold dedupe, build, mesh_vertices.
  generalize (@nil (V3 * Z)) as m.
  induction mesh as [ | t mesh IH ]; intros m.
  - reflexivity.
  - cbn [fold_left flat_map]. rewrite fold_left_app. apply IH.
Qed.

Lemma mem_keys (m : VertexMap.t) (v : V3) :
  VertexMap.mem m v = true <-> In v (keys m).
Proof.
  induction m as [ | [w j] m IH ]; cbn.
  - split; [discriminate | tauto].
  - destruct (V3_eq_dec w v) as [E | N].
    + split; [intros _; left; exact E | reflexivity].
    + rewrite IH. split; [tauto | intros [H | H]; [contradiction | exact H]].
Qed.

Lemma set_len (m : VertexMap.t) (v : V3) (i : Z) :
  VertexMap.len (VertexMap.set m v i) = if VertexMap.mem m v then VertexMap.len m else (VertexMap.len m + 1)%Z.
Proof.
  unfold VertexMap.len. induction m as [ | [w j] m IH ]; cbn [VertexMap.set VertexMap.mem length].
  - reflexivity.
  - destruct (V3_eq_dec w v) as [E | N]; cbn [length].
    + reflexivity.
    + destruct (VertexMap.mem m v); lia.
Qed.

Lemma set_keys (m : VertexMap.t) (v : V3) (i : Z) :
  forall w, In w (keys (VertexMap.set m v i)) <-> w = v \/ In w (keys m).
Proof.
  intros u. induction m as [ | [w j] m IH ]; cbn.
  - intuition congruence.
  - destruct (V3_eq_dec w v) as [E | N]; cbn.
    + subst w. intuition congruence.
    + rewrite IH. tauto.
Qed.

Lemma set_In_same (m : VertexMap.t) (v : V3) (i : Z) : In (v, i) (VertexMap.set m v i).
Proof.
  induction m as [ | [w j] m IH ]; cbn.
  - left; reflexivity.
  - destruct (V3_eq_dec w v) as [E | N].
    + subst w. left; reflexivity.
    + right; exact IH.
Qed.

Lemma set_In_inv (m : VertexMap.t) (v : V3) (i : Z) (w : V3) (j : Z) :
  In (w, j) (VertexMap.set m v i) -> (w = v /\ j = i) \/ In (w, j) m.
Proof.
  induction m as [ | [u k] m IH ]; cbn.
  - intros [H | []]. left. split; congruence.
  - destruct (V3_eq_dec u v) as [E | N]; cbn.
    + intros [H | H]; [left; split; congruence | right; right; exact H].
    + intros [H | H]; [right; left; exact H | ].
      destruct (IH H) as [H' | H']; [left; exact H' | right; right; exact H'].
Qed.

Lemma build_snoc (l : list V3) (v : V3) :
  build (l ++ [v]) = VertexMap.set (build l) v (VertexMap.len (build l)).
Proof. unfold build. rewrite fold_left_app. reflexivity. Qed.

Lemma len_nonneg (m : VertexMap.t) : (0 <= VertexMap.len m)%Z.
Proof. unfold VertexMap.len. lia. Qed.

(** After any number of steps: the keys are the vertices seen so far, and
    no index exceeds the number of keys. *)
Lemma build_invariant (l : list V3) :
  (forall v, In v (keys (build l)) <-> In v l) /\
  (forall v i, In (v, i) (build l) -> (0 <= i <= VertexMap.len (build l))%Z).
Proof.
  induction l as [ | v l IH ] using rev_ind.
  - split; [intros v; cbn; tauto | intros v i []].
  - destruct IH as [IHk IHi]. rewrite build_snoc. split.
    + intros w. rewrite set_keys, IHk, in_app_iff. cbn. intuition congruence.
    + intros w j H. pose proof (len_nonneg (build l)) as Hl.
      rewrite set_len.
      apply set_In_inv in H. destruct H as [[_ ->] | H].
      * destruct (VertexMap.mem (build l) v); lia.
      * apply IHi in H. destruct (VertexMap.mem (build l) v); lia.
Qed.

(** The indices are within bounds exactly when the last vertex visited is
    a new one. *)
Lemma build_InBounds_snoc (l : list V3) (v : V3) :
  InBounds (build (l ++ [v])) <-> ~ In v l.
Proof.
  destruct (build_invariant l) as [Hk Hi].
  rewrite build_snoc. split.
  - intros HB Hin.
    specialize (HB v (VertexMap.len (build l)) (set_In_same _ _ _)).
    rewrite set_len in HB.
    apply Hk, mem_keys in Hin. rewrite Hin in HB. lia.
  - intros Hnin w j H.
    rewrite set_len.
    assert (Hm : VertexMap.mem (build l) v = false).
    { destruct (VertexMap.mem (build l) v) eqn:E; [ | reflexivity ].
      apply mem_keys, Hk in E. contradiction. }
    rewrite Hm. pose proof (len_nonneg (build l)) as Hl.
    apply set_In_inv in H. destruct H as [[_ ->] | H].
    + lia.
    + apply Hi in H. lia.
Qed.

Lemma update_length {A : Type} (l : list A) (i : nat) (x : A) :
  length (update l i x) = length l.
Proof.
  revert i. induction l as [ | y l IH ]; intros [ | i ]; cbn; congruence.
Qed.

Lemma store_Some {A : Type} (l : list A) (i : Z) (x : A) :
  (0 <= i < Z.of_nat (length l))%Z ->
  exists l', store l i x = Some l' /\ length l' = length l.
Proof.
  intros H. unfold store, len.
  eexists. split; [ | apply update_length ].
  replace ((0 <=? i)%Z && (i <? Z.of_nat (length l))%Z) with true; [reflexivity | ].
  symmetry. apply andb_true_iff. rewrite Z.leb_le, Z.ltb_lt. exact H.
Qed.

Lemma fill_None (entries : VertexMap.t) : fold_left fill_step entries None = None.
Proof. induction entries as [ | e r IH ]; [reflexivity | exact IH]. Qed.

Lemma store_None {A : Type} (l : list A) (i : Z) (x : A) :
  ~ (0 <= i < Z.of_nat (length l))%Z -> store l i x = None.
Proof.
  intros H. unfold store, len.
  destruct (0 <=? i)%Z eqn:E0; [ | reflexivity ].
  destruct (i <? Z.of_nat (length l))%Z eqn:E1; [ | reflexivity ].
  apply Z.leb_le in E0. apply Z.ltb_lt in E1. lia.
Qed.

(** The second loop runs to its end exactly when every index is in range. *)
Lemma fill_loop (entries : VertexMap.t) :
  forall out : list ThreeMFVertex,
    fold_left fill_step entries (Some out) <> None
    <-> (forall v i, In (v, i) entries -> (0 <= i < Z.of_nat (length out))%Z).
Proof.
  induction entries as [ | [w j] r IH ]; intros out.
  - cbn. split; [intros _ v i [] | discriminate].
  - cbn [fold_left fill_step].
    destruct (Z_le_dec 0 j) as [H0 | H0];
      [ destruct (Z_lt_dec j (Z.of_nat (length out))) as [H1 | H1] | ].
    + destruct (@store_Some _ out j (ThreeMFVertex.mk (V3.X w) (V3.Y w) (V3.Z w)))
        as [out' [Hs Hl]]; [lia | ].
      rewrite Hs. split.
      * intros H v i [E | Hin]; [inversion E; subst; lia | ].
        rewrite <- Hl. revert v i Hin. apply IH. exact H.
      * intros H. apply IH. intros v i Hin. rewrite Hl. apply (H v i). right. exact Hin.
    + rewrite store_None by lia. rewrite fill_None. split; [congruence | ].
      intros H. specialize (H w j (or_introl eq_refl)). lia.
    + rewrite store_None by lia. rewrite fill_None. split; [congruence | ].
      intros H. specialize (H w j (or_introl eq_refl)). lia.
Qed.

Lemma outputVertices_InBounds (m : VertexMap.t) :
  outputVertices m <> None <-> InBounds m.
Proof.
  unfold outputVertices. rewrite fill_loop, repeat_length. reflexivity.
Qed.

Lemma Save3MF_InBounds (mesh : list Triangle3) :
  Save3MF mesh <> None <-> InBounds (build (mesh_vertices mesh)).
Proof.
  unfold Save3MF. rewrite <- dedupe_build, <- outputVertices_InBounds.
  destruct (outputVertices (dedupe mesh)); split; congruence.
Qed.

Lemma Save3MF_None_iff (mesh : list Triangle3) :
  Save3MF mesh = None
  <-> exists l v, mesh_vertices mesh = l ++ [v] /\ In v l.
Proof.
  pose proof (Save3MF_InBounds mesh) as HB.
  destruct (mesh_vertices mesh) as [ | x l' ] eqn:E using rev_ind.
  - split.
    + intros HN. exfalso. apply HB; [ | exact HN ]. intros v i [].
    + intros [l [v [H _]]]. destruct l; discriminate.
  - rewrite build_InBounds_snoc in HB. split.
    + intros HN. exists l', x. split; [reflexivity | ].
      destruct (in_dec V3_eq_dec x l') as [Hin | Hnin]; [exact Hin | ].
      exfalso. exact (proj2 HB Hnin HN).
    + intros [l [v [H Hin]]]. apply app_inj_tail in H. destruct H as [-> ->].
      destruct (Save3MF mesh) as [ r | ]; [ | reflexivity ].
      exfalso. apply (proj1 HB); [discriminate | exact Hin].
Qed.

Lemma V3_neq_X (x1 y1 z1 x2 y2 z2 : R) :
  x1 <> x2 -> V3.mk x1 y1 z1 <> V3.mk x2 y2 z2.
Proof. intros H E. apply H. congruence. Qed.

Lemma V3_neq_Y (x1 y1 z1 x2 y2 z2 : R) :
  y1 <> y2 -> V3.mk x1 y1 z1 <> V3.mk x2 y2 z2.
Proof. intros H E. apply H. congruence. Qed.

Lemma set_nil (v : V3) (i : Z) : VertexMap.set [] v i = [(v, i)].
Proof. reflexivity. Qed.

Lemma set_cons_eq (v : V3) (j i : Z) (r : VertexMap.t) :
  VertexMap.set ((v, j) :: r) v i = (v, i) :: r.
Proof. cbn. destruct (V3_eq_dec v v) as [E | N]; [reflexivity | contradiction]. Qed.

Lemma set_cons_neq (w v : V3) (j i : Z) (r : VertexMap.t) :
  w <> v -> VertexMap.set ((w, j) :: r) v i = (w, j) :: VertexMap.set r v i.
Proof. intros H. cbn. destruct (V3_eq_dec w v) as [E | N]; [contradiction | reflexivity]. Qed.

Ltac v3_neq := first [ apply V3_neq_X; lra | apply V3_neq_Y; lra ].

Ltac set_steps :=
  repeat first
    [ rewrite set_nil
    | rewrite set_cons_eq
    | rewrite set_cons_neq by v3_neq ].

(** The map the first loop builds for the unit square cut into the
    triangles (a,b,c) and (a,c,d): 4 keys, every index below 4. *)
Example dedupe_square :
  dedupe [Triangle3.mk (V3.mk 0 0 0) (V3.mk 1 0 0) (V3.mk 1 1 0);
          Triangle3.mk (V3.mk 0 0 0) (V3.mk 1 1 0) (V3.mk 0 1 0)]
  = [(V3.mk 0 0 0, 3%Z); (V3.mk 1 0 0, 1%Z); (V3.mk 1 1 0, 3%Z); (V3.mk 0 1 0, 3%Z)].
Proof.
  unfold dedupe. cbn [fold_left Triangle3.V Triangle3.V_0 Triangle3.V_1 Triangle3.V_2].
  set_steps. reflexivity.
Qed.

(** The map for one triangle whose first and third vertices coincide:
    2 keys, and the index 2. *)
Example dedupe_first_third_equal :
  dedupe [Triangle3.mk (V3.mk 0 0 0) (V3.mk 1 0 0) (V3.mk 0 0 0)]
  = [(V3.mk 0 0 0, 2%Z); (V3.mk 1 0 0, 1%Z)].
Proof.
  unfold dedupe. cbn [fold_left Triangle3.V Triangle3.V_0 Triangle3.V_1 Triangle3.V_2].
  set_steps. reflexivity.
Qed.

(** A write past the end: the entry of (0,0,0) carries the index 2 and the
    slice has 2 elements. *)
Example Save3MF_first_third_equal :
  Save3MF [Triangle3.mk (V3.mk 0 0 0) (V3.mk 1 0 0) (V3.mk 0 0 0)] = None.
Proof.
  apply Save3MF_None_iff.
  exists [V3.mk 0 0 0; V3.mk 1 0 0], (V3.mk 0 0 0).
  split; [reflexivity | left; reflexivity].
Qed.

(** C10 (as amended): the first loop of [Save3MF] gives a vertex the number
    of keys the map has at that moment, so an index never exceeds the final
    number of keys and can equal it.  A write of the second loop is out of
    range exactly when the last vertex of the last triangle occurs earlier
    in the mesh.  So every mesh that ends in a triangle whose first and
    third vertices coincide is out of range, and every mesh whose vertex
    positions are all distinct is within range. *)
Theorem Save3MF_out_of_range_iff_last_vertex_repeats :
  (forall (mesh : list Triangle3) (v : V3) (i : Z),
      In (v, i) (dedupe mesh) -> (0 <= i <= VertexMap.len (dedupe mesh))%Z)
  /\
  (forall mesh : list Triangle3,
      Save3MF mesh = None
      <-> exists l v, mesh_vertices mesh = l ++ [v] /\ In v l)
  /\
  (forall (mesh : list Triangle3) (a b : V3),
      Save3MF (mesh ++ [Triangle3.mk a b a]) = None)
  /\
  (forall mesh : list Triangle3,
      NoDup (mesh_vertices mesh) -> Save3MF mesh <> None).
Proof.
  split; [ | split; [exact Save3MF_None_iff | split] ].
  - intros mesh v i. rewrite dedupe_build.
    apply (proj2 (build_invariant (mesh_vertices mesh))).
  - intros mesh a b. apply Save3MF_None_iff.
    exists (mesh_vertices mesh ++ [a; b]), a. split.
    + unfold mesh_vertices. rewrite flat_map_app. cbn.
      rewrite <- app_assoc. reflexivity.
    + apply in_or_app. right. left. reflexivity.
  - intros mesh Hnd HN. apply Save3MF_None_iff in HN.
    destruct HN as [l [v [E Hin]]]. rewrite E in Hnd.
    apply NoDup_remove_2 in Hnd. apply Hnd. rewrite app_nil_r. exact Hin.
Qed.

(** The index 2 in the map of a triangle whose first and third vertices
    coincide, and one triangle with three distinct corners. *)
Lemma Save3MF_out_of_range_iff_last_vertex_repeats_witness :
  (0 <= 2
   <= VertexMap.len
        (dedupe [Triangle3.mk (V3.mk 0 0 0) (V3.mk 1 0 0) (V3.mk 0 0 0)]))%Z
  /\
  Save3MF [Triangle3.mk (V3.mk 0 0 0) (V3.mk 1 0 0) (V3.mk 1 1 0)] <> None.
Proof.
  split.
  - apply (proj1 Save3MF_out_of_range_iff_last_vertex_repeats) with (v := V3.mk 0 0 0).
    rewrite dedupe_first_third_equal. left. reflexivity.
  - apply (proj2 (proj2 (proj2 Save3MF_out_of_range_iff_last_vertex_repeats))).
    cbn. repeat constructor; cbn.
    + intros [H | [H | []]]; revert H.
      * apply V3_neq_X. lra.
      * apply V3_neq_X. lra.
    + intros [H | []]; revert H. apply V3_neq_Y. lra.
    + tauto.
Defined.

(** C10 (as stated, refuted): the unit square cut into the triangles
    (a,b,c) and (a,c,d) repeats the positions a and c, and every write is
    within range: the map ends as a:3, b:1, c:3, d:3 with 4 keys. *)
Lemma Save3MF_repeated_vertices_within_range :
  let a := V3.mk 0 0 0 in
  let b := V3.mk 1 0 0 in
  let c := V3.mk 1 1 0 in
  let d := V3.mk 0 1 0 in
  let mesh := [Triangle3.mk a b c; Triangle3.mk a c d] in
  ~ NoDup (mesh_vertices mesh) /\
  dedupe mesh = [(a, 3%Z); (b, 1%Z); (c, 3%Z); (d, 3%Z)] /\
  Save3MF mesh <> None /\
  ~ (forall mesh' : list Triangle3,
        Save3MF mesh' <> None -> NoDup (mesh_vertices mesh')).
Proof.
  intros a b c d mesh.
  assert (Hdup : ~ NoDup (mesh_vertices mesh)).
  { cbn. intros H. inversion H as [ | x l Hnin _ ]; subst.
    apply Hnin. right. right. left. reflexivity. }
  assert (Hok : Save3MF mesh <> None).
  { apply Save3MF_InBounds.
    change (mesh_vertices mesh) with ([a; b; c; a; c] ++ [d]).
    apply build_InBounds_snoc.
    intros [H | [H | [H | [H | [H | []]]]]]; revert H; subst a b c d.
    - apply V3_neq_Y. lra.
    - apply V3_neq_X. lra.
    - apply V3_neq_X. lra.
    - apply V3_neq_Y. lra.
    - apply V3_neq_X. lra. }
  split; [exact Hdup | split; [exact dedupe_square | split; [exact Hok | ]]].
  intros H. apply Hdup, H, Hok.
Qed.

(** ** Polygon *)

(** Decide one comparison, minimum, maximum or absolute value of the goal
    whose arguments are numbers. *)
Ltac cmp_step :=
  match goal with
  | |- context [ltb ?a ?b] =>
      first [ rewrite (@ltb_true a b) by lra | rewrite (@ltb_false a b) by lra ]
  | |- context [leb ?a ?b] =>
      first [ rewrite (@leb_true a b) by lra | rewrite (@leb_false a b) by lra ]
  | |- context [eqb ?a ?b] =>
      first [ rewrite (@eqb_true a b) by lra | rewrite (@eqb_false a b) by lra ]
  | |- context [Rmin ?a ?b] =>
      first [ rewrite (@Rmin_left a b) by lra | rewrite (@Rmin_right a b) by lra ]
  | |- context [Rmax ?a ?b] =>
      first [ rewrite (@Rmax_left a b) by lra | rewrite (@Rmax_right a b) by lra ]
  | |- context [Rabs ?a] =>
      first [ rewrite (@Rabs_pos_eq a) by lra | rewrite (@Rabs_left1 a) by lra ]
  end.

(** Run the innermost turn of the polygon loop, the one whose loop variables
    are known. *)
Ltac poly_step :=
  match goal with
  | |- context [PolySDF2.segment ?s ?p (PolySDF2.mkloop ?d ?w ?b) ?i] =>
      let t := constr:(PolySDF2.segment s p (PolySDF2.mkloop d w b) i) in
      let t' := eval cbv -[Rplus Rminus Rmult Ropp Rinv Rdiv sqrt Rmax Rmin Rabs
                           IZR Rlt_dec Rle_dec Req_dec_T ltb leb eqb MaxFloat64] in t in
      change t with t'; repeat cmp_step
  end.

Lemma MaxFloat64_big : 100 <= MaxFloat64.
Proof. unfold MaxFloat64. apply IZR_le. vm_compute. discriminate. Qed.

Lemma sqrt_is_1 (s : R) : s = 1 -> sqrt s = 1.
Proof. intros ->. apply sqrt_1. Qed.

Lemma sqrt_is (s r : R) : 0 <= r -> r * r = s -> sqrt s = r.
Proof. intros Hr H. apply sqrt_lem_1; [ subst s; nra | exact Hr | exact H ]. Qed.

Lemma square_open : V2.Equals (V2.mk 0 0) (V2.mk 0 1) 0 = false.
Proof. unfold V2.Equals, Abs. cbn. repeat cmp_step. reflexivity. Qed.

(** The node [NewPolySDF2] builds for the unit square: the loop is closed,
    and the unit vectors and the lengths of the four sides are stored. *)
Lemma NewPolySDF2_square :
  NewPolySDF2 [V2.mk 0 0; V2.mk 1 0; V2.mk 1 1; V2.mk 0 1]
  = Some (PolySDF2.iface
            (PolySDF2.mk
               [V2.mk 0 0; V2.mk 1 0; V2.mk 1 1; V2.mk 0 1; V2.mk 0 0]
               [V2.mk 1 0; V2.mk 0 1; V2.mk (-1) 0; V2.mk 0 (-1)]
               [1; 1; 1; 1]
               (Box2.mk (V2.mk 0 0) (V2.mk 1 1)))).
Proof.
  unfold NewPolySDF2.
  cbv -[Rplus Rminus Rmult Ropp Rinv Rdiv sqrt Rmax Rmin Rabs IZR
        Rlt_dec Rle_dec Req_dec_T ltb leb eqb PolySDF2.iface V2.Equals].
  rewrite !square_open.
  cbv -[Rplus Rminus Rmult Ropp Rinv Rdiv sqrt Rmax Rmin Rabs IZR
        Rlt_dec Rle_dec Req_dec_T ltb leb eqb PolySDF2.iface].
  repeat match goal with
         | |- context [sqrt ?s] => rewrite (@sqrt_is_1 s) by lra
         end.
  repeat cmp_step.
  repeat f_equal; lra.
Qed.

(** X4: the polygon of the unit square (0,0),(1,0),(1,1),(0,1) evaluates to
    [-1/2] at its centre (1/2,1/2) and to [sqrt 2], the distance to the
    corner (1,1), at (2,2). *)
Theorem PolySDF2_unit_square :
  exists s : SDF2,
    NewPolySDF2 [V2.mk 0 0; V2.mk 1 0; V2.mk 1 1; V2.mk 0 1] = Some s /\
    SDF2.Evaluate s (V2.mk (1 / 2) (1 / 2)) = - (1 / 2) /\
    SDF2.Evaluate s (V2.mk 2 2) = sqrt 2.
Proof.
  eexists. split; [exact NewPolySDF2_square | ].
  pose proof MaxFloat64_big as HM.
  split.
  - cbn [SDF2.Evaluate PolySDF2.iface]. unfold PolySDF2.Evaluate.
    cbn [PolySDF2.vertex index nth Z.to_nat V2.Sub V2.X V2.Y].
    change (Range _) with [0%Z; 1%Z; 2%Z; 3%Z]. cbn [fold_left].
    do 4 poly_step.
    cbn [PolySDF2.dd PolySDF2.wn negb Z.eqb].
    f_equal. apply sqrt_is; lra.
  - cbn [SDF2.Evaluate PolySDF2.iface]. unfold PolySDF2.Evaluate.
    cbn [PolySDF2.vertex index nth Z.to_nat V2.Sub V2.X V2.Y].
    change (Range _) with [0%Z; 1%Z; 2%Z; 3%Z]. cbn [fold_left].
    do 4 poly_step.
    cbn [PolySDF2.dd PolySDF2.wn negb Z.eqb].
    f_equal. lra.
Qed.

(** ** Primitives: the box is sound *)

(** The distance to a box is at least the overshoot on each axis. *)
Lemma sdf_box2d_ge (p s : V2) :
  Rabs (V2.X p) - V2.X s <= sdf_box2d p s /\
  Rabs (V2.Y p) - V2.Y s <= sdf_box2d p s.
Proof.
  destruct p as [px py], s as [sx sy].
  unfold sdf_box2d, V2.Length, V2.Length2, V2.Abs, V2.Sub, Abs, ltb. cbn.
  set (dx := Rabs px - sx). set (dy := Rabs py - sy).
  destruct (Rlt_dec 0 dx) as [Hx | Hx]; destruct (Rlt_dec 0 dy) as [Hy | Hy]; cbn;
    try (destruct (Rlt_dec (sy - sx) (Rabs py - Rabs px)) as [Hk | Hk];
         subst dx dy; split; lra).
  pose proof (Rabs_le_sqrt_sum dx dy) as H1.
  pose proof (Rabs_le_sqrt_sum dy dx) as H2.
  rewrite (Rplus_comm (dy * dy)) in H2.
  pose proof (Rle_abs dx). pose proof (Rle_abs dy). split; lra.
Qed.

Lemma sdf_box3d_ge (p s : V3) :
  Rabs (V3.X p) - V3.X s <= sdf_box3d p s /\
  Rabs (V3.Y p) - V3.Y s <= sdf_box3d p s /\
  Rabs (V3.Z p) - V3.Z s <= sdf_box3d p s.
Proof.
  destruct p as [px py pz], s as [sx sy sz].
  unfold sdf_box3d, V3.Length, V3.MaxComponent, V3.Max, V3.Abs, V3.Sub, Abs, Max, Min.
  cbn.
  set (dx := Rabs px - sx). set (dy := Rabs py - sy). set (dz := Rabs pz - sz).
  destruct (Rabs_le_sqrt_sum3 (Rmax dx 0) (Rmax dy 0) (Rmax dz 0)) as [Hx [Hy Hz]].
  set (L := sqrt _) in *.
  pose proof (Rmax_l dx 0). pose proof (Rmax_r dx 0).
  pose proof (Rmax_l dy 0). pose proof (Rmax_r dy 0).
  pose proof (Rmax_l dz 0). pose proof (Rmax_r dz 0).
  rewrite Rabs_pos_eq in Hx, Hy, Hz by assumption.
  set (m := Rmax (Rmax dx dy) dz).
  assert (Hm : dx <= m /\ dy <= m /\ dz <= m).
  { subst m. pose proof (Rmax_l (Rmax dx dy) dz). pose proof (Rmax_r (Rmax dx dy) dz).
    pose proof (Rmax_l dx dy). pose proof (Rmax_r dx dy). lra. }
  destruct (Rle_dec m 0) as [Hle | Hgt].
  - rewrite (Rmin_left m 0) by exact Hle. lra.
  - rewrite (Rmin_right m 0) by lra. lra.
Qed.

(** The minimum a loop accumulates is below its start value and below every
    value it meets, and it is one of them. *)
Lemma fold_min_le {A : Type} (f : A -> R) (l : list A) (d0 : R) :
  fold_left (fun d x => Rmin d (f x)) l d0 <= d0 /\
  forall x, In x l -> fold_left (fun d x => Rmin d (f x)) l d0 <= f x.
Proof.
  revert d0. induction l as [ | a l IH ]; intros d0; cbn [fold_left].
  - split; [lra | intros x []].
  - destruct (IH (Rmin d0 (f a))) as [H0 Hl].
    pose proof (Rmin_l d0 (f a)). pose proof (Rmin_r d0 (f a)).
    split; [lra | ]. intros x [<- | Hin]; [lra | apply Hl, Hin].
Qed.

Lemma fold_min_attained {A : Type} (f : A -> R) (l : list A) (d0 : R) :
  fold_left (fun d x => Rmin d (f x)) l d0 = d0 \/
  exists x, In x l /\ fold_left (fun d x => Rmin d (f x)) l d0 = f x.
Proof.
  revert d0. induction l as [ | a l IH ]; intros d0; cbn [fold_left].
  - left; reflexivity.
  - destruct (IH (Rmin d0 (f a))) as [H | [x [Hin H]]].
    + rewrite H. destruct (Rle_dec d0 (f a)) as [Hle | Hgt].
      * left. apply Rmin_left. exact Hle.
      * right. exists a. split; [left; reflexivity | apply Rmin_right; lra].
    + right. exists x. split; [right; exact Hin | exact H].
Qed.

Lemma fold_V2_Min_le (l : list V2) (v0 : V2) :
  (V2.X (fold_left V2.Min l v0) <= V2.X v0 /\
   V2.Y (fold_left V2.Min l v0) <= V2.Y v0) /\
  forall v, In v l ->
    V2.X (fold_left V2.Min l v0) <= V2.X v /\
    V2.Y (fold_left V2.Min l v0) <= V2.Y v.
Proof.
  revert v0. induction l as [ | a l IH ]; intros v0; cbn [fold_left].
  - split; [lra | intros v []].
  - destruct (IH (V2.Min v0 a)) as [[H0x H0y] Hl].
    change (V2.X (V2.Min v0 a)) with (Rmin (V2.X v0) (V2.X a)) in H0x.
    change (V2.Y (V2.Min v0 a)) with (Rmin (V2.Y v0) (V2.Y a)) in H0y.
    pose proof (Rmin_l (V2.X v0) (V2.X a)). pose proof (Rmin_r (V2.X v0) (V2.X a)).
    pose proof (Rmin_l (V2.Y v0) (V2.Y a)). pose proof (Rmin_r (V2.Y v0) (V2.Y a)).
    split; [lra | ]. intros v [<- | Hin]; [lra | apply Hl, Hin].
Qed.

Lemma fold_V2_Max_ge (l : list V2) (v0 : V2) :
  (V2.X v0 <= V2.X (fold_left V2.Max l v0) /\
   V2.Y v0 <= V2.Y (fold_left V2.Max l v0)) /\
  forall v, In v l ->
    V2.X v <= V2.X (fold_left V2.Max l v0) /\
    V2.Y v <= V2.Y (fold_left V2.Max l v0).
Proof.
  revert v0. induction l as [ | a l IH ]; intros v0; cbn [fold_left].
  - split; [lra | intros v []].
  - destruct (IH (V2.Max v0 a)) as [[H0x H0y] Hl].
    change (V2.X (V2.Max v0 a)) with (Rmax (V2.X v0) (V2.X a)) in H0x.
    change (V2.Y (V2.Max v0 a)) with (Rmax (V2.Y v0) (V2.Y a)) in H0y.
    pose proof (Rmax_l (V2.X v0) (V2.X a)). pose proof (Rmax_r (V2.X v0) (V2.X a)).
    pose proof (Rmax_l (V2.Y v0) (V2.Y a)). pose proof (Rmax_r (V2.Y v0) (V2.Y a)).
    split; [lra | ]. intros v [<- | Hin]; [lra | apply Hl, Hin].
Qed.

(** The extremes of a set of points bound each of its points. *)
Lemma V2Set_Min_Max_bound (a : V2Set) (v : V2) :
  In v a ->
  (V2.X (V2Set.Min a) <= V2.X v <= V2.X (V2Set.Max a)) /\
  (V2.Y (V2Set.Min a) <= V2.Y v <= V2.Y (V2Set.Max a)).
Proof.
  intros Hin. destruct a as [ | v0 r ]; [destruct Hin | ].
  unfold V2Set.Min, V2Set.Max.
  destruct (fold_V2_Min_le (v0 :: r) v0) as [_ Hmin].
  destruct (fold_V2_Max_ge (v0 :: r) v0) as [_ Hmax].
  specialize (Hmin v Hin). specialize (Hmax v Hin). lra.
Qed.

(** X6: every 2D primitive has a sound box, whatever its parameters: the
    circle, the box (rounded or not), the line and the multi-circle node
    contain in their box every point at which they evaluate to [<= 0]. *)
Theorem Primitives2D_Sound :
  (forall r : float64, Sound2 (Circle2D r)) /\
  (forall (size : V2) (round : float64), Sound2 (NewBoxSDF2 size round)) /\
  (forall l round : float64, Sound2 (NewLineSDF2 l round)) /\
  (forall (radius : float64) (positions : V2Set),
      Sound2 (NewMultiCircleSDF2 radius positions)).
Proof.
  split; [exact (proj1 Circle2D_Sphere_Sound) | split; [ | split ] ].
  - intros [sx sy] round [px py]. unfold Box2.Contains. cbn.
    unfold BoxSDF2.Evaluate. cbn. intros H.
    destruct (sdf_box2d_ge (V2.mk px py) (V2.mk (sx * (1 / 2) - round) (sy * (1 / 2) - round)))
      as [Hx Hy].
    unfold V2.SubScalar, V2.MulScalar in H. cbn [V2.X V2.Y] in *.
    assert (Hax : Rabs px <= sx * (1 / 2)) by lra.
    assert (Hay : Rabs py <= sy * (1 / 2)) by lra.
    apply Rabs_le_bounds in Hax. apply Rabs_le_bounds in Hay.
    repeat split; lra.
  - intros l round [px py]. unfold Box2.Contains. cbn.
    unfold LineSDF2.Evaluate, V2.Length, V2.Length2, V2.Abs, V2.Sub, Abs, leb. cbn.
    pose proof (Rabs_pos px) as Hpx. pose proof (Rabs_pos py) as Hpy.
    destruct (Rle_dec (Rabs px) (l / 2)) as [Hle | Hgt]; intros H.
    + assert (Hax : Rabs px <= l / 2 + round) by lra.
      assert (Hay : Rabs py <= round) by lra.
      apply Rabs_le_bounds in Hax. apply Rabs_le_bounds in Hay.
      repeat split; lra.
    + pose proof (Rabs_le_sqrt_sum (Rabs px - l / 2) (Rabs py - 0)) as H1.
      pose proof (Rabs_le_sqrt_sum (Rabs py - 0) (Rabs px - l / 2)) as H2.
      rewrite (Rplus_comm ((Rabs py - 0) * (Rabs py - 0))) in H2.
      pose proof (Rle_abs (Rabs px - l / 2)). pose proof (Rle_abs (Rabs py - 0)).
      assert (Hax : Rabs px <= l / 2 + round) by lra.
      assert (Hay : Rabs py <= round) by lra.
      apply Rabs_le_bounds in Hax. apply Rabs_le_bounds in Hay.
      repeat split; lra.
  - intros radius positions [px py]. unfold Box2.Contains. cbn.
    unfold MultiCircleSDF2.Evaluate, Min. cbn [MultiCircleSDF2.positions MultiCircleSDF2.radius].
    intros H.
    destruct (fold_min_attained
                (fun posn => V2.Length (V2.Sub (V2.mk px py) posn) - radius)
                positions MaxFloat64) as [E | [posn [Hin E]]];
      rewrite E in H.
    + pose proof MaxFloat64_pos. lra.
    + destruct (V2Set_Min_Max_bound positions posn Hin) as [Hbx Hby].
      destruct posn as [qx qy]. cbn in Hbx, Hby.
      unfold V2.Length, V2.Length2, V2.Sub in H. cbn in H.
      pose proof (Rabs_le_sqrt_sum (px - qx) (py - qy)) as H1.
      pose proof (Rabs_le_sqrt_sum (py - qy) (px - qx)) as H2.
      rewrite (Rplus_comm ((py - qy) * (py - qy))) in H2.
      assert (Hax : Rabs (px - qx) <= radius) by lra.
      assert (Hay : Rabs (py - qy) <= radius) by lra.
      apply Rabs_le_bounds in Hax. apply Rabs_le_bounds in Hay.
      repeat split; lra.
Qed.

(** X7: every 3D primitive has a sound box, whatever its parameters: the
    sphere, the box, the cylinder, the capsule (with its arguments as the
    source passes them on) and the multi-cylinder node. *)
Theorem Primitives3D_Sound :
  (forall r : float64, Sound3 (NewSphereSDF3 r)) /\
  (forall (size : V3) (round : float64), Sound3 (NewBoxSDF3 size round)) /\
  (forall height radius round : float64,
      Sound3 (NewCylinderSDF3 height radius round)) /\
  (forall radius height : float64, Sound3 (NewCapsuleSDF3 radius height)) /\
  (forall (height radius : float64) (positions : V2Set),
      Sound3 (NewMultiCylinderSDF3 height radius positions)).
Proof.
  assert (Hcyl : forall height radius round : float64,
             Sound3 (NewCylinderSDF3 height radius round)).
  { intros height radius round [px py pz]. unfold Box3.Contains. cbn.
    unfold CylinderSDF3.Evaluate. cbn. intros H.
    destruct (sdf_box2d_ge (V2.mk (V2.Length (V2.mk px py)) pz)
                (V2.mk (radius - round) (height / 2 - round))) as [Hr Hz].
    cbn in Hr, Hz. unfold V2.Length, V2.Length2 in *. cbn in *.
    pose proof (Rabs_le_sqrt_sum px py) as H1.
    pose proof (Rabs_le_sqrt_sum py px) as H2.
    rewrite (Rplus_comm (py * py)) in H2.
    pose proof (Rle_abs (sqrt (px * px + py * py))) as H3.
    assert (Hax : Rabs px <= radius) by lra.
    assert (Hay : Rabs py <= radius) by lra.
    assert (Haz : Rabs pz <= height / 2) by lra.
    apply Rabs_le_bounds in Hax. apply Rabs_le_bounds in Hay.
    apply Rabs_le_bounds in Haz.
    repeat split; lra. }
  split; [exact (proj2 Circle2D_Sphere_Sound) | split; [ | split; [ | split ] ] ].
  - intros [sx sy sz] round [px py pz]. unfold Box3.Contains. cbn.
    unfold BoxSDF3.Evaluate. cbn. intros H.
    destruct (sdf_box3d_ge (V3.mk px py pz)
                (V3.mk (sx * (1 / 2) - round) (sy * (1 / 2) - round)
                       (sz * (1 / 2) - round))) as [Hx [Hy Hz]].
    unfold V3.SubScalar, V3.MulScalar in H. cbn [V3.X V3.Y V3.Z] in *.
    assert (Hax : Rabs px <= sx * (1 / 2)) by lra.
    assert (Hay : Rabs py <= sy * (1 / 2)) by lra.
    assert (Haz : Rabs pz <= sz * (1 / 2)) by lra.
    apply Rabs_le_bounds in Hax. apply Rabs_le_bounds in Hay.
    apply Rabs_le_bounds in Haz.
    repeat split; lra.
  - exact Hcyl.
  - intros radius height. apply Hcyl.
  - intros height radius positions [px py pz]. unfold Box3.Contains. cbn.
    unfold MultiCylinderSDF3.Evaluate, Min.
    cbn [MultiCylinderSDF3.positions MultiCylinderSDF3.radius MultiCylinderSDF3.height
         V3.X V3.Y V3.Z].
    intros H.
    destruct (fold_min_attained
                (fun posn =>
                   sdf_box2d (V2.mk (V2.Length (V2.Sub (V2.mk px py) posn)) pz)
                             (V2.mk radius (height / 2)))
                positions MaxFloat64) as [E | [posn [Hin E]]];
      rewrite E in H.
    + pose proof MaxFloat64_pos. lra.
    + destruct (V2Set_Min_Max_bound positions posn Hin) as [Hbx Hby].
      destruct posn as [qx qy]. cbn in Hbx, Hby.
      destruct (sdf_box2d_ge (V2.mk (V2.Length (V2.Sub (V2.mk px py) (V2.mk qx qy))) pz)
                  (V2.mk radius (height / 2))) as [Hr Hz].
      cbn in Hr, Hz. unfold V2.Length, V2.Length2, V2.Sub in *. cbn in *.
      pose proof (Rabs_le_sqrt_sum (px - qx) (py - qy)) as H1.
      pose proof (Rabs_le_sqrt_sum (py - qy) (px - qx)) as H2.
      rewrite (Rplus_comm ((py - qy) * (py - qy))) in H2.
      pose proof (Rle_abs (sqrt ((px - qx) * (px - qx) + (py - qy) * (py - qy)))) as H3.
      assert (Hax : Rabs (px - qx) <= radius) by lra.
      assert (Hay : Rabs (py - qy) <= radius) by lra.
      assert (Haz : Rabs pz <= height / 2) by lra.
      apply Rabs_le_bounds in Hax. apply Rabs_le_bounds in Hay.
      apply Rabs_le_bounds in Haz.
      repeat split; lra.
Qed.

(** ** Union, difference and offset as operations on shapes *)

Lemma Rmin_idem (a : R) : Rmin a a = a.
Proof. apply Rmin_left. lra. Qed.

Lemma Rmax_idem (a : R) : Rmax a a = a.
Proof. apply Rmax_left. lra. Qed.

Lemma V2_eq (a b : V2) : V2.X a = V2.X b -> V2.Y a = V2.Y b -> a = b.
Proof. destruct a, b. cbn. intros -> ->. reflexivity. Qed.

Lemma V3_eq (a b : V3) :
  V3.X a = V3.X b -> V3.Y a = V3.Y b -> V3.Z a = V3.Z b -> a = b.
Proof. destruct a, b. cbn. intros -> -> ->. reflexivity. Qed.

Lemma Box2_eq (a b : Box2) : Box2.Min a = Box2.Min b -> Box2.Max a = Box2.Max b -> a = b.
Proof. destruct a, b. cbn. intros -> ->. reflexivity. Qed.

Lemma Box3_eq (a b : Box3) : Box3.Min a = Box3.Min b -> Box3.Max a = Box3.Max b -> a = b.
Proof. destruct a, b. cbn. intros -> ->. reflexivity. Qed.

Lemma Box2_Extend_comm (a b : Box2) : Box2.Extend a b = Box2.Extend b a.
Proof.
  apply Box2_eq; apply V2_eq;
    unfold Box2.Extend, V2.Min, V2.Max, Min, Max;
    cbn [Box2.Min Box2.Max V2.X V2.Y];
    first [apply Rmin_comm | apply Rmax_comm].
Qed.

Lemma Box2_Extend_assoc (a b c : Box2) :
  Box2.Extend (Box2.Extend a b) c = Box2.Extend a (Box2.Extend b c).
Proof.
  apply Box2_eq; apply V2_eq;
    unfold Box2.Extend, V2.Min, V2.Max, Min, Max;
    cbn [Box2.Min Box2.Max V2.X V2.Y];
    symmetry; first [apply Rmin_assoc | apply Rmax_assoc].
Qed.

Lemma Box2_Extend_idem (a : Box2) : Box2.Extend a a = a.
Proof.
  apply Box2_eq; apply V2_eq;
    unfold Box2.Extend, V2.Min, V2.Max, Min, Max;
    cbn [Box2.Min Box2.Max V2.X V2.Y];
    first [apply Rmin_idem | apply Rmax_idem].
Qed.

Lemma Box3_Extend_comm (a b : Box3) : Box3.Extend a b = Box3.Extend b a.
Proof.
  apply Box3_eq; apply V3_eq;
    unfold Box3.Extend, V3.Min, V3.Max, Min, Max;
    cbn [Box3.Min Box3.Max V3.X V3.Y V3.Z];
    first [apply Rmin_comm | apply Rmax_comm].
Qed.

Lemma Box3_Extend_assoc (a b c : Box3) :
  Box3.Extend (Box3.Extend a b) c = Box3.Extend a (Box3.Extend b c).
Proof.
  apply Box3_eq; apply V3_eq;
    unfold Box3.Extend, V3.Min, V3.Max, Min, Max;
    cbn [Box3.Min Box3.Max V3.X V3.Y V3.Z];
    symmetry; first [apply Rmin_assoc | apply Rmax_assoc].
Qed.

Lemma Box3_Extend_idem (a : Box3) : Box3.Extend a a = a.
Proof.
  apply Box3_eq; apply V3_eq;
    unfold Box3.Extend, V3.Min, V3.Max, Min, Max;
    cbn [Box3.Min Box3.Max V3.X V3.Y V3.Z];
    first [apply Rmin_idem | apply Rmax_idem].
Qed.

Lemma Same2_refl (u : SDF2) : Same2 u u.
Proof. split; reflexivity. Qed.

Lemma SameOpt2_refl (x : option SDF2) : SameOpt2 x x.
Proof. destruct x; cbn; [apply Same2_refl | exact I]. Qed.

(** X8: [NewUnionSDF2], on interface values that may be nil, is
    commutative, associative and idempotent, with nil as its identity: both
    sides evaluate alike at every point and have the same box.
    [NewUnionSDF3] is commutative, associative and idempotent on nodes. *)
Theorem Union_laws :
  (forall x : option SDF2,
      NewUnionSDF2 None x = x /\ NewUnionSDF2 x None = x) /\
  (forall x y : option SDF2,
      SameOpt2 (NewUnionSDF2 x y) (NewUnionSDF2 y x)) /\
  (forall x y z : option SDF2,
      SameOpt2 (NewUnionSDF2 (NewUnionSDF2 x y) z)
               (NewUnionSDF2 x (NewUnionSDF2 y z))) /\
  (forall x : option SDF2, SameOpt2 (NewUnionSDF2 x x) x) /\
  (forall a b : SDF3, Same3 (NewUnionSDF3 a b) (NewUnionSDF3 b a)) /\
  (forall a b c : SDF3,
      Same3 (NewUnionSDF3 (NewUnionSDF3 a b) c)
            (NewUnionSDF3 a (NewUnionSDF3 b c))) /\
  (forall a : SDF3, Same3 (NewUnionSDF3 a a) a).
Proof.
  repeat match goal with |- _ /\ _ => split end.
  - intros x. split; destruct x; reflexivity.
  - intros [a | ] [b | ]; cbn; try apply Same2_refl; try exact I.
    split; [ | apply Box2_Extend_comm ].
    intros p. cbn. unfold UnionSDF2.Evaluate, NormalMin, Min. cbn. apply Rmin_comm.
  - intros [a | ] [b | ] [c | ]; cbn; try apply Same2_refl; try exact I.
    split; [ | apply Box2_Extend_assoc ].
    intros p. cbn. unfold UnionSDF2.Evaluate, NormalMin, Min. cbn. symmetry. apply Rmin_assoc.
  - intros [a | ]; cbn; [ | exact I ].
    split; [ | apply Box2_Extend_idem ].
    intros p. cbn. unfold UnionSDF2.Evaluate, NormalMin, Min. cbn. apply Rmin_idem.
  - intros a b. split; [ | apply Box3_Extend_comm ].
    intros p. cbn. unfold UnionSDF3.Evaluate, NormalMin, Min. cbn. apply Rmin_comm.
  - intros a b c. split; [ | apply Box3_Extend_assoc ].
    intros p. cbn. unfold UnionSDF3.Evaluate, NormalMin, Min. cbn. symmetry. apply Rmin_assoc.
  - intros a. split; [ | apply Box3_Extend_idem ].
    intros p. cbn. unfold UnionSDF3.Evaluate, NormalMin, Min. cbn. apply Rmin_idem.
Qed.

Lemma Rmax_opp_Rmin (a b c : R) : Rmax (Rmax a (- b)) (- c) = Rmax a (- Rmin b c).
Proof.
  rewrite <- Rmax_assoc. f_equal.
  destruct (Rle_dec b c) as [H | H].
  - rewrite Rmin_left by exact H. apply Rmax_left. lra.
  - rewrite Rmin_right by lra. apply Rmax_right. lra.
Qed.

Lemma Rmax_opp_abs (a : R) : Rmax a (- a) = Rabs a.
Proof.
  unfold Rabs. destruct (Rcase_abs a) as [H | H].
  - apply Rmax_right. lra.
  - apply Rmax_left. lra.
Qed.

(** X9: subtracting nil leaves the shape and subtracting from nil gives
    nil; subtracting two shapes one after the other is subtracting their
    union; and a shape minus itself evaluates to the absolute value of its
    distance, so it is nowhere negative.  In 2D on interface values that may
    be nil, in 3D on nodes. *)
Theorem Difference_laws :
  (forall x : option SDF2,
      NewDifferenceSDF2 x None = x /\ NewDifferenceSDF2 None x = None) /\
  (forall x y z : option SDF2,
      SameOpt2 (NewDifferenceSDF2 (NewDifferenceSDF2 x y) z)
               (NewDifferenceSDF2 x (NewUnionSDF2 y z))) /\
  (forall a : SDF2,
      exists d : SDF2,
        NewDifferenceSDF2 (Some a) (Some a) = Some d /\
        forall p : V2, SDF2.Evaluate d p = Rabs (SDF2.Evaluate a p)) /\
  (forall a b c : SDF3,
      Same3 (NewDifferenceSDF3 (NewDifferenceSDF3 a b) c)
            (NewDifferenceSDF3 a (NewUnionSDF3 b c))) /\
  (forall (a : SDF3) (p : V3),
      SDF3.Evaluate (NewDifferenceSDF3 a a) p = Rabs (SDF3.Evaluate a p)).
Proof.
  repeat match goal with |- _ /\ _ => split end.
  - intros x. split; destruct x; reflexivity.
  - intros [a | ] [b | ] [c | ]; cbn; try apply Same2_refl; try exact I.
    split; [ | reflexivity ].
    intros p. cbn.
    unfold DifferenceSDF2.Evaluate, UnionSDF2.Evaluate, NormalMax, NormalMin, Max, Min.
    cbn. unfold DifferenceSDF2.Evaluate, NormalMax, Max. cbn. apply Rmax_opp_Rmin.
  - intros a. eexists. split; [reflexivity | ]. intros p. cbn.
    unfold DifferenceSDF2.Evaluate, NormalMax, Max. cbn. apply Rmax_opp_abs.
  - intros a b c. split; [ | reflexivity ].
    intros p. cbn.
    unfold DifferenceSDF3.Evaluate, UnionSDF3.Evaluate, NormalMax, NormalMin, Max, Min.
    cbn. unfold DifferenceSDF3.Evaluate, NormalMax, Max. cbn. apply Rmax_opp_Rmin.
  - intros a p. cbn.
    unfold DifferenceSDF3.Evaluate, NormalMax, Max. cbn. apply Rmax_opp_abs.
Qed.

(** The box of an offset node: the child's box, grown by the offset on
    every side. *)
Lemma NewOffsetSDF2_box (s : SDF2) (o : float64) :
  SDF2.BoundingBox (NewOffsetSDF2 s o)
  = Box2.mk (V2.SubScalar (Box2.Min (SDF2.BoundingBox s)) o)
            (V2.AddScalar (Box2.Max (SDF2.BoundingBox s)) o).
Proof.
  destruct s as [ev [[x0 y0] [x1 y1]]].
  apply Box2_eq; apply V2_eq; cbn; field.
Qed.

(** X10: an offset by 0 changes nothing; two offsets in a row are one offset
    by the sum; and the offset of a circle is the circle of the larger
    radius.  Each time both the distance at every point and the box agree. *)
Theorem Offset_laws :
  (forall s : SDF2, Same2 (NewOffsetSDF2 s 0) s) /\
  (forall (s : SDF2) (a b : float64),
      Same2 (NewOffsetSDF2 (NewOffsetSDF2 s a) b) (NewOffsetSDF2 s (a + b))) /\
  (forall r o : float64, Same2 (NewOffsetSDF2 (Circle2D r) o) (Circle2D (r + o))).
Proof.
  split; [ | split ].
  - intros s. split.
    + intros p. cbn. unfold OffsetSDF2.Evaluate. cbn. ring.
    + rewrite NewOffsetSDF2_box. destruct s as [ev [[x0 y0] [x1 y1]]].
      apply Box2_eq; apply V2_eq; cbn; ring.
  - intros s a b. split.
    + intros p. cbn. unfold OffsetSDF2.Evaluate. cbn.
      unfold OffsetSDF2.Evaluate. cbn. ring.
    + rewrite !NewOffsetSDF2_box. destruct s as [ev [[x0 y0] [x1 y1]]].
      apply Box2_eq; apply V2_eq; cbn; ring.
  - intros r o. split.
    + intros p. cbn. unfold OffsetSDF2.Evaluate, CircleSDF2.Evaluate. cbn.
      unfold CircleSDF2.Evaluate. cbn. ring.
    + rewrite NewOffsetSDF2_box.
      apply Box2_eq; apply V2_eq; cbn; ring.
Qed.

(** ** Cut *)

Lemma V2_Length_nonneg (v : V2) : 0 <= V2.Length v.
Proof. unfold V2.Length. apply sqrt_pos. Qed.

(** X11: a cut along the line from [a] in the direction [v] (not the zero
    vector) keeps what lies to the right of the line.  With [c] the cross
    product of [v] and [p - a]: a point strictly to the left ([c > 0])
    evaluates to a positive distance, and a point on the line or to its
    right evaluates to [<= 0] exactly when the child does. *)
Theorem CutSDF2_keeps_right :
  forall (sdf : SDF2) (a v p : V2),
    let c := V2.X v * (V2.Y p - V2.Y a) - V2.Y v * (V2.X p - V2.X a) in
    V2.Length v <> 0 ->
    (0 < c -> 0 < SDF2.Evaluate (NewCutSDF2 sdf a v) p) /\
    (c <= 0 ->
     (SDF2.Evaluate (NewCutSDF2 sdf a v) p <= 0 <-> SDF2.Evaluate sdf p <= 0)).
Proof.
  intros sdf [ax ay] [vx vy] [px py] c HL.
  pose proof (V2_Length_nonneg (V2.mk vx vy)) as HL0.
  set (L := V2.Length (V2.mk vx vy)) in *.
  assert (HLpos : 0 < L) by lra.
  assert (Hinv : 0 < / L) by (apply Rinv_0_lt_compat; exact HLpos).
  assert (E : SDF2.Evaluate (NewCutSDF2 sdf (V2.mk ax ay) (V2.mk vx vy)) (V2.mk px py)
              = Rmax (c * / L) (SDF2.Evaluate sdf (V2.mk px py))).
  { cbn. unfold CutSDF2.Evaluate, Max, V2.Normalize. fold L.
    rewrite eqb_false by exact HL. cbn. f_equal.
    unfold V2.Dot, V2.Sub, c. cbn [V2.X V2.Y]. ring. }
  rewrite E. cbn in c. split.
  - intros Hc.
    assert (HcL : 0 < c * / L) by (apply Rmult_lt_0_compat; assumption).
    pose proof (Rmax_l (c * / L) (SDF2.Evaluate sdf (V2.mk px py))) as Hl. lra.
  - intros Hc.
    assert (HcL : c * / L <= 0).
    { replace 0 with (0 * / L) by ring. apply Rmult_le_compat_r; lra. }
    split.
    + intros H. apply Rmax_le_0 in H. tauto.
    + intros H. destruct (Rle_dec (c * / L) (SDF2.Evaluate sdf (V2.mk px py))).
      * rewrite Rmax_right by assumption. exact H.
      * rewrite Rmax_left by lra. exact HcL.
Qed.

Lemma V2_Length_0_1 : V2.Length (V2.mk 0 1) <> 0.
Proof.
  unfold V2.Length, V2.Length2. cbn.
  replace (0 * 0 + 1 * 1) with 1 by ring. rewrite sqrt_1. lra.
Qed.

(** The unit disc cut along the Y axis, upwards: (-1/2, 0) is to the left,
    (1/2, 0) to the right. *)
Lemma CutSDF2_keeps_right_witness :
  0 < SDF2.Evaluate (NewCutSDF2 (Circle2D 1) (V2.mk 0 0) (V2.mk 0 1)) (V2.mk (- (1 / 2)) 0)
  /\
  (SDF2.Evaluate (NewCutSDF2 (Circle2D 1) (V2.mk 0 0) (V2.mk 0 1)) (V2.mk (1 / 2) 0) <= 0
   <-> SDF2.Evaluate (Circle2D 1) (V2.mk (1 / 2) 0) <= 0).
Proof.
  split.
  - apply (proj1 (CutSDF2_keeps_right (Circle2D 1) (V2.mk 0 0) (V2.mk 0 1)
                    (V2.mk (- (1 / 2)) 0) V2_Length_0_1)).
    cbn. lra.
  - apply (proj2 (CutSDF2_keeps_right (Circle2D 1) (V2.mk 0 0) (V2.mk 0 1)
                    (V2.mk (1 / 2) 0) V2_Length_0_1)).
    cbn. lra.
Defined.

(** ** Arrays: the union of the cells *)

Lemma Range_In (n j : Z) : In j (Range n) <-> (0 <= j < n)%Z.
Proof.
  unfold Range. rewrite in_map_iff. split.
  - intros [i [<- Hi]]. apply in_seq in Hi. lia.
  - intros H. exists (Z.to_nat j). split; [lia | ]. apply in_seq. lia.
Qed.

Lemma wrap64_id (n : Z) : (- 2 ^ 63 <= n < 2 ^ 63)%Z -> wrap64 n = n.
Proof.
  intros H. unfold wrap64.
  rewrite Z.mod_small by lia. lia.
Qed.

Lemma fold_left_map {A B C : Type} (g : C -> B -> C) (h : A -> B) (l : list A) (c : C) :
  fold_left g (map h l) c = fold_left (fun c x => g c (h x)) l c.
Proof. revert c. induction l as [ | a l IH ]; intros c; cbn; [reflexivity | apply IH]. Qed.

Lemma fold_left_eq {A C : Type} (g g' : C -> A -> C) (l : list A) (c : C) :
  (forall c x, g c x = g' c x) -> fold_left g l c = fold_left g' l c.
Proof.
  intros H. revert c. induction l as [ | a l IH ]; intros c; cbn; [reflexivity | ].
  rewrite H. apply IH.
Qed.

(** Two nested loops that accumulate a minimum are one loop over the pairs
    of indices. *)
Lemma fold_min_nested {A B : Type} (f : A -> B -> R) (la : list A) (lb : list B) (d0 : R) :
  fold_left (fun d a => fold_left (fun d b => Rmin d (f a b)) lb d) la d0
  = fold_left (fun d ab => Rmin d (f (fst ab) (snd ab))) (list_prod la lb) d0.
Proof.
  revert d0. induction la as [ | a la IH ]; intros d0; cbn [fold_left list_prod].
  - reflexivity.
  - rewrite fold_left_app, fold_left_map. cbn [fst snd]. apply IH.
Qed.

(** [ArraySDF2.Evaluate] with the default min function, as one minimum over
    the cells. *)
Lemma ArraySDF2_Evaluate_cells (S : SDF2) (num : V2i) (step : V2) (bb : Box2) (p : V2) :
  ArraySDF2.Evaluate (ArraySDF2.mk S num step NormalMin 0 bb) p
  = fold_left
      (fun d jk =>
         Rmin d (SDF2.Evaluate S
                   (V2.Sub p (V2.mk (IZR (fst jk) * V2.X step)
                                    (IZR (snd jk) * V2.Y step)))))
      (list_prod (Range (V2i.n0 num)) (Range (V2i.n1 num))) MaxFloat64.
Proof.
  unfold ArraySDF2.Evaluate, NormalMin, Min.
  cbn [ArraySDF2.sdf ArraySDF2.num ArraySDF2.step ArraySDF2.min ArraySDF2.k].
  apply (fold_min_nested
           (fun j k => SDF2.Evaluate S
                         (V2.Sub p (V2.mk (IZR j * V2.X step) (IZR k * V2.Y step))))).
Qed.

Lemma ArraySDF3_Evaluate_cells (S : SDF3) (num : V3i) (step : V3) (bb : Box3) (p : V3) :
  ArraySDF3.Evaluate (ArraySDF3.mk S num step NormalMin 0 bb) p
  = fold_left
      (fun d jkl =>
         Rmin d (SDF3.Evaluate S
                   (V3.Sub p (V3.mk (IZR (fst jkl) * V3.X step)
                                    (IZR (fst (snd jkl)) * V3.Y step)
                                    (IZR (snd (snd jkl)) * V3.Z step)))))
      (list_prod (Range (V3i.n0 num))
                 (list_prod (Range (V3i.n1 num)) (Range (V3i.n2 num))))
      MaxFloat64.
Proof.
  unfold ArraySDF3.Evaluate, NormalMin, Min.
  cbn [ArraySDF3.sdf ArraySDF3.num ArraySDF3.step ArraySDF3.min ArraySDF3.k].
  rewrite <- (fold_min_nested
                (fun j (kl : Z * Z) =>
                   SDF3.Evaluate S
                     (V3.Sub p (V3.mk (IZR j * V3.X step) (IZR (fst kl) * V3.Y step)
                                      (IZR (snd kl) * V3.Z step))))).
  apply fold_left_eq. intros d j.
  apply (fold_min_nested
           (fun k l => SDF3.Evaluate S
                         (V3.Sub p (V3.mk (IZR j * V3.X step) (IZR k * V3.Y step)
                                          (IZR l * V3.Z step))))).
Qed.

Lemma NewArraySDF2_Some (S : SDF2) (num : V2i) (step : V2) (a : SDF2) :
  NewArraySDF2 S num step = Some a ->
  (0 < V2i.n0 num)%Z /\ (0 < V2i.n1 num)%Z /\
  a = ArraySDF2.iface
        (ArraySDF2.mk S num step NormalMin 0
           (Box2.Extend (SDF2.BoundingBox S)
              (Box2.Translate (SDF2.BoundingBox S)
                 (V2.Mul step (V2i.ToV2 (V2i.SubScalar num 1)))))).
Proof.
  unfold NewArraySDF2.
  destruct (V2i.n0 num <=? 0)%Z eqn:E0; destruct (V2i.n1 num <=? 0)%Z eqn:E1;
    cbn [orb]; try discriminate.
  apply Z.leb_gt in E0. apply Z.leb_gt in E1.
  intros E. injection E as <-. repeat split; assumption.
Qed.

Lemma NewArraySDF3_Some (S : SDF3) (num : V3i) (step : V3) (a : SDF3) :
  NewArraySDF3 S num step = Some a ->
  (0 < V3i.n0 num)%Z /\ (0 < V3i.n1 num)%Z /\ (0 < V3i.n2 num)%Z /\
  a = ArraySDF3.iface
        (ArraySDF3.mk S num step NormalMin 0
           (Box3.Extend (SDF3.BoundingBox S)
              (Box3.Translate (SDF3.BoundingBox S)
                 (V3.Mul step (V3i.ToV3 (V3i.SubScalar num 1)))))).
Proof.
  unfold NewArraySDF3.
  destruct (V3i.n0 num <=? 0)%Z eqn:E0; destruct (V3i.n1 num <=? 0)%Z eqn:E1;
    destruct (V3i.n2 num <=? 0)%Z eqn:E2; cbn [orb]; try discriminate.
  apply Z.leb_gt in E0. apply Z.leb_gt in E1. apply Z.leb_gt in E2.
  intros E. injection E as <-. repeat split; assumption.
Qed.

Lemma ArraySDF2_le_cell (S : SDF2) (num : V2i) (step : V2) (bb : Box2) (p : V2) (j k : Z) :
  (0 <= j < V2i.n0 num)%Z -> (0 <= k < V2i.n1 num)%Z ->
  ArraySDF2.Evaluate (ArraySDF2.mk S num step NormalMin 0 bb) p
  <= SDF2.Evaluate S (V2.Sub p (V2.mk (IZR j * V2.X step) (IZR k * V2.Y step))).
Proof.
  intros Hj Hk. rewrite ArraySDF2_Evaluate_cells.
  set (f := fun jk : Z * Z =>
              SDF2.Evaluate S
                (V2.Sub p (V2.mk (IZR (fst jk) * V2.X step) (IZR (snd jk) * V2.Y step)))).
  apply (proj2 (fold_min_le f _ MaxFloat64) (j, k)).
  apply in_prod; apply Range_In; assumption.
Qed.

Lemma ArraySDF2_inside_cell (S : SDF2) (num : V2i) (step : V2) (bb : Box2) (p : V2) :
  ArraySDF2.Evaluate (ArraySDF2.mk S num step NormalMin 0 bb) p <= 0 ->
  exists j k : Z,
    (0 <= j < V2i.n0 num)%Z /\ (0 <= k < V2i.n1 num)%Z /\
    SDF2.Evaluate S (V2.Sub p (V2.mk (IZR j * V2.X step) (IZR k * V2.Y step))) <= 0.
Proof.
  rewrite ArraySDF2_Evaluate_cells.
  set (f := fun jk : Z * Z =>
              SDF2.Evaluate S
                (V2.Sub p (V2.mk (IZR (fst jk) * V2.X step) (IZR (snd jk) * V2.Y step)))).
  intros H.
  destruct (fold_min_attained f (list_prod (Range (V2i.n0 num)) (Range (V2i.n1 num)))
              MaxFloat64) as [E | [[j k] [Hin E]]];
    unfold f in E; cbv beta in E; rewrite E in H.
  - pose proof MaxFloat64_pos. lra.
  - apply in_prod_iff in Hin. destruct Hin as [Hj Hk].
    apply Range_In in Hj. apply Range_In in Hk.
    exists j, k. repeat split; try lia. exact H.
Qed.

Lemma ArraySDF3_le_cell
    (S : SDF3) (num : V3i) (step : V3) (bb : Box3) (p : V3) (j k l : Z) :
  (0 <= j < V3i.n0 num)%Z -> (0 <= k < V3i.n1 num)%Z -> (0 <= l < V3i.n2 num)%Z ->
  ArraySDF3.Evaluate (ArraySDF3.mk S num step NormalMin 0 bb) p
  <= SDF3.Evaluate S
       (V3.Sub p (V3.mk (IZR j * V3.X step) (IZR k * V3.Y step) (IZR l * V3.Z step))).
Proof.
  intros Hj Hk Hl. rewrite ArraySDF3_Evaluate_cells.
  set (f := fun jkl : Z * (Z * Z) =>
              SDF3.Evaluate S
                (V3.Sub p (V3.mk (IZR (fst jkl) * V3.X step)
                                 (IZR (fst (snd jkl)) * V3.Y step)
                                 (IZR (snd (snd jkl)) * V3.Z step)))).
  apply (proj2 (fold_min_le f _ MaxFloat64) (j, (k, l))).
  apply in_prod; [ | apply in_prod ]; apply Range_In; assumption.
Qed.

Lemma ArraySDF3_inside_cell (S : SDF3) (num : V3i) (step : V3) (bb : Box3) (p : V3) :
  ArraySDF3.Evaluate (ArraySDF3.mk S num step NormalMin 0 bb) p <= 0 ->
  exists j k l : Z,
    (0 <= j < V3i.n0 num)%Z /\ (0 <= k < V3i.n1 num)%Z /\ (0 <= l < V3i.n2 num)%Z /\
    SDF3.Evaluate S
      (V3.Sub p (V3.mk (IZR j * V3.X step) (IZR k * V3.Y step) (IZR l * V3.Z step)))
    <= 0.
Proof.
  rewrite ArraySDF3_Evaluate_cells.
  set (f := fun jkl : Z * (Z * Z) =>
              SDF3.Evaluate S
                (V3.Sub p (V3.mk (IZR (fst jkl) * V3.X step)
                                 (IZR (fst (snd jkl)) * V3.Y step)
                                 (IZR (snd (snd jkl)) * V3.Z step)))).
  intros H.
  destruct (fold_min_attained f
              (list_prod (Range (V3i.n0 num))
                 (list_prod (Range (V3i.n1 num)) (Range (V3i.n2 num))))
              MaxFloat64) as [E | [[j [k l]] [Hin E]]];
    unfold f in E; cbv beta in E; rewrite E in H.
  - pose proof MaxFloat64_pos. lra.
  - apply in_prod_iff in Hin. destruct Hin as [Hj Hkl].
    apply in_prod_iff in Hkl. destruct Hkl as [Hk Hl].
    apply Range_In in Hj. apply Range_In in Hk. apply Range_In in Hl.
    exists j, k, l. repeat split; try lia. exact H.
Qed.

(** X12: an array is the union of its cells.  With the default min function
    the array's distance is at most the base shape's distance at the point
    moved back by any cell's offset [(j * step.X, k * step.Y)], and it is
    [<= 0] exactly when the base shape's distance is [<= 0] for some cell.
    In 2D and, with a third index, in 3D. *)
Theorem Array_is_union_of_cells :
  (forall (S : SDF2) (num : V2i) (step : V2) (a : SDF2) (p : V2),
      NewArraySDF2 S num step = Some a ->
      let cell j k :=
        SDF2.Evaluate S (V2.Sub p (V2.mk (IZR j * V2.X step) (IZR k * V2.Y step))) in
      (forall j k : Z,
          (0 <= j < V2i.n0 num)%Z -> (0 <= k < V2i.n1 num)%Z ->
          SDF2.Evaluate a p <= cell j k) /\
      (SDF2.Evaluate a p <= 0 <->
       exists j k : Z,
         (0 <= j < V2i.n0 num)%Z /\ (0 <= k < V2i.n1 num)%Z /\ cell j k <= 0))
  /\
  (forall (S : SDF3) (num : V3i) (step : V3) (a : SDF3) (p : V3),
      NewArraySDF3 S num step = Some a ->
      let cell j k l :=
        SDF3.Evaluate S
          (V3.Sub p (V3.mk (IZR j * V3.X step) (IZR k * V3.Y step)
                           (IZR l * V3.Z step))) in
      (forall j k l : Z,
          (0 <= j < V3i.n0 num)%Z -> (0 <= k < V3i.n1 num)%Z ->
          (0 <= l < V3i.n2 num)%Z ->
          SDF3.Evaluate a p <= cell j k l) /\
      (SDF3.Evaluate a p <= 0 <->
       exists j k l : Z,
         (0 <= j < V3i.n0 num)%Z /\ (0 <= k < V3i.n1 num)%Z /\
         (0 <= l < V3i.n2 num)%Z /\ cell j k l <= 0)).
Proof.
  split.
  - intros S num step a p E cell.
    apply NewArraySDF2_Some in E. destruct E as [_ [_ ->]].
    cbn [SDF2.Evaluate ArraySDF2.iface].
    split; [intros j k; apply ArraySDF2_le_cell | ]. split.
    + apply ArraySDF2_inside_cell.
    + intros [j [k [Hj [Hk H]]]].
      pose proof (@ArraySDF2_le_cell S num step
                    (Box2.Extend (SDF2.BoundingBox S)
                       (Box2.Translate (SDF2.BoundingBox S)
                          (V2.Mul step (V2i.ToV2 (V2i.SubScalar num 1)))))
                    p j k Hj Hk) as Hle.
      subst cell. cbn beta in H. lra.
  - intros S num step a p E cell.
    apply NewArraySDF3_Some in E. destruct E as [_ [_ [_ ->]]].
    cbn [SDF3.Evaluate ArraySDF3.iface].
    split; [intros j k l; apply ArraySDF3_le_cell | ]. split.
    + apply ArraySDF3_inside_cell.
    + intros [j [k [l [Hj [Hk [Hl H]]]]]].
      pose proof (@ArraySDF3_le_cell S num step
                    (Box3.Extend (SDF3.BoundingBox S)
                       (Box3.Translate (SDF3.BoundingBox S)
                          (V3.Mul step (V3i.ToV3 (V3i.SubScalar num 1)))))
                    p j k l Hj Hk Hl) as Hle.
      subst cell. cbn beta in H. lra.
Qed.

(** Two unit discs 3 apart and two unit balls 3 apart: the second cell. *)
Lemma Array_is_union_of_cells_witness :
  (exists a : SDF2,
      NewArraySDF2 (Circle2D 1) (V2i.mk 2 1) (V2.mk 3 0) = Some a /\
      SDF2.Evaluate a (V2.mk 3 0)
      <= SDF2.Evaluate (Circle2D 1)
           (V2.Sub (V2.mk 3 0) (V2.mk (IZR 1 * 3) (IZR 0 * 0))))
  /\
  (exists a : SDF3,
      NewArraySDF3 (NewSphereSDF3 1) (V3i.mk 2 1 1) (V3.mk 3 0 0) = Some a /\
      SDF3.Evaluate a (V3.mk 3 0 0)
      <= SDF3.Evaluate (NewSphereSDF3 1)
           (V3.Sub (V3.mk 3 0 0) (V3.mk (IZR 1 * 3) (IZR 0 * 0) (IZR 0 * 0)))).
Proof.
  split.
  - eexists. split; [reflexivity | ].
    apply (proj1 (proj1 Array_is_union_of_cells (Circle2D 1) (V2i.mk 2 1) (V2.mk 3 0)
                    _ (V2.mk 3 0) eq_refl) 1%Z 0%Z); cbn; lia.
  - eexists. split; [reflexivity | ].
    apply (proj1 (proj2 Array_is_union_of_cells (NewSphereSDF3 1) (V3i.mk 2 1 1)
                    (V3.mk 3 0 0) _ (V3.mk 3 0 0) eq_refl) 1%Z 0%Z 0%Z); cbn; lia.
Defined.

(** A point that a cell's offset moves into an interval lies in the extent
    of the interval and of its last translate. *)
Lemma cell_in_extent (m M x s J N : R) :
  0 <= J <= N -> m <= x - J * s <= M ->
  Rmin m (m + s * N) <= x <= Rmax M (M + s * N).
Proof.
  intros [HJ0 HJN] [Hm HM].
  pose proof (Rmin_l m (m + s * N)). pose proof (Rmin_r m (m + s * N)).
  pose proof (Rmax_l M (M + s * N)). pose proof (Rmax_r M (M + s * N)).
  destruct (Rle_dec 0 s) as [Hs | Hs].
  - assert (0 <= J * s) by (apply Rmult_le_pos; lra).
    assert (J * s <= s * N) by (rewrite (Rmult_comm s N); apply Rmult_le_compat_r; lra).
    lra.
  - assert (J * s <= 0) by nra.
    assert (s * N <= J * s) by nra.
    lra.
Qed.

Lemma IZR_cell_bounds (j n : Z) :
  (0 <= j < n)%Z -> (n <= MaxInt)%Z -> 0 <= IZR j <= IZR (wrap64 (n - 1)).
Proof.
  intros Hj Hn. unfold MaxInt in Hn.
  rewrite wrap64_id by lia.
  split; [apply (IZR_le 0); lia | apply IZR_le; lia].
Qed.

(** X13: an array of a shape with a sound box has a sound box, in 2D and in
    3D.  The counts are Go [int]s (at most [MaxInt]); the step may have any
    sign. *)
Theorem Array_Sound :
  (forall (S : SDF2) (num : V2i) (step : V2) (a : SDF2),
      Sound2 S ->
      (V2i.n0 num <= MaxInt)%Z -> (V2i.n1 num <= MaxInt)%Z ->
      NewArraySDF2 S num step = Some a ->
      Sound2 a)
  /\
  (forall (S : SDF3) (num : V3i) (step : V3) (a : SDF3),
      Sound3 S ->
      (V3i.n0 num <= MaxInt)%Z -> (V3i.n1 num <= MaxInt)%Z ->
      (V3i.n2 num <= MaxInt)%Z ->
      NewArraySDF3 S num step = Some a ->
      Sound3 a).
Proof.
  split.
  - intros S num step a HS H0 H1 E p Hp.
    apply NewArraySDF2_Some in E. destruct E as [_ [_ ->]].
    cbn [SDF2.Evaluate ArraySDF2.iface] in Hp.
    apply ArraySDF2_inside_cell in Hp. destruct Hp as [j [k [Hj [Hk Hc]]]].
    apply HS in Hc.
    destruct S as [ev [[x0 y0] [x1 y1]]], p as [px py], step as [sx sy],
      num as [n0 n1].
    unfold Box2.Contains in *. cbn in Hc, Hj, Hk, H0, H1 |- *.
    unfold Min, Max.
    pose proof (IZR_cell_bounds Hj H0) as HJ.
    pose proof (IZR_cell_bounds Hk H1) as HK.
    destruct Hc as [Hx Hy].
    split; eapply cell_in_extent; eassumption.
  - intros S num step a HS H0 H1 H2 E p Hp.
    apply NewArraySDF3_Some in E. destruct E as [_ [_ [_ ->]]].
    cbn [SDF3.Evaluate ArraySDF3.iface] in Hp.
    apply ArraySDF3_inside_cell in Hp. destruct Hp as [j [k [l [Hj [Hk [Hl Hc]]]]]].
    apply HS in Hc.
    destruct S as [ev [[x0 y0 z0] [x1 y1 z1]]], p as [px py pz], step as [sx sy sz],
      num as [n0 n1 n2].
    unfold Box3.Contains in *. cbn in Hc, Hj, Hk, Hl, H0, H1, H2 |- *.
    unfold Min, Max.
    pose proof (IZR_cell_bounds Hj H0) as HJ.
    pose proof (IZR_cell_bounds Hk H1) as HK.
    pose proof (IZR_cell_bounds Hl H2) as HL.
    destruct Hc as [Hx [Hy Hz]].
    repeat split; eapply cell_in_extent; eassumption.
Qed.

(** Two unit discs 3 apart and two unit balls 3 apart. *)
Lemma Array_Sound_witness :
  (exists a : SDF2,
      NewArraySDF2 (Circle2D 1) (V2i.mk 2 1) (V2.mk 3 0) = Some a /\ Sound2 a)
  /\
  (exists a : SDF3,
      NewArraySDF3 (NewSphereSDF3 1) (V3i.mk 2 1 1) (V3.mk 3 0 0) = Some a /\
      Sound3 a).
Proof.
  split.
  - eexists. split; [reflexivity | ].
    apply (proj1 Array_Sound (Circle2D 1) (V2i.mk 2 1) (V2.mk 3 0)).
    + apply Circle2D_Sphere_Sound.
    + cbn. unfold MaxInt. lia.
    + cbn. unfold MaxInt. lia.
    + reflexivity.
  - eexists. split; [reflexivity | ].
    apply (proj2 Array_Sound (NewSphereSDF3 1) (V3i.mk 2 1 1) (V3.mk 3 0 0)).
    + apply Circle2D_Sphere_Sound.
    + cbn. unfold MaxInt. lia.
    + cbn. unfold MaxInt. lia.
    + cbn. unfold MaxInt. lia.
    + reflexivity.
Defined.

(** ** 3MF: which meshes are exported faithfully *)

Lemma get_set_same (m : VertexMap.t) (v : V3) (i : Z) :
  VertexMap.get (VertexMap.set m v i) v = i.
Proof.
  induction m as [ | [w j] m IH ]; cbn.
  - destruct (V3_eq_dec v v); [reflexivity | contradiction].
  - destruct (V3_eq_dec w v) as [E | N]; cbn.
    + destruct (V3_eq_dec w v); [reflexivity | contradiction].
    + destruct (V3_eq_dec w v); [contradiction | exact IH].
Qed.

Lemma get_set_other (m : VertexMap.t) (v : V3) (i : Z) (u : V3) :
  u <> v -> VertexMap.get (VertexMap.set m v i) u = VertexMap.get m u.
Proof.
  intros Hne. induction m as [ | [w j] m IH ]; cbn.
  - destruct (V3_eq_dec v u); [congruence | reflexivity].
  - destruct (V3_eq_dec w v) as [E | N]; cbn.
    + subst w. destruct (V3_eq_dec v u); [congruence | reflexivity].
    + destruct (V3_eq_dec w u); [reflexivity | exact IH].
Qed.

Lemma mem_In_get (m : VertexMap.t) (v : V3) :
  VertexMap.mem m v = true -> In (v, VertexMap.get m v) m.
Proof.
  induction m as [ | [w j] m IH ]; cbn; [discriminate | ].
  destruct (V3_eq_dec w v) as [E | N].
  - intros _. left. congruence.
  - intros H. right. exact (IH H).
Qed.

Lemma set_keys_eq (m : VertexMap.t) (v : V3) (i : Z) :
  keys (VertexMap.set m v i) = if VertexMap.mem m v then keys m else keys m ++ [v].
Proof.
  unfold keys. induction m as [ | [w j] m IH ]; cbn; [reflexivity | ].
  destruct (V3_eq_dec w v) as [E | N]; cbn; [reflexivity | ].
  rewrite IH. destruct (VertexMap.mem m v); reflexivity.
Qed.

(** A map has one entry per key. *)
Lemma build_keys_NoDup (l : list V3) : NoDup (keys (build l)).
Proof.
  induction l as [ | v l IH ] using rev_ind; [constructor | ].
  rewrite build_snoc, set_keys_eq.
  destruct (VertexMap.mem (build l) v) eqn:E; [exact IH | ].
  apply NoDup_app; [exact IH | repeat constructor; intros [] | ].
  intros a Ha [<- | []]. apply mem_keys in Ha. congruence.
Qed.

Lemma In_get (m : VertexMap.t) (w : V3) (j : Z) :
  NoDup (keys m) -> In (w, j) m -> VertexMap.get m w = j.
Proof.
  induction m as [ | [u k] m IH ]; cbn; [intros _ [] | ].
  intros Hnd [E | Hin].
  - inversion E; subst. destruct (V3_eq_dec w w); [reflexivity | contradiction].
  - inversion Hnd as [ | ? ? Hnin Hnd' ]; subst.
    destruct (V3_eq_dec u w) as [E | N].
    + subst u. exfalso. apply Hnin. apply (in_map fst) in Hin. exact Hin.
    + apply IH; assumption.
Qed.

Lemma mem_build (l : list V3) (v : V3) :
  VertexMap.mem (build l) v = true <-> In v l.
Proof. rewrite mem_keys. apply (proj1 (build_invariant l)). Qed.

(** Positions that are all distinct are numbered in the order of their
    first (and only) visit. *)
Lemma build_NoDup (l : list V3) :
  NoDup l ->
  VertexMap.len (build l) = Z.of_nat (length l) /\
  forall k v, nth_error l k = Some v -> VertexMap.get (build l) v = Z.of_nat k.
Proof.
  induction l as [ | x l IH ] using rev_ind; intros Hnd.
  - split; [reflexivity | intros [ | k ] v; discriminate].
  - assert (Hx : ~ In x l).
    { apply NoDup_remove_2 in Hnd. rewrite app_nil_r in Hnd. exact Hnd. }
    apply NoDup_app_remove_r in Hnd. destruct (IH Hnd) as [Hlen Hget].
    assert (Hm : VertexMap.mem (build l) x = false).
    { destruct (VertexMap.mem (build l) x) eqn:E; [ | reflexivity ].
      apply mem_build in E. contradiction. }
    rewrite build_snoc. split.
    + rewrite set_len, Hm, Hlen, length_app. cbn. lia.
    + intros k v Hk. destruct (Nat.lt_ge_cases k (length l)) as [Hlt | Hge].
      * rewrite nth_error_app1 in Hk by exact Hlt.
        rewrite get_set_other; [apply Hget; exact Hk | ].
        intros ->. apply Hx. apply (nth_error_In _ _ Hk).
      * rewrite nth_error_app2 in Hk by exact Hge.
        destruct (k - length l)%nat as [ | d ] eqn:Ed.
        -- cbn in Hk. inversion Hk; subst v.
           rewrite get_set_same, Hlen. f_equal. lia.
        -- cbn in Hk. destruct d; discriminate.
Qed.

Lemma build_NoDup_inj (l : list V3) (u w : V3) :
  NoDup l -> In u l -> In w l ->
  VertexMap.get (build l) u = VertexMap.get (build l) w -> u = w.
Proof.
  intros Hnd Hu Hw E. destruct (build_NoDup Hnd) as [_ Hget].
  apply In_nth_error in Hu. destruct Hu as [a Ha].
  apply In_nth_error in Hw. destruct Hw as [b Hb].
  rewrite (Hget _ _ Ha), (Hget _ _ Hb) in E.
  apply Nat2Z.inj in E. subst b. congruence.
Qed.

(** Once a position has been visited twice, the map is never right again:
    either the last visit was a repeat, and that position carries the number
    of keys, or two positions carry the same index. *)
Lemma build_repeat (l : list V3) :
  NoDup l
  \/ (exists v, In v l /\ VertexMap.get (build l) v = VertexMap.len (build l))
  \/ (exists u w, In u l /\ In w l /\ u <> w /\
                  VertexMap.get (build l) u = VertexMap.get (build l) w).
Proof.
  induction l as [ | x l IH ] using rev_ind; [left; constructor | ].
  rewrite build_snoc.
  destruct (in_dec V3_eq_dec x l) as [Hin | Hnin].
  - right. left. exists x. split; [apply in_or_app; right; left; reflexivity | ].
    rewrite get_set_same, set_len.
    apply mem_build in Hin. rewrite Hin. reflexivity.
  - destruct IH as [Hnd | [[v [Hv E]] | [u [w [Hu [Hw [Hne E]]]]]]].
    + left. apply NoDup_app; [exact Hnd | repeat constructor; intros [] | ].
      intros a Ha [<- | []]. contradiction.
    + right. right. exists v, x.
      assert (v <> x) by (intros ->; contradiction).
      repeat split; try (apply in_or_app; cbn; tauto); try assumption.
      rewrite get_set_same, get_set_other by assumption. exact E.
    + right. right. exists u, w.
      assert (u <> x) by (intros ->; contradiction).
      assert (w <> x) by (intros ->; contradiction).
      repeat split; try (apply in_or_app; cbn; tauto); try assumption.
      rewrite !get_set_other by assumption. exact E.
Qed.

Lemma nth_error_update_same {A : Type} (l : list A) (i : nat) (x : A) :
  (i < length l)%nat -> nth_error (update l i x) i = Some x.
Proof.
  revert i. induction l as [ | y l IH ]; intros [ | i ]; cbn; intros H; try lia.
  - reflexivity.
  - apply IH. lia.
Qed.

Lemma nth_error_update_other {A : Type} (l : list A) (i k : nat) (x : A) :
  k <> i -> nth_error (update l i x) k = nth_error l k.
Proof.
  revert i k. induction l as [ | y l IH ]; intros [ | i ] [ | k ]; cbn; intros H;
    try reflexivity; try contradiction.
  apply IH. congruence.
Qed.

Lemma store_inv {A : Type} (l l' : list A) (i : Z) (x : A) :
  store l i x = Some l' ->
  (0 <= i < Z.of_nat (length l))%Z /\ l' = update l (Z.to_nat i) x.
Proof.
  unfold store, len.
  destruct (0 <=? i)%Z eqn:E0; [ | discriminate ].
  destruct (i <? Z.of_nat (length l))%Z eqn:E1; [ | discriminate ].
  cbn. intros H. inversion H. apply Z.leb_le in E0. apply Z.ltb_lt in E1.
  split; [lia | reflexivity].
Qed.

(** An element of the slice keeps its value through the second loop when
    every later write to its index writes that value again. *)
Lemma fill_keeps (entries : VertexMap.t) :
  forall (out out' : list ThreeMFVertex) (k : nat) (x : ThreeMFVertex),
    fold_left fill_step entries (Some out) = Some out' ->
    nth_error out k = Some x ->
    (forall w j, In (w, j) entries -> Z.to_nat j = k -> vertex_of w = x) ->
    nth_error out' k = Some x.
Proof.
  induction entries as [ | [w j] r IH ]; intros out out' k x Hf Hk Hall.
  - cbn in Hf. inversion Hf; subst. exact Hk.
  - cbn [fold_left fill_step] in Hf.
    destruct (store out j (ThreeMFVertex.mk (V3.X w) (V3.Y w) (V3.Z w)))
      as [out1 | ] eqn:Es; [ | rewrite fill_None in Hf; discriminate ].
    apply store_inv in Es. destruct Es as [Hj ->].
    apply (IH _ _ _ _ Hf).
    + destruct (Nat.eq_dec k (Z.to_nat j)) as [-> | Hne].
      * rewrite nth_error_update_same by lia.
        f_equal. apply (Hall w j); [left; reflexivity | reflexivity].
      * rewrite nth_error_update_other by exact Hne. exact Hk.
    + intros w' j' Hin. apply Hall. right. exact Hin.
Qed.

(** After the second loop an entry is found at its index when no entry of
    another position has the same index. *)
Lemma fill_get (entries : VertexMap.t) :
  forall (out out' : list ThreeMFVertex) (v : V3) (i : Z),
    fold_left fill_step entries (Some out) = Some out' ->
    In (v, i) entries ->
    (forall w, In (w, i) entries -> w = v) ->
    nth_error out' (Z.to_nat i) = Some (vertex_of v).
Proof.
  induction entries as [ | [w j] r IH ]; intros out out' v i Hf Hin Hall.
  - destruct Hin.
  - cbn [fold_left fill_step] in Hf.
    destruct (store out j (ThreeMFVertex.mk (V3.X w) (V3.Y w) (V3.Z w)))
      as [out1 | ] eqn:Es; [ | rewrite fill_None in Hf; discriminate ].
    pose proof Es as Es'. apply store_inv in Es'. destruct Es' as [Hj ->].
    assert (Hr : forall w0, In (w0, i) r -> w0 = v).
    { intros w0 H0. apply Hall. right. exact H0. }
    destruct (in_dec V3_eq_dec v (map fst (filter (fun e => (snd e =? i)%Z) r)))
      as [Hlater | Hlast].
    + apply in_map_iff in Hlater. destruct Hlater as [[v' i'] [Ev Hf']].
      apply filter_In in Hf'. destruct Hf' as [Hin' Ei]. cbn in Ev, Ei.
      apply Z.eqb_eq in Ei. subst v' i'.
      apply (IH _ _ _ _ Hf Hin' Hr).
    + destruct Hin as [E | Hin'].
      * inversion E; subst w j.
        apply (fill_keeps _ _ Hf).
        -- apply nth_error_update_same. lia.
        -- intros w0 j0 H0 Ej.
           assert (j0 = i).
           { pose proof (proj1 (fill_loop r _)
                           ltac:(rewrite Hf; discriminate) w0 j0 H0). lia. }
           subst j0. rewrite (Hr w0 H0). reflexivity.
      * exfalso. apply Hlast. apply in_map_iff. exists (v, i). split; [reflexivity | ].
        apply filter_In. split; [exact Hin' | apply Z.eqb_refl].
Qed.

Lemma In_mesh_vertices (mesh : list Triangle3) (v : V3) :
  In v (mesh_vertices mesh)
  <-> exists t, In t mesh /\
        (v = Triangle3.V_0 t \/ v = Triangle3.V_1 t \/ v = Triangle3.V_2 t).
Proof.
  unfold mesh_vertices. rewrite in_flat_map. split.
  - intros [t [Ht Hv]]. exists t. split; [exact Ht | ].
    cbn in Hv. intuition auto.
  - intros [t [Ht Hv]]. exists t. split; [exact Ht | ].
    cbn. intuition auto.
Qed.

(** The exported mesh is faithful exactly when every position of the mesh
    is found at the index the map gives it. *)
Lemma Faithful_corners (m : VertexMap.t) (vs : list ThreeMFVertex) (mesh : list Triangle3) :
  Faithful mesh (vs, outputTriangles m mesh)
  <-> forall v, In v (mesh_vertices mesh) -> corner_ok vs (VertexMap.get m v) v.
Proof.
  unfold Faithful, outputTriangles. cbn [fst snd].
  induction mesh as [ | t mesh IH ].
  - split; [intros _ v [] | intros _; constructor].
  - cbn [map]. split.
    + intros H v Hv. inversion H as [ | ? ? ? ? [H0 [H1 H2]] Hrest ]; subst.
      cbn in H0, H1, H2.
      unfold mesh_vertices in Hv. cbn [flat_map] in Hv.
      apply in_app_or in Hv. destruct Hv as [Hv | Hv].
      * cbn in Hv. destruct Hv as [<- | [<- | [<- | []]]]; assumption.
      * apply (proj1 IH Hrest v Hv).
    + intros H. constructor.
      * cbn. repeat split;
          apply H; apply In_mesh_vertices; exists t;
          (split; [left; reflexivity | tauto]).
      * apply IH. intros v Hv. apply H.
        unfold mesh_vertices. cbn [flat_map]. apply in_or_app. right. exact Hv.
Qed.

Lemma vertex_of_inj (u w : V3) : vertex_of u = vertex_of w -> u = w.
Proof. destruct u, w. unfold vertex_of. cbn. intros H. inversion H. reflexivity. Qed.

(** X14: [Save3MF] exports a mesh faithfully exactly when no two corners of
    the mesh are at the same position.  When all corners are distinct it
    returns, and every corner of every triangle is found again through its
    index.  When it returns for a mesh in which a position occurs twice,
    some corner's index leads to another position. *)
Theorem Save3MF_faithful_iff_no_shared_vertex :
  (forall mesh : list Triangle3,
      NoDup (mesh_vertices mesh) ->
      exists out, Save3MF mesh = Some out /\ Faithful mesh out)
  /\
  (forall (mesh : list Triangle3) out,
      Save3MF mesh = Some out ->
      (Faithful mesh out <-> NoDup (mesh_vertices mesh))).
Proof.
  assert (Hfwd : forall mesh out,
             NoDup (mesh_vertices mesh) -> Save3MF mesh = Some out ->
             Faithful mesh out).
  { intros mesh out Hnd Hs. unfold Save3MF in Hs.
    destruct (outputVertices (dedupe mesh)) as [vs | ] eqn:Ev; [ | discriminate ].
    inversion Hs; subst out. apply Faithful_corners.
    rewrite dedupe_build in *. set (l := mesh_vertices mesh) in *.
    intros v Hv. pose proof (proj2 (mem_build l v) Hv) as Hm.
    apply mem_In_get in Hm. split.
    - apply (proj2 (build_invariant l) v _ Hm).
    - unfold outputVertices in Ev. apply (fill_get _ _ _ Ev Hm).
      intros w Hw.
      assert (Hwl : In w l).
      { apply (proj1 (build_invariant l)). apply (in_map fst) in Hw. exact Hw. }
      apply (@In_get _ _ _ (build_keys_NoDup l)) in Hw.
      apply (@build_NoDup_inj l w v Hnd Hwl Hv Hw). }
  split.
  - intros mesh Hnd. destruct (Save3MF mesh) as [out | ] eqn:Es.
    + exists out. split; [reflexivity | apply Hfwd; assumption].
    + exfalso. apply Save3MF_None_iff in Es. destruct Es as [l [v [E Hin]]].
      rewrite E in Hnd. apply NoDup_remove_2 in Hnd. apply Hnd.
      rewrite app_nil_r. exact Hin.
  - intros mesh out Hs. split; [ | intros Hnd; apply Hfwd; assumption ].
    intros Hf.
    assert (HB : InBounds (build (mesh_vertices mesh))).
    { apply Save3MF_InBounds. rewrite Hs. discriminate. }
    unfold Save3MF in Hs.
    destruct (outputVertices (dedupe mesh)) as [vs | ] eqn:Ev; [ | discriminate ].
    inversion Hs; subst out. rewrite Faithful_corners in Hf.
    rewrite dedupe_build in *. set (l := mesh_vertices mesh) in *.
    destruct (build_repeat l) as [Hnd | [[v [Hv E]] | [u [w [Hu [Hw [Hne E]]]]]]].
    + exact Hnd.
    + exfalso. apply mem_build, mem_In_get in Hv. apply HB in Hv. lia.
    + exfalso. apply Hne. apply vertex_of_inj.
      destruct (Hf u Hu) as [_ H1]. destruct (Hf w Hw) as [_ H2].
      rewrite E in H1. congruence.
Qed.

(** One triangle with three distinct corners. *)
Lemma Save3MF_faithful_iff_no_shared_vertex_witness :
  exists out,
    Save3MF [Triangle3.mk (V3.mk 0 0 0) (V3.mk 1 0 0) (V3.mk 1 1 0)] = Some out /\
    Faithful [Triangle3.mk (V3.mk 0 0 0) (V3.mk 1 0 0) (V3.mk 1 1 0)] out.
Proof.
  apply (proj1 Save3MF_faithful_iff_no_shared_vertex).
  cbn. repeat constructor; cbn.
  - intros [H | [H | []]]; revert H.
    + apply V3_neq_X. lra.
    + apply V3_neq_X. lra.
  - intros [H | []]; revert H. apply V3_neq_Y. lra.
  - tauto.
Defined.

(** ** Solid of revolution: the box *)

Lemma Mod_range (x y : float64) : 0 <= x -> 0 < y -> 0 <= Mod x y < y.
Proof.
  intros Hx Hy. unfold Mod, Trunc.
  assert (Hq : 0 <= x / y).
  { apply Rmult_le_pos; [exact Hx | left; apply Rinv_0_lt_compat; exact Hy]. }
  rewrite ltb_false by exact Hq.
  destruct (Zfloor_bound (x / y)) as [Hlo Hhi].
  assert (E : y * (x / y) = x) by (field; lra).
  set (q := x / y) in *. set (n := IZR (Zfloor q)) in *.
  assert (y * n <= y * q) by (apply Rmult_le_compat_l; lra).
  assert (y * q < y * (n + 1)) by (apply Rmult_lt_compat_l; lra).
  lra.
Qed.

(** A point in the wedge below the theta line, by the size of its
    coordinate across the line. *)
Lemma wedge_le (s c x y r : R) :
  s * s + c * c = 1 -> r * r = x * x + y * y -> 0 <= r ->
  0 <= c * y <= s * x ->
  Rabs y <= Rabs s * r.
Proof.
  intros H1 Hr Hr0 [H0 Hle].
  assert (Hsq : (c * y) * (c * y) <= (s * x) * (s * x)).
  { apply Rmult_le_compat; lra. }
  assert (Hy : y * y = s * s * (y * y) + (c * y) * (c * y)).
  { transitivity ((s * s + c * c) * (y * y)); [rewrite H1; ring | ring]. }
  assert (Hs : (s * r) * (s * r) = s * s * (y * y) + (s * x) * (s * x)).
  { transitivity (s * s * (r * r)); [ring | rewrite Hr; ring]. }
  rewrite <- (Rabs_pos_eq r Hr0) at 1. rewrite <- Rabs_mult.
  apply Rsqr_le_abs_0. unfold Rsqr. lra.
Qed.

Lemma sin_cos_sq (t : R) : sin t * sin t + cos t * cos t = 1.
Proof. exact (sin2_cos2 t). Qed.

Lemma cos_sin_sq (t : R) : cos t * cos t + sin t * sin t = 1.
Proof. rewrite Rplus_comm. apply sin_cos_sq. Qed.

Lemma V2Set_scaled_bound (a : V2Set) (l : R) (v : V2) :
  0 <= l -> In v a ->
  (V2.X (V2Set.Min a) * l <= V2.X v * l <= V2.X (V2Set.Max a) * l) /\
  (V2.Y (V2Set.Min a) * l <= V2.Y v * l <= V2.Y (V2Set.Max a) * l).
Proof.
  intros Hl Hin. destruct (V2Set_Min_Max_bound a v Hin) as [[H1 H2] [H3 H4]].
  repeat split; apply Rmult_le_compat_r; assumption.
Qed.

Lemma NewSorThetaSDF3_box (S : SDF2) (theta : float64) :
  let th := Mod (Abs theta) TAU in
  let vset : V2Set :=
    if th =? 0 then [V2.mk 1 1; V2.mk (-1) (-1)]
    else
      [V2.mk 0 0; V2.mk 1 0; V2.mk (cos th) (sin th)]
        ++ (if th >? (1 / 2) * PI then [V2.mk 0 1] else [])
        ++ (if th >? PI then [V2.mk (-1) 0] else [])
        ++ (if th >? (3 / 2) * PI then [V2.mk 0 (-1)] else []) in
  let bb := SDF2.BoundingBox S in
  let l := Rmax (Rabs (V2.X (Box2.Min bb))) (Rabs (V2.X (Box2.Max bb))) in
  SDF3.BoundingBox (NewSorThetaSDF3 S theta)
  = Box3.mk (V3.mk (V2.X (V2Set.Min vset) * l) (V2.Y (V2Set.Min vset) * l)
                   (V2.Y (Box2.Min bb)))
            (V3.mk (V2.X (V2Set.Max vset) * l) (V2.Y (V2Set.Max vset) * l)
                   (V2.Y (Box2.Max bb))).
Proof. reflexivity. Qed.

(** X15: a solid of revolution of a profile with a sound box has a sound
    box, for every angle: the full turn (angle 0, as [NewSorSDF3] passes it)
    and every wedge, whose box the constructor works out from the
    directions the wedge reaches. *)
Theorem NewSorThetaSDF3_Sound (S : SDF2) (theta : float64) :
  Sound2 S -> Sound3 (NewSorThetaSDF3 S theta) /\ Sound3 (NewSorSDF3 S).
Proof.
  intros HS.
  enough (H : forall th, Sound3 (NewSorThetaSDF3 S th)).
  { split; [apply H | unfold NewSorSDF3; apply H]. }
  clear theta. intros theta [x y z] Hp.
  rewrite SorSDF3_Evaluate_unfold in Hp. cbv zeta in Hp.
  unfold Box3.Contains. rewrite NewSorThetaSDF3_box. cbv zeta.
  cbn [Box3.Min Box3.Max V3.X V3.Y V3.Z].
  pose proof PI_RGT_0 as Hpi.
  assert (Ht : 0 <= Mod (Abs theta) TAU < TAU).
  { apply Mod_range; [apply Rabs_pos | apply TAU_pos]. }
  set (t := Mod (Abs theta) TAU) in *.
  pose proof (sqrt_pos (x * x + y * y)) as Hr0.
  pose proof (sqrt_sqrt _ (sum_sq_nonneg x y)) as Hrr.
  pose proof (@Rabs_le_bounds _ _ (Rabs_le_sqrt_sum x y)) as Hx.
  pose proof (Rabs_le_sqrt_sum y x) as Hy.
  rewrite (Rplus_comm (y * y)) in Hy. apply Rabs_le_bounds in Hy.
  set (r := sqrt (x * x + y * y)) in *.
  unfold Max in Hp. apply Rmax_le_0 in Hp. destruct Hp as [Ha Hb].
  apply HS in Ha. destruct Ha as [[HrL HrU] [HzL HzU]]. cbn [V2.X V2.Y] in *.
  set (bb := SDF2.BoundingBox S) in *.
  set (l := Rmax (Rabs (V2.X (Box2.Min bb))) (Rabs (V2.X (Box2.Max bb)))).
  assert (Hl : r <= l).
  { pose proof (Rmax_r (Rabs (V2.X (Box2.Min bb))) (Rabs (V2.X (Box2.Max bb)))).
    pose proof (Rle_abs (V2.X (Box2.Max bb))). unfold l. lra. }
  assert (Hl0 : 0 <= l) by lra.
  unfold TAU in Ht.
  destruct (Req_dec_T t 0) as [E0 | N0].
  - (* a full turn *)
    rewrite eqb_true by exact E0.
    pose proof (@V2Set_scaled_bound [V2.mk 1 1; V2.mk (-1) (-1)] l (V2.mk 1 1) Hl0
                  ltac:(cbn; tauto)) as H1.
    pose proof (@V2Set_scaled_bound [V2.mk 1 1; V2.mk (-1) (-1)] l (V2.mk (-1) (-1)) Hl0
                  ltac:(cbn; tauto)) as H2.
    cbn [V2.X V2.Y] in H1, H2. lra.
  - rewrite eqb_false in Hb |- * by exact N0. cbn [negb] in Hb.
    set (vset := [V2.mk 0 0; V2.mk 1 0; V2.mk (cos t) (sin t)]
                   ++ (if t >? (1 / 2) * PI then [V2.mk 0 1] else [])
                   ++ (if t >? PI then [V2.mk (-1) 0] else [])
                   ++ (if t >? (3 / 2) * PI then [V2.mk 0 (-1)] else [])).
    assert (H00 : In (V2.mk 0 0) vset) by (left; reflexivity).
    assert (H10 : In (V2.mk 1 0) vset) by (right; left; reflexivity).
    assert (Hcs : In (V2.mk (cos t) (sin t)) vset) by (right; right; left; reflexivity).
    apply (@V2Set_scaled_bound _ l _ Hl0) in H00, H10, Hcs. cbn [V2.X V2.Y] in H00, H10, Hcs.
    pose proof (sin_cos_sq t) as Hsc. pose proof (cos_sin_sq t) as Hcs2.
    destruct (Rlt_dec t PI) as [Hlt | Hge].
    + (* less than a half turn: between the X axis and the theta line *)
      rewrite ltb_true in Hb by exact Hlt.
      apply Rmax_le_0 in Hb. destruct Hb as [Hy0 Hd].
      pose proof (sin_gt_0 t ltac:(lra) Hlt) as Hs.
      assert (Hsx : 0 <= y) by lra.
      repeat split; try lra.
      * (* X from below *)
        destruct (Rle_dec 0 x) as [Hx0 | Hx0]; [lra | ].
        assert (Hsx' : 0 <= sin t * (- x)) by (apply Rmult_le_pos; lra).
        assert (Hc : cos t <= 0).
        { destruct (Rle_dec (cos t) 0) as [H | H]; [exact H | exfalso ].
          assert (0 <= cos t * y) by (apply Rmult_le_pos; lra).
          assert (0 < sin t * (- x)) by (apply Rmult_lt_0_compat; lra). lra. }
        pose proof (@wedge_le (cos t) (sin t) (- y) (- x) r Hcs2
                      ltac:(rewrite Hrr; ring) Hr0 ltac:(lra)) as Hw.
        rewrite Rabs_Ropp, (Rabs_left1 x), (Rabs_left1 (cos t)) in Hw by lra.
        assert ((- cos t) * r <= (- cos t) * l) by (apply Rmult_le_compat_l; lra).
        lra.
      * (* Y from above *)
        destruct (Rlt_dec ((1 / 2) * PI) t) as [Hq | Hq].
        -- assert (H01 : In (V2.mk 0 1) vset).
           { unfold vset. rewrite (ltb_true Hq), !in_app_iff.
             right; left; left; reflexivity. }
           apply (@V2Set_scaled_bound _ l _ Hl0) in H01. cbn [V2.X V2.Y] in H01. lra.
        -- pose proof (cos_ge_0 t ltac:(lra) ltac:(lra)) as Hc.
           assert (0 <= cos t * y) by (apply Rmult_le_pos; lra).
           pose proof (@wedge_le (sin t) (cos t) x y r Hsc Hrr Hr0 ltac:(lra)) as Hw.
           rewrite (Rabs_pos_eq y), (Rabs_pos_eq (sin t)) in Hw by lra.
           assert (sin t * r <= sin t * l) by (apply Rmult_le_compat_l; lra).
           lra.
    + (* a half turn or more *)
      rewrite ltb_false in Hb by lra. unfold Min in Hb.
      assert (H01 : In (V2.mk 0 1) vset).
      { unfold vset. rewrite (@ltb_true ((1 / 2) * PI) t), !in_app_iff by lra.
        right; left; left; reflexivity. }
      apply (@V2Set_scaled_bound _ l _ Hl0) in H01. cbn [V2.X V2.Y] in H01.
      assert (HxL : V2.X (V2Set.Min vset) * l <= - l).
      { destruct (Rlt_dec PI t) as [Hgt | Heq].
        - assert (Hm : In (V2.mk (-1) 0) vset).
          { unfold vset. rewrite (ltb_true Hgt), !in_app_iff.
            right; right; left; left; reflexivity. }
          apply (@V2Set_scaled_bound _ l _ Hl0) in Hm. cbn [V2.X V2.Y] in Hm. lra.
        - assert (Et : t = PI) by lra.
          rewrite Et, cos_PI in Hcs. lra. }
      assert (HyL : V2.Y (V2Set.Min vset) * l <= y).
      { destruct (Rle_dec 0 y) as [Hy0 | Hy0]; [lra | ].
        destruct (Rlt_dec ((3 / 2) * PI) t) as [Hq | Hq].
        - assert (Hm : In (V2.mk 0 (-1)) vset).
          { unfold vset. rewrite (ltb_true Hq), !in_app_iff.
            right; right; right; left; reflexivity. }
          apply (@V2Set_scaled_bound _ l _ Hl0) in Hm. cbn [V2.X V2.Y] in Hm. lra.
        - apply Rmin_le_0 in Hb. destruct Hb as [Hb | Hd]; [lra | ].
          pose proof (sin_le_0 t ltac:(lra) ltac:(lra)) as Hs.
          pose proof (cos_le_0 t ltac:(lra) ltac:(lra)) as Hc.
          assert (0 <= (- cos t) * (- y)) by (apply Rmult_le_pos; lra).
          pose proof (@wedge_le (sin t) (cos t) x y r Hsc Hrr Hr0 ltac:(lra)) as Hw.
          rewrite (Rabs_left1 y), (Rabs_left1 (sin t)) in Hw by lra.
          assert ((- sin t) * r <= (- sin t) * l) by (apply Rmult_le_compat_l; lra).
          lra. }
      lra.
Qed.

(** The unit circle revolved through a quarter turn and through a full
    turn. *)
Lemma NewSorThetaSDF3_Sound_witness :
  Sound3 (NewSorThetaSDF3 (Circle2D 1) (PI / 2)) /\ Sound3 (NewSorSDF3 (Circle2D 1)).
Proof.
  apply NewSorThetaSDF3_Sound. apply Circle2D_Sphere_Sound.
Defined.

(** ** Polygon: the box and the vertices *)

Lemma V2_Equals_0 (a b : V2) : V2.Equals a b 0 = true -> a = b.
Proof.
  unfold V2.Equals, Abs, leb. intros H. apply andb_true_iff in H. destruct H as [Hx Hy].
  destruct (Rle_dec (Rabs (V2.X a - V2.X b)) 0) as [Hx' | ]; [ | discriminate ].
  destruct (Rle_dec (Rabs (V2.Y a - V2.Y b)) 0) as [Hy' | ]; [ | discriminate ].
  pose proof (Rabs_pos (V2.X a - V2.X b)). pose proof (Rabs_pos (V2.Y a - V2.Y b)).
  unfold Rabs in *.
  destruct (Rcase_abs (V2.X a - V2.X b)); destruct (Rcase_abs (V2.Y a - V2.Y b));
    apply V2_eq; lra.
Qed.

(** The two loops of [NewPolySDF2] that work out the box: the corners bound
    every vertex the loops visit. *)
Lemma vmin_vmax_bound (sv : list V2) (n i : Z) (v0 : V2) :
  (0 <= i < n)%Z ->
  Box2.Contains
    (Box2.mk
       (fold_left (fun vmin i => V2.Min vmin (index sv i (V2.mk 0 0))) (Range n) v0)
       (fold_left (fun vmax i => V2.Max vmax (index sv i (V2.mk 0 0))) (Range n) v0))
    (index sv i (V2.mk 0 0)).
Proof.
  intros Hi.
  rewrite <- (fold_left_map V2.Min (fun i => index sv i (V2.mk 0 0))).
  rewrite <- (fold_left_map V2.Max (fun i => index sv i (V2.mk 0 0))).
  assert (Hin : In (index sv i (V2.mk 0 0))
                   (map (fun i => index sv i (V2.mk 0 0)) (Range n))).
  { apply (in_map (fun i => index sv i (V2.mk 0 0))). apply Range_In. exact Hi. }
  destruct (fold_V2_Min_le (map (fun i => index sv i (V2.mk 0 0)) (Range n)) v0)
    as [_ Hmin].
  destruct (fold_V2_Max_ge (map (fun i => index sv i (V2.mk 0 0)) (Range n)) v0)
    as [_ Hmax].
  specialize (Hmin _ Hin). specialize (Hmax _ Hin).
  unfold Box2.Contains. cbn [Box2.Min Box2.Max]. lra.
Qed.

(** ** Polygon: the distance at a vertex *)

Lemma Range_S (k : nat) :
  Range (Z.of_nat (S k)) = Range (Z.of_nat k) ++ [Z.of_nat k].
Proof.
  unfold Range. rewrite !Nat2Z.id, seq_S, map_app. reflexivity.
Qed.

Lemma Rmin_0_nonneg (a : R) : 0 <= a -> Rmin 0 a = 0.
Proof. intros H. apply Rmin_left. exact H. Qed.

(** The loop of [Evaluate] after [k] turns: [pb] is the vector from the next
    vertex to [p], [dd] is not negative, and [dd] is zero once the loop has
    been through a line segment that starts at [p]. *)
Lemma PolySDF2_loop (s : PolySDF2.t) (p : V2) (i : nat) :
  (forall j, 0 <= index (PolySDF2.length s) j 0) ->
  p = index (PolySDF2.vertex s) (Z.of_nat i) (V2.mk 0 0) ->
  forall k : nat,
    let st :=
      fold_left (PolySDF2.segment s p) (Range (Z.of_nat k))
        (PolySDF2.mkloop MaxFloat64 0
           (V2.Sub p (index (PolySDF2.vertex s) 0 (V2.mk 0 0)))) in
    PolySDF2.pb st = V2.Sub p (index (PolySDF2.vertex s) (Z.of_nat k) (V2.mk 0 0)) /\
    0 <= PolySDF2.dd st /\
    ((i < k)%nat -> PolySDF2.dd st = 0).
Proof.
  intros Hlen Hp k. cbv zeta. induction k as [ | k IH ].
  - cbn. pose proof MaxFloat64_pos. repeat split; [lra | lia].
  - rewrite Range_S, fold_left_app. cbn [fold_left].
    set (st := fold_left (PolySDF2.segment s p) (Range (Z.of_nat k)) _) in *.
    destruct IH as [Hpb [Hdd Hzero]].
    unfold PolySDF2.segment. cbv zeta.
    cbn [PolySDF2.pb PolySDF2.dd PolySDF2.wn].
    split; [ | split ].
    + f_equal. f_equal. lia.
    + unfold Min.
      pose proof (sum_sq_nonneg (V2.X (PolySDF2.pb st)) (V2.Y (PolySDF2.pb st))).
      match goal with
      | |- context [V2.Length2 (V2.Sub p ?b)] =>
          pose proof (sum_sq_nonneg (V2.X (V2.Sub p b)) (V2.Y (V2.Sub p b)))
      end.
      unfold V2.Length2.
      repeat match goal with
             | |- context [if ?c then _ else _] => destruct c
             end;
        apply Rmin_glb; try assumption; nra.
    + intros Hik. unfold Min.
      destruct (Nat.eq_dec i k) as [E | N].
      * (* this turn is for the line segment that starts at p *)
        subst k. rewrite Hpb, <- Hp.
        replace (V2.Sub p p) with (V2.mk 0 0) by (unfold V2.Sub; f_equal; ring).
        unfold V2.Dot. cbn [V2.X V2.Y].
        match goal with
        | |- context [0 * ?a + 0 * ?b <? 0] =>
            replace (0 * a + 0 * b) with 0 by ring
        end.
        rewrite (@ltb_false 0 0) by lra.
        match goal with
        | |- context [0 * ?a + 0 * ?b] =>
            replace (0 * a + 0 * b) with 0 by ring
        end.
        rewrite ltb_false by apply Hlen.
        replace (0 * 0) with 0 by ring.
        apply Rmin_right. exact Hdd.
      * rewrite Hzero by lia.
        pose proof (sum_sq_nonneg (V2.X (PolySDF2.pb st)) (V2.Y (PolySDF2.pb st))).
        match goal with
        | |- context [V2.Length2 (V2.Sub p ?b)] =>
            pose proof (sum_sq_nonneg (V2.X (V2.Sub p b)) (V2.Y (V2.Sub p b)))
        end.
        unfold V2.Length2.
        repeat match goal with
               | |- context [if ?c then _ else _] => destruct c
               end;
          apply Rmin_0_nonneg; try assumption; nra.
Qed.

Lemma PolySDF2_Evaluate_vertex (s : PolySDF2.t) (i : Z) :
  (forall j, 0 <= index (PolySDF2.length s) j 0) ->
  (0 <= i < len (PolySDF2.vertex s) - 1)%Z ->
  PolySDF2.Evaluate s (index (PolySDF2.vertex s) i (V2.mk 0 0)) = 0.
Proof.
  intros Hlen Hi. unfold PolySDF2.Evaluate. cbv zeta.
  set (p := index (PolySDF2.vertex s) i (V2.mk 0 0)).
  assert (Hp : p = index (PolySDF2.vertex s) (Z.of_nat (Z.to_nat i)) (V2.mk 0 0)).
  { unfold p. f_equal. lia. }
  destruct (PolySDF2_loop s (Z.to_nat i) Hlen Hp
              (Z.to_nat (len (PolySDF2.vertex s) - 1))) as [_ [_ Hz]].
  rewrite Z2Nat.id in Hz by lia. rewrite Hz by lia.
  rewrite sqrt_0.
  match goal with |- (if ?c then _ else _) = _ => destruct c end; ring.
Qed.

(** What [NewPolySDF2] builds, seen from one of the vertices it was given:
    the vertex starts one of the line segments (the last vertex of a loop
    that is closed already is also the first), the lengths are not
    negative, and the box is worked out over the starts of the line
    segments. *)
Lemma NewPolySDF2_vertex (vertex : list V2) (s : SDF2) (v : V2) :
  NewPolySDF2 vertex = Some s -> In v vertex ->
  exists (ps : PolySDF2.t) (i : Z),
    s = PolySDF2.iface ps /\
    (0 <= i < len (PolySDF2.vertex ps) - 1)%Z /\
    v = index (PolySDF2.vertex ps) i (V2.mk 0 0) /\
    (forall j, 0 <= index (PolySDF2.length ps) j 0) /\
    Box2.Contains (PolySDF2.bb ps) v.
Proof.
  unfold NewPolySDF2. cbv zeta.
  destruct (len vertex <? 3)%Z eqn:En; [discriminate | ].
  apply Z.ltb_ge in En. unfold len in En.
  intros E Hv. inversion E; subst s; clear E.
  apply (In_nth _ _ (V2.mk 0 0)) in Hv. destruct Hv as [k [Hk <-]].
  assert (Hlen : forall (sv : list V2) (n j : Z),
             0 <= index
                    (map (fun i => V2.Length
                                     (V2.Sub (index sv (i + 1) (V2.mk 0 0))
                                             (index sv i (V2.mk 0 0))))
                         (Range n)) j 0).
  { intros sv n j. unfold index at 1.
    match goal with |- 0 <= nth ?a ?l 0 => destruct (nth_in_or_default a l 0) as [H | ->] end;
      [ | lra ].
    apply in_map_iff in H. destruct H as [i [<- _]]. apply V2_Length_nonneg. }
  destruct (V2.Equals (index vertex 0 (V2.mk 0 0))
              (index vertex (len vertex - 1) (V2.mk 0 0)) 0) eqn:Eq; cbn [negb].
  - (* the loop is closed already *)
    apply V2_Equals_0 in Eq.
    destruct (Nat.eq_dec k (length vertex - 1)) as [-> | Hne].
    + eexists. exists 0%Z.
      assert (Ev : nth (length vertex - 1) vertex (V2.mk 0 0)
                   = index vertex 0 (V2.mk 0 0)).
      { rewrite Eq. unfold index, len. f_equal. lia. }
      split; [reflexivity | ]. cbn [PolySDF2.vertex PolySDF2.length PolySDF2.bb].
      split; [unfold len; lia | ].
      split; [exact Ev | ]. split; [apply Hlen | ].
      rewrite Ev. apply vmin_vmax_bound. unfold len. lia.
    + eexists. exists (Z.of_nat k).
      assert (Ev : nth k vertex (V2.mk 0 0) = index vertex (Z.of_nat k) (V2.mk 0 0)).
      { unfold index. f_equal. lia. }
      split; [reflexivity | ]. cbn [PolySDF2.vertex PolySDF2.length PolySDF2.bb].
      split; [unfold len; lia | ].
      split; [exact Ev | ]. split; [apply Hlen | ].
      rewrite Ev. apply vmin_vmax_bound. unfold len. lia.
  - (* the first vertex is added at the end *)
    eexists. exists (Z.of_nat k).
    assert (Ev : nth k vertex (V2.mk 0 0)
                 = index (vertex ++ [index vertex 0 (V2.mk 0 0)]) (Z.of_nat k)
                     (V2.mk 0 0)).
    { unfold index at 1. rewrite Nat2Z.id. symmetry. apply app_nth1. exact Hk. }
    split; [reflexivity | ]. cbn [PolySDF2.vertex PolySDF2.length PolySDF2.bb].
    split; [unfold len; rewrite length_app; cbn; lia | ].
    split; [exact Ev | ]. split; [apply Hlen | ].
    rewrite Ev. apply vmin_vmax_bound. unfold len. rewrite length_app. cbn. lia.
Qed.

(** X16: every vertex given to [NewPolySDF2] lies on the polygon, at the
    distance 0, and in the polygon's box. *)
Theorem NewPolySDF2_vertices (vertex : list V2) (s : SDF2) (v : V2) :
  NewPolySDF2 vertex = Some s -> In v vertex ->
  SDF2.Evaluate s v = 0 /\ Box2.Contains (SDF2.BoundingBox s) v.
Proof.
  intros E Hv.
  destruct (@NewPolySDF2_vertex vertex s v E Hv) as [ps [i [-> [Hi [-> [Hlen Hbb]]]]]].
  split.
  - apply PolySDF2_Evaluate_vertex; assumption.
  - exact Hbb.
Qed.

(** One vertex of a square. *)
Lemma NewPolySDF2_vertices_witness :
  exists s : SDF2,
    NewPolySDF2 [V2.mk 0 0; V2.mk 1 0; V2.mk 1 1; V2.mk 0 1] = Some s /\
    SDF2.Evaluate s (V2.mk 1 1) = 0 /\
    Box2.Contains (SDF2.BoundingBox s) (V2.mk 1 1).
Proof.
  eexists. split; [exact NewPolySDF2_square | ].
  apply (@NewPolySDF2_vertices
           [V2.mk 0 0; V2.mk 1 0; V2.mk 1 1; V2.mk 0 1] _ (V2.mk 1 1)
           NewPolySDF2_square).
  right; right; left; reflexivity.
Defined.

(** ** Slice: the plane and the box *)

Lemma V3_Dot_self_nonneg (a : V3) : 0 <= V3.Dot a a.
Proof. unfold V3.Dot. nra. Qed.

Lemma V3_Length_sq (a : V3) : V3.Length a * V3.Length a = V3.Dot a a.
Proof. unfold V3.Length. apply sqrt_sqrt. apply (V3_Dot_self_nonneg a). Qed.

Lemma V3_Length_neq_0 (a : V3) : V3.Dot a a <> 0 -> V3.Length a <> 0.
Proof. intros H E. apply H. rewrite <- V3_Length_sq, E. ring. Qed.

Lemma V3_Dot_self_neq_0 (a : V3) : a <> V3.mk 0 0 0 -> V3.Dot a a <> 0.
Proof.
  intros H E. apply H. destruct a as [x y z]. unfold V3.Dot in E. cbn in E.
  assert (x = 0) by nra. assert (y = 0) by nra. assert (z = 0) by nra.
  subst. reflexivity.
Qed.

Lemma V3_Normalize_Dot (a b : V3) :
  V3.Dot a a <> 0 -> V3.Dot b b <> 0 ->
  V3.Dot (V3.Normalize a) (V3.Normalize b)
  = V3.Dot a b / (V3.Length a * V3.Length b).
Proof.
  intros Ha Hb. apply V3_Length_neq_0 in Ha, Hb.
  unfold V3.Normalize. rewrite !eqb_false by assumption.
  unfold V3.Dot, V3.MulScalar. cbn [V3.X V3.Y V3.Z]. field. split; assumption.
Qed.

Lemma V3_Normalize_unit (a : V3) :
  V3.Dot a a <> 0 -> V3.Dot (V3.Normalize a) (V3.Normalize a) = 1.
Proof.
  intros Ha. rewrite V3_Normalize_Dot by assumption.
  rewrite V3_Length_sq. field. exact Ha.
Qed.

Lemma V3_Normalize_orth (a b : V3) :
  V3.Dot a a <> 0 -> V3.Dot b b <> 0 -> V3.Dot a b = 0 ->
  V3.Dot (V3.Normalize a) (V3.Normalize b) = 0.
Proof.
  intros Ha Hb E. rewrite V3_Normalize_Dot, E by assumption.
  apply V3_Length_neq_0 in Ha, Hb. field. split; assumption.
Qed.

(** The first axis that [Slice2D] picks in the plane is at a right angle to
    the normal and is not the zero vector; so is its cross product with the
    normal. *)
Lemma Slice2D_axes (n : V3) :
  n <> V3.mk 0 0 0 ->
  let u :=
    if V3.X n =? 0 then V3.mk 1 0 0
    else if V3.Y n =? 0 then V3.mk 0 1 0
    else if V3.Z n =? 0 then V3.mk 0 0 1
    else V3.mk (V3.Y n) (- V3.X n) 0 in
  let v := V3.Cross n u in
  V3.Dot n u = 0 /\ V3.Dot u u <> 0 /\ V3.Dot v v <> 0 /\
  V3.Dot v u = 0 /\ V3.Dot n v = 0.
Proof.
  intros Hn. cbv zeta.
  set (u := if V3.X n =? 0 then _ else _).
  pose proof (V3_Dot_self_neq_0 Hn) as Hnn.
  assert (Hnu : V3.Dot n u = 0 /\ V3.Dot u u <> 0).
  { unfold u, eqb. destruct n as [x y z]. cbn [V3.X V3.Y V3.Z].
    destruct (Req_dec_T x 0) as [Ex | Nx];
      [ | destruct (Req_dec_T y 0) as [Ey | Ny];
          [ | destruct (Req_dec_T z 0) as [Ez | Nz] ] ];
      unfold V3.Dot; cbn [V3.X V3.Y V3.Z]; split; try (subst; ring); try lra.
    intros E. apply Nx. nra. }
  destruct Hnu as [Hnu Huu].
  assert (Hvv : V3.Dot (V3.Cross n u) (V3.Cross n u)
                = V3.Dot n n * V3.Dot u u - V3.Dot n u * V3.Dot n u).
  { unfold V3.Dot, V3.Cross. cbn [V3.X V3.Y V3.Z]. ring. }
  repeat split; try assumption.
  - rewrite Hvv, Hnu. intros E.
    assert (V3.Dot n n * V3.Dot u u = 0) by lra.
    apply Rmult_integral in H. tauto.
  - unfold V3.Dot, V3.Cross. cbn [V3.X V3.Y V3.Z]. ring.
  - unfold V3.Dot, V3.Cross. cbn [V3.X V3.Y V3.Z]. ring.
Qed.

(** An affine function on a box is between its values at two of the
    vertices of the box. *)
Lemma affine_on_box (b : Box3) (q : V3) (cx cy cz : R) :
  Box3.Contains b q ->
  exists w W : V3,
    In w (Box3.Vertices b) /\ In W (Box3.Vertices b) /\
    cx * V3.X w + cy * V3.Y w + cz * V3.Z w
    <= cx * V3.X q + cy * V3.Y q + cz * V3.Z q
    <= cx * V3.X W + cy * V3.Y W + cz * V3.Z W.
Proof.
  destruct b as [[x0 y0 z0] [x1 y1 z1]], q as [x y z].
  unfold Box3.Contains, Box3.Vertices. cbn [Box3.Min Box3.Max V3.X V3.Y V3.Z].
  intros [[Hx0 Hx1] [[Hy0 Hy1] [Hz0 Hz1]]].
  assert (Hc : forall c lo hi t : R, lo <= t <= hi ->
               exists m M : R, (m = lo \/ m = hi) /\ (M = lo \/ M = hi) /\
                               c * m <= c * t <= c * M).
  { intros c lo hi t [H0 H1]. destruct (Rle_dec 0 c) as [Hc | Hc].
    - exists lo, hi. repeat split; try tauto; apply Rmult_le_compat_l; lra.
    - exists hi, lo. repeat split; try tauto; nra. }
  destruct (Hc cx x0 x1 x (conj Hx0 Hx1)) as [mx [Mx [Hmx [HMx Ex]]]].
  destruct (Hc cy y0 y1 y (conj Hy0 Hy1)) as [my [My [Hmy [HMy Ey]]]].
  destruct (Hc cz z0 z1 z (conj Hz0 Hz1)) as [mz [Mz [Hmz [HMz Ez]]]].
  exists (V3.mk mx my mz), (V3.mk Mx My Mz). cbn [V3.X V3.Y V3.Z].
  split; [ | split; [ | lra ] ].
  - destruct Hmx as [-> | ->], Hmy as [-> | ->], Hmz as [-> | ->]; cbn; tauto.
  - destruct HMx as [-> | ->], HMy as [-> | ->], HMz as [-> | ->]; cbn; tauto.
Qed.

Lemma V3_Dot_comm (a b : V3) : V3.Dot a b = V3.Dot b a.
Proof. unfold V3.Dot. ring. Qed.

(** The coordinate of a point along an axis of the plane, as [Slice2D]
    works it out for the vertices of the box. *)
Lemma Slice2D_coord (q a N U : V3) :
  V3.Dot N U = 0 ->
  V3.Dot (V3.Sub (V3.Sub q a) (V3.MulScalar N (V3.Dot N (V3.Sub q a)))) U
  = V3.X U * V3.X q + V3.Y U * V3.Y q + V3.Z U * V3.Z q - V3.Dot U a.
Proof.
  intros H.
  transitivity (V3.Dot (V3.Sub q a) U - V3.Dot N (V3.Sub q a) * V3.Dot N U).
  - unfold V3.Dot, V3.Sub, V3.MulScalar. cbn [V3.X V3.Y V3.Z]. ring.
  - rewrite H. unfold V3.Dot, V3.Sub. cbn [V3.X V3.Y V3.Z]. ring.
Qed.

(** The point of space that [Evaluate] makes from a point of the plane has
    that point's coordinates along the two axes. *)
Lemma Slice2D_pnew (a U V : V3) (p : V2) :
  V3.Dot U U = 1 -> V3.Dot V V = 1 -> V3.Dot V U = 0 ->
  let pnew := V3.Add (V3.Add a (V3.MulScalar U (V2.X p))) (V3.MulScalar V (V2.Y p)) in
  V3.X U * V3.X pnew + V3.Y U * V3.Y pnew + V3.Z U * V3.Z pnew - V3.Dot U a = V2.X p /\
  V3.X V * V3.X pnew + V3.Y V * V3.Y pnew + V3.Z V * V3.Z pnew - V3.Dot V a = V2.Y p.
Proof.
  intros HU HV HVU. cbv zeta. split.
  - transitivity (V2.X p * V3.Dot U U + V2.Y p * V3.Dot V U).
    + unfold V3.Dot, V3.Add, V3.MulScalar. cbn [V3.X V3.Y V3.Z]. ring.
    + rewrite HU, HVU. ring.
  - transitivity (V2.X p * V3.Dot V U + V2.Y p * V3.Dot V V).
    + unfold V3.Dot, V3.Add, V3.MulScalar. cbn [V3.X V3.Y V3.Z]. ring.
    + rewrite HV, HVU. ring.
Qed.

(** X17: for a plane through [a] with a normal [n] that is not the zero
    vector, [Slice2D] evaluates the solid at [a + x u + y v] for two unit
    vectors [u] and [v] of the plane at a right angle to each other; so the
    slice shows the solid on that plane without distortion.  If the solid's
    box is sound, so is the box of the slice. *)
Theorem Slice2D_Sound (sdf : SDF3) (a n : V3) :
  n <> V3.mk 0 0 0 ->
  (exists u v : V3,
      V3.Dot u u = 1 /\ V3.Dot v v = 1 /\ V3.Dot u v = 0 /\
      V3.Dot n u = 0 /\ V3.Dot n v = 0 /\
      forall p : V2,
        SDF2.Evaluate (Slice2D sdf a n) p
        = SDF3.Evaluate sdf
            (V3.Add (V3.Add a (V3.MulScalar u (V2.X p))) (V3.MulScalar v (V2.Y p))))
  /\ (Sound3 sdf -> Sound2 (Slice2D sdf a n)).
Proof.
  intros Hn.
  destruct (Slice2D_axes Hn) as [Hnu [Huu [Hvv [Hvu Hnv]]]].
  pose proof (V3_Dot_self_neq_0 Hn) as Hnn.
  unfold Slice2D. cbv zeta.
  set (u0 := if V3.X n =? 0 then _ else _) in *.
  set (U := V3.Normalize u0). set (V := V3.Normalize (V3.Cross n u0)).
  set (N := V3.Normalize n).
  assert (HUU : V3.Dot U U = 1) by (apply V3_Normalize_unit; assumption).
  assert (HVV : V3.Dot V V = 1) by (apply V3_Normalize_unit; assumption).
  assert (HVU : V3.Dot V U = 0) by (apply V3_Normalize_orth; assumption).
  assert (HNU : V3.Dot N U = 0) by (apply V3_Normalize_orth; assumption).
  assert (HNV : V3.Dot N V = 0) by (apply V3_Normalize_orth; assumption).
  split.
  - exists U, V. repeat split; try assumption.
    + rewrite V3_Dot_comm. exact HVU.
    + unfold U, V3.Normalize. rewrite eqb_false by (apply V3_Length_neq_0; assumption).
      transitivity (V3.Dot n u0 * / V3.Length u0); [ | rewrite Hnu; ring ].
      unfold V3.Dot, V3.MulScalar. cbn [V3.X V3.Y V3.Z]. ring.
    + unfold V, V3.Normalize. rewrite eqb_false by (apply V3_Length_neq_0; assumption).
      transitivity (V3.Dot n (V3.Cross n u0) * / V3.Length (V3.Cross n u0));
        [ | rewrite Hnv; ring ].
      unfold V3.Dot, V3.MulScalar. cbn [V3.X V3.Y V3.Z]. ring.
  - intros HS p Hp.
    cbn [SDF2.Evaluate SliceSDF2.iface] in Hp. unfold SliceSDF2.Evaluate in Hp.
    cbn [SliceSDF2.sdf SliceSDF2.a SliceSDF2.u SliceSDF2.v] in Hp.
    apply HS in Hp.
    cbn [SDF2.BoundingBox SliceSDF2.iface SliceSDF2.BoundingBox SliceSDF2.bb].
    destruct (Slice2D_pnew a p HUU HVV HVU) as [EX EY]. cbv zeta in EX, EY.
    set (pnew := V3.Add (V3.Add a (V3.MulScalar U (V2.X p))) (V3.MulScalar V (V2.Y p)))
      in *.
    destruct (affine_on_box (V3.X U) (V3.Y U) (V3.Z U) Hp)
      as [w1 [W1 [Hw1 [HW1 B1]]]].
    destruct (affine_on_box (V3.X V) (V3.Y V) (V3.Z V) Hp)
      as [w2 [W2 [Hw2 [HW2 B2]]]].
    set (g := fun vtx : V3 =>
                V2.mk
                  (V3.Dot (V3.Sub (V3.Sub vtx a)
                             (V3.MulScalar N (V3.Dot N (V3.Sub vtx a)))) U)
                  (V3.Dot (V3.Sub (V3.Sub vtx a)
                             (V3.MulScalar N (V3.Dot N (V3.Sub vtx a)))) V)).
    assert (Hg : forall w, In w (Box3.Vertices (SDF3.BoundingBox sdf)) ->
                 let m := V2Set.Min (map g (Box3.Vertices (SDF3.BoundingBox sdf))) in
                 let M := V2Set.Max (map g (Box3.Vertices (SDF3.BoundingBox sdf))) in
                 (V2.X m <= V3.X U * V3.X w + V3.Y U * V3.Y w + V3.Z U * V3.Z w
                            - V3.Dot U a <= V2.X M) /\
                 (V2.Y m <= V3.X V * V3.X w + V3.Y V * V3.Y w + V3.Z V * V3.Z w
                            - V3.Dot V a <= V2.Y M)).
    { intros w Hw. cbv zeta.
      pose proof (@V2Set_Min_Max_bound _ (g w) (in_map g _ _ Hw)) as Hb.
      assert (Ex : V2.X (g w)
                   = V3.X U * V3.X w + V3.Y U * V3.Y w + V3.Z U * V3.Z w - V3.Dot U a).
      { unfold g. cbn [V2.X]. apply Slice2D_coord. exact HNU. }
      assert (Ey : V2.Y (g w)
                   = V3.X V * V3.X w + V3.Y V * V3.Y w + V3.Z V * V3.Z w - V3.Dot V a).
      { unfold g. cbn [V2.Y]. apply Slice2D_coord. exact HNV. }
      rewrite Ex, Ey in Hb. exact Hb. }
    unfold Box2.Contains. cbn [Box2.Min Box2.Max]. fold g.
    pose proof (Hg w1 Hw1) as G1. pose proof (Hg W1 HW1) as G2.
    pose proof (Hg w2 Hw2) as G3. pose proof (Hg W2 HW2) as G4.
    cbv zeta in G1, G2, G3, G4. lra.
Qed.

(** The unit ball cut by the plane z = 0. *)
Lemma Slice2D_Sound_witness :
  Sound2 (Slice2D (NewSphereSDF3 1) (V3.mk 0 0 0) (V3.mk 0 0 1)).
Proof.
  apply (Slice2D_Sound (NewSphereSDF3 1) (V3.mk 0 0 0) (n := V3.mk 0 0 1)).
  - intros E. inversion E. lra.
  - apply Circle2D_Sphere_Sound.
Defined.

(** ** Transform: the box *)

Lemma fold_V3_Min_le (l : list V3) (v0 : V3) :
  (V3.X (fold_left V3.Min l v0) <= V3.X v0 /\
   V3.Y (fold_left V3.Min l v0) <= V3.Y v0 /\
   V3.Z (fold_left V3.Min l v0) <= V3.Z v0) /\
  forall v, In v l ->
    V3.X (fold_left V3.Min l v0) <= V3.X v /\
    V3.Y (fold_left V3.Min l v0) <= V3.Y v /\
    V3.Z (fold_left V3.Min l v0) <= V3.Z v.
Proof.
  revert v0. induction l as [ | a l IH ]; intros v0; cbn [fold_left].
  - split; [lra | intros v []].
  - destruct (IH (V3.Min v0 a)) as [[H0x [H0y H0z]] Hl].
    change (V3.X (V3.Min v0 a)) with (Rmin (V3.X v0) (V3.X a)) in H0x.
    change (V3.Y (V3.Min v0 a)) with (Rmin (V3.Y v0) (V3.Y a)) in H0y.
    change (V3.Z (V3.Min v0 a)) with (Rmin (V3.Z v0) (V3.Z a)) in H0z.
    pose proof (Rmin_l (V3.X v0) (V3.X a)). pose proof (Rmin_r (V3.X v0) (V3.X a)).
    pose proof (Rmin_l (V3.Y v0) (V3.Y a)). pose proof (Rmin_r (V3.Y v0) (V3.Y a)).
    pose proof (Rmin_l (V3.Z v0) (V3.Z a)). pose proof (Rmin_r (V3.Z v0) (V3.Z a)).
    split; [lra | ]. intros v [<- | Hin]; [lra | apply Hl, Hin].
Qed.

Lemma fold_V3_Max_ge (l : list V3) (v0 : V3) :
  (V3.X v0 <= V3.X (fold_left V3.Max l v0) /\
   V3.Y v0 <= V3.Y (fold_left V3.Max l v0) /\
   V3.Z v0 <= V3.Z (fold_left V3.Max l v0)) /\
  forall v, In v l ->
    V3.X v <= V3.X (fold_left V3.Max l v0) /\
    V3.Y v <= V3.Y (fold_left V3.Max l v0) /\
    V3.Z v <= V3.Z (fold_left V3.Max l v0).
Proof.
  revert v0. induction l as [ | a l IH ]; intros v0; cbn [fold_left].
  - split; [lra | intros v []].
  - destruct (IH (V3.Max v0 a)) as [[H0x [H0y H0z]] Hl].
    change (V3.X (V3.Max v0 a)) with (Rmax (V3.X v0) (V3.X a)) in H0x.
    change (V3.Y (V3.Max v0 a)) with (Rmax (V3.Y v0) (V3.Y a)) in H0y.
    change (V3.Z (V3.Max v0 a)) with (Rmax (V3.Z v0) (V3.Z a)) in H0z.
    pose proof (Rmax_l (V3.X v0) (V3.X a)). pose proof (Rmax_r (V3.X v0) (V3.X a)).
    pose proof (Rmax_l (V3.Y v0) (V3.Y a)). pose proof (Rmax_r (V3.Y v0) (V3.Y a)).
    pose proof (Rmax_l (V3.Z v0) (V3.Z a)). pose proof (Rmax_r (V3.Z v0) (V3.Z a)).
    split; [lra | ]. intros v [<- | Hin]; [lra | apply Hl, Hin].
Qed.

Lemma V3Set_Min_Max_bound (a : V3Set) (v : V3) :
  In v a ->
  (V3.X (V3Set.Min a) <= V3.X v <= V3.X (V3Set.Max a)) /\
  (V3.Y (V3Set.Min a) <= V3.Y v <= V3.Y (V3Set.Max a)) /\
  (V3.Z (V3Set.Min a) <= V3.Z v <= V3.Z (V3Set.Max a)).
Proof.
  intros Hin. destruct a as [ | v0 r ]; [destruct Hin | ].
  unfold V3Set.Min, V3Set.Max.
  destruct (fold_V3_Min_le (v0 :: r) v0) as [_ Hmin].
  destruct (fold_V3_Max_ge (v0 :: r) v0) as [_ Hmax].
  specialize (Hmin v Hin). specialize (Hmax v Hin). lra.
Qed.

Lemma affine_on_box2 (b : Box2) (q : V2) (cx cy : R) :
  Box2.Contains b q ->
  exists w W : V2,
    In w (Box2.Vertices b) /\ In W (Box2.Vertices b) /\
    cx * V2.X w + cy * V2.Y w <= cx * V2.X q + cy * V2.Y q
    <= cx * V2.X W + cy * V2.Y W.
Proof.
  destruct b as [[x0 y0] [x1 y1]], q as [x y].
  unfold Box2.Contains, Box2.Vertices. cbn [Box2.Min Box2.Max V2.X V2.Y].
  intros [[Hx0 Hx1] [Hy0 Hy1]].
  assert (Hc : forall c lo hi t : R, lo <= t <= hi ->
               exists m M : R, (m = lo \/ m = hi) /\ (M = lo \/ M = hi) /\
                               c * m <= c * t <= c * M).
  { intros c lo hi t [H0 H1]. destruct (Rle_dec 0 c) as [Hc | Hc].
    - exists lo, hi. repeat split; try tauto; apply Rmult_le_compat_l; lra.
    - exists hi, lo. repeat split; try tauto; nra. }
  destruct (Hc cx x0 x1 x (conj Hx0 Hx1)) as [mx [Mx [Hmx [HMx Ex]]]].
  destruct (Hc cy y0 y1 y (conj Hy0 Hy1)) as [my [My [Hmy [HMy Ey]]]].
  exists (V2.mk mx my), (V2.mk Mx My). cbn [V2.X V2.Y].
  split; [ | split; [ | lra ] ].
  - destruct Hmx as [-> | ->], Hmy as [-> | ->]; cbn; tauto.
  - destruct HMx as [-> | ->], HMy as [-> | ->]; cbn; tauto.
Qed.

(** The box of the transformed vertices of a box holds the transform of
    every point of the box. *)
Lemma M33_MulBox_Contains (M : M33) (b : Box2) (q : V2) :
  Box2.Contains b q -> Box2.Contains (M33.MulBox M b) (M33.MulPosition M q).
Proof.
  intros Hq. unfold M33.MulBox, M33.MulVertices. cbv zeta.
  destruct (affine_on_box2 (M33.x00 M) (M33.x01 M) Hq) as [w1 [W1 [Hw1 [HW1 B1]]]].
  destruct (affine_on_box2 (M33.x10 M) (M33.x11 M) Hq) as [w2 [W2 [Hw2 [HW2 B2]]]].
  assert (Hg : forall w, In w (Box2.Vertices b) ->
               let v := map (M33.MulPosition M) (Box2.Vertices b) in
               (V2.X (V2Set.Min v)
                <= M33.x00 M * V2.X w + M33.x01 M * V2.Y w + M33.x02 M
                <= V2.X (V2Set.Max v)) /\
               (V2.Y (V2Set.Min v)
                <= M33.x10 M * V2.X w + M33.x11 M * V2.Y w + M33.x12 M
                <= V2.Y (V2Set.Max v))).
  { intros w Hw. cbv zeta.
    exact (@V2Set_Min_Max_bound _ _ (in_map (M33.MulPosition M) _ _ Hw)). }
  pose proof (Hg w1 Hw1) as G1. pose proof (Hg W1 HW1) as G2.
  pose proof (Hg w2 Hw2) as G3. pose proof (Hg W2 HW2) as G4.
  cbv zeta in G1, G2, G3, G4.
  set (v := map (M33.MulPosition M) (Box2.Vertices b)) in *.
  unfold Box2.Contains, M33.MulPosition. cbn [Box2.Min Box2.Max V2.X V2.Y]. lra.
Qed.

Lemma M44_MulBox_Contains (M : M44) (b : Box3) (q : V3) :
  Box3.Contains b q -> Box3.Contains (M44.MulBox M b) (M44.MulPosition M q).
Proof.
  intros Hq. unfold M44.MulBox, M44.MulVertices. cbv zeta.
  destruct (affine_on_box (M44.x00 M) (M44.x01 M) (M44.x02 M) Hq)
    as [w1 [W1 [Hw1 [HW1 B1]]]].
  destruct (affine_on_box (M44.x10 M) (M44.x11 M) (M44.x12 M) Hq)
    as [w2 [W2 [Hw2 [HW2 B2]]]].
  destruct (affine_on_box (M44.x20 M) (M44.x21 M) (M44.x22 M) Hq)
    as [w3 [W3 [Hw3 [HW3 B3]]]].
  assert (Hg : forall w, In w (Box3.Vertices b) ->
               let v := map (M44.MulPosition M) (Box3.Vertices b) in
               (V3.X (V3Set.Min v)
                <= M44.x00 M * V3.X w + M44.x01 M * V3.Y w + M44.x02 M * V3.Z w
                   + M44.x03 M
                <= V3.X (V3Set.Max v)) /\
               (V3.Y (V3Set.Min v)
                <= M44.x10 M * V3.X w + M44.x11 M * V3.Y w + M44.x12 M * V3.Z w
                   + M44.x13 M
                <= V3.Y (V3Set.Max v)) /\
               (V3.Z (V3Set.Min v)
                <= M44.x20 M * V3.X w + M44.x21 M * V3.Y w + M44.x22 M * V3.Z w
                   + M44.x23 M
                <= V3.Z (V3Set.Max v))).
  { intros w Hw. cbv zeta.
    exact (@V3Set_Min_Max_bound _ _ (in_map (M44.MulPosition M) _ _ Hw)). }
  pose proof (Hg w1 Hw1) as G1. pose proof (Hg W1 HW1) as G2.
  pose proof (Hg w2 Hw2) as G3. pose proof (Hg W2 HW2) as G4.
  pose proof (Hg w3 Hw3) as G5. pose proof (Hg W3 HW3) as G6.
  cbv zeta in G1, G2, G3, G4, G5, G6.
  set (v := map (M44.MulPosition M) (Box3.Vertices b)) in *.
  unfold Box3.Contains, M44.MulPosition. cbn [Box3.Min Box3.Max V3.X V3.Y V3.Z]. lra.
Qed.

Lemma M33_MulPosition_Inverse (M : M33) (p : V2) :
  M33.Determinant M <> 0 ->
  M33.MulPosition M (M33.MulPosition (M33.Inverse M) p) = p.
Proof.
  destruct M as [a00 a01 a02 a10 a11 a12], p as [x y].
  unfold M33.Determinant, M33.Inverse, M33.MulPosition, M33.Determinant.
  cbn. intros Hdet. f_equal; field; exact Hdet.
Qed.

Lemma M44_MulPosition_Inverse (M : M44) (p : V3) :
  M44.Determinant M <> 0 ->
  M44.MulPosition M (M44.MulPosition (M44.Inverse M) p) = p.
Proof.
  destruct M as [a00 a01 a02 a03 a10 a11 a12 a13 a20 a21 a22 a23], p as [x y z].
  unfold M44.Determinant, M44.Inverse, M44.MulPosition, M44.Determinant.
  cbn. intros Hdet. f_equal; field; exact Hdet.
Qed.

(** X18: a transform by an invertible matrix keeps a box sound: if the
    child's box is sound, the box that [MulBox] makes from the transformed
    vertices of the child's box holds every point at which the transform
    node is [<= 0].  In 2D and in 3D; the matrix may rotate, scale, shear,
    mirror and move. *)
Theorem Transform_Sound :
  (forall (S : SDF2) (M : M33),
      M33.Determinant M <> 0 -> Sound2 S -> Sound2 (NewTransformSDF2 S M))
  /\
  (forall (S : SDF3) (M : M44),
      M44.Determinant M <> 0 -> Sound3 S -> Sound3 (NewTransformSDF3 S M)).
Proof.
  split.
  - intros S M Hdet HS p Hp.
    cbn [SDF2.Evaluate NewTransformSDF2 TransformSDF2.iface] in Hp.
    unfold TransformSDF2.Evaluate in Hp.
    cbn [TransformSDF2.sdf TransformSDF2.inverse] in Hp.
    apply HS in Hp. apply (M33_MulBox_Contains M) in Hp.
    rewrite M33_MulPosition_Inverse in Hp by exact Hdet. exact Hp.
  - intros S M Hdet HS p Hp.
    cbn [SDF3.Evaluate NewTransformSDF3 TransformSDF3.iface] in Hp.
    unfold TransformSDF3.Evaluate in Hp.
    cbn [TransformSDF3.sdf TransformSDF3.inverse] in Hp.
    apply HS in Hp. apply (M44_MulBox_Contains M) in Hp.
    rewrite M44_MulPosition_Inverse in Hp by exact Hdet. exact Hp.
Qed.

(** The unit circle and the unit sphere, scaled by 2 and moved. *)
Lemma Transform_Sound_witness :
  Sound2 (NewTransformSDF2 (Circle2D 1) (M33.mk 2 0 1 0 2 2)) /\
  Sound3 (NewTransformSDF3 (NewSphereSDF3 1) (M44.mk 2 0 0 1 0 2 0 2 0 0 2 3)).
Proof.
  split.
  - apply (proj1 Transform_Sound); [exact M33_example_det | apply Circle2D_Sphere_Sound].
  - apply (proj2 Transform_Sound); [exact M44_example_det | apply Circle2D_Sphere_Sound].
Defined.

(** ** Rotate: the copies and the box *)

Lemma M33_MulPosition_Mul (a b : M33) (p : V2) :
  M33.MulPosition (M33.Mul a b) p = M33.MulPosition a (M33.MulPosition b p).
Proof.
  destruct a, b, p. unfold M33.MulPosition, M33.Mul. cbn. f_equal; ring.
Qed.

Lemma M33_MulPosition_Identity (p : V2) : M33.MulPosition Identity2d p = p.
Proof. destruct p. unfold M33.MulPosition, Identity2d. cbn. f_equal; ring. Qed.

Lemma iter_inverse {A : Type} (f g : A -> A) (i : nat) (x : A) :
  (forall y, g (f y) = y) -> Nat.iter i g (Nat.iter i f x) = x.
Proof.
  intros H. induction i as [ | i IH ]; [reflexivity | ].
  change (Nat.iter (S i) f x) with (f (Nat.iter i f x)).
  rewrite Nat.iter_succ_r, H. exact IH.
Qed.

(** The matrix [rot] of the loop of [Evaluate] after [i] turns applies the
    step of the node [i] times. *)
Lemma RotateSDF2_rot (stp : M33) (i : nat) (p : V2) :
  M33.MulPosition (Nat.iter i (fun r => M33.Mul r stp) Identity2d) p
  = Nat.iter i (M33.MulPosition stp) p.
Proof.
  revert p. induction i as [ | i IH ]; intros p.
  - apply M33_MulPosition_Identity.
  - change (Nat.iter (S i) (fun r => M33.Mul r stp) Identity2d)
      with (M33.Mul (Nat.iter i (fun r => M33.Mul r stp) Identity2d) stp).
    rewrite Nat.iter_succ_r, M33_MulPosition_Mul. apply IH.
Qed.

(** The loop of [Evaluate] accumulates the minimum over the copies. *)
Lemma RotateSDF2_Evaluate_copies (S : SDF2) (num : Z) (stp : M33) (bb : Box2) (p : V2) :
  RotateSDF2.Evaluate (RotateSDF2.mk S num stp NormalMin 0 bb) p
  = fold_left
      (fun d i => Rmin d (SDF2.Evaluate S (Nat.iter i (M33.MulPosition stp) p)))
      (seq 0 (Z.to_nat num)) MaxFloat64.
Proof.
  unfold RotateSDF2.Evaluate, NormalMin, Min, Range.
  cbn [RotateSDF2.sdf RotateSDF2.num RotateSDF2.step RotateSDF2.min RotateSDF2.k].
  set (f := fun (st : float64 * M33) (_ : Z) =>
              let (d, rot) := st in
              (Rmin d (SDF2.Evaluate S (M33.MulPosition rot p)), M33.Mul rot stp)).
  set (g := fun d i => Rmin d (SDF2.Evaluate S (Nat.iter i (M33.MulPosition stp) p))).
  assert (H : forall k : nat,
             fold_left f (map Z.of_nat (seq 0 k)) (MaxFloat64, Identity2d)
             = (fold_left g (seq 0 k) MaxFloat64,
                Nat.iter k (fun r => M33.Mul r stp) Identity2d)).
  { induction k as [ | k IH ]; [reflexivity | ].
    rewrite seq_S, map_app, !fold_left_app, IH. cbn [map fold_left Nat.add].
    unfold f at 1, g at 1. rewrite RotateSDF2_rot. reflexivity. }
  rewrite H. reflexivity.
Qed.

Lemma NewRotateSDF2_Some (S : SDF2) (num : Z) (step : M33) (a : SDF2) :
  NewRotateSDF2 S num step = Some a ->
  (0 < num)%Z /\
  exists bb, a = RotateSDF2.iface (RotateSDF2.mk S num (M33.Inverse step) NormalMin 0 bb).
Proof.
  unfold NewRotateSDF2. destruct (num <=? 0)%Z eqn:E; [discriminate | ].
  apply Z.leb_gt in E. cbv zeta.
  destruct (fold_left _ _ _) as [[mn mx] v]. intros H. inversion H.
  split; [exact E | ]. eexists. reflexivity.
Qed.

Lemma RotateSDF2_le_copy
    (S : SDF2) (num : Z) (stp : M33) (bb : Box2) (p : V2) (i : nat) :
  (Z.of_nat i < num)%Z ->
  RotateSDF2.Evaluate (RotateSDF2.mk S num stp NormalMin 0 bb) p
  <= SDF2.Evaluate S (Nat.iter i (M33.MulPosition stp) p).
Proof.
  intros Hi. rewrite RotateSDF2_Evaluate_copies.
  set (g := fun i => SDF2.Evaluate S (Nat.iter i (M33.MulPosition stp) p)).
  apply (proj2 (fold_min_le g (seq 0 (Z.to_nat num)) MaxFloat64) i).
  apply in_seq. lia.
Qed.

Lemma RotateSDF2_inside_copy
    (S : SDF2) (num : Z) (stp : M33) (bb : Box2) (p : V2) :
  RotateSDF2.Evaluate (RotateSDF2.mk S num stp NormalMin 0 bb) p <= 0 ->
  exists i : nat,
    (Z.of_nat i < num)%Z /\
    SDF2.Evaluate S (Nat.iter i (M33.MulPosition stp) p) <= 0.
Proof.
  rewrite RotateSDF2_Evaluate_copies.
  set (g := fun i => SDF2.Evaluate S (Nat.iter i (M33.MulPosition stp) p)).
  intros H.
  destruct (fold_min_attained g (seq 0 (Z.to_nat num)) MaxFloat64)
    as [E | [i [Hin E]]]; unfold g in E; cbv beta in E; rewrite E in H.
  - pose proof MaxFloat64_pos. lra.
  - apply in_seq in Hin. exists i. split; [lia | exact H].
Qed.

(** X19: a rotate node is the union of [num] copies of its child: the child
    itself, the child moved by [step], by [step] twice, and so on.  For an
    invertible [step]: a point of the child, moved [i < num] times by
    [step], is at a distance that is at most the child's at the point; and
    the node is [<= 0] at [p] exactly when [p] is a point [q] of the child
    moved [i < num] times by [step]. *)
Theorem Rotate2D_is_union_of_copies
    (S : SDF2) (num : Z) (step : M33) (a : SDF2) :
  M33.Determinant step <> 0 ->
  NewRotateSDF2 S num step = Some a ->
  (forall (i : nat) (q : V2),
      (Z.of_nat i < num)%Z ->
      SDF2.Evaluate a (Nat.iter i (M33.MulPosition step) q) <= SDF2.Evaluate S q)
  /\
  (forall p : V2,
      SDF2.Evaluate a p <= 0
      <-> exists (i : nat) (q : V2),
            (Z.of_nat i < num)%Z /\ p = Nat.iter i (M33.MulPosition step) q /\
            SDF2.Evaluate S q <= 0).
Proof.
  intros Hdet E. apply NewRotateSDF2_Some in E. destruct E as [Hnum [bb ->]].
  cbn [SDF2.Evaluate RotateSDF2.iface].
  assert (Hle : forall (i : nat) (q : V2),
             (Z.of_nat i < num)%Z ->
             RotateSDF2.Evaluate (RotateSDF2.mk S num (M33.Inverse step) NormalMin 0 bb)
               (Nat.iter i (M33.MulPosition step) q)
             <= SDF2.Evaluate S q).
  { intros i q Hi.
    pose proof (@RotateSDF2_le_copy S num (M33.Inverse step) bb
                  (Nat.iter i (M33.MulPosition step) q) i Hi) as H.
    rewrite iter_inverse in H; [exact H | ].
    intros y. apply M33_Inverse_MulPosition. exact Hdet. }
  split; [exact Hle | ].
  intros p. split.
  - intros H. apply RotateSDF2_inside_copy in H. destruct H as [i [Hi H]].
    exists i, (Nat.iter i (M33.MulPosition (M33.Inverse step)) p).
    split; [exact Hi | ]. split; [ | exact H ].
    symmetry. apply iter_inverse.
    intros y. apply M33_MulPosition_Inverse. exact Hdet.
  - intros [i [q [Hi [-> Hq]]]]. specialize (Hle i q Hi). lra.
Qed.

(** The unit circle, three times, two apart along the X axis. *)
Lemma Rotate2D_is_union_of_copies_witness :
  exists a : SDF2,
    NewRotateSDF2 (Circle2D 1) 3 (M33.mk 1 0 2 0 1 0) = Some a /\
    SDF2.Evaluate a (Nat.iter 2 (M33.MulPosition (M33.mk 1 0 2 0 1 0)) (V2.mk 0 0))
    <= SDF2.Evaluate (Circle2D 1) (V2.mk 0 0).
Proof.
  destruct (NewRotateSDF2 (Circle2D 1) 3 (M33.mk 1 0 2 0 1 0)) as [a | ] eqn:E.
  - exists a. split; [reflexivity | ].
    apply (@Rotate2D_is_union_of_copies (Circle2D 1) 3 (M33.mk 1 0 2 0 1 0) a).
    + unfold M33.Determinant. cbn. lra.
    + exact E.
    + lia.
  - exfalso. unfold NewRotateSDF2 in E. cbn [Z.leb Z.compare] in E. cbv zeta in E.
    destruct (fold_left _ _ _) as [[mn mx] v]. discriminate.
Defined.

Lemma iter_MulPosition_matrix (step : M33) (i : nat) :
  exists M : M33, forall p, Nat.iter i (M33.MulPosition step) p = M33.MulPosition M p.
Proof.
  induction i as [ | i [M IH] ].
  - exists Identity2d. intros p. symmetry. apply M33_MulPosition_Identity.
  - exists (M33.Mul step M). intros p.
    change (Nat.iter (S i) (M33.MulPosition step) p)
      with (M33.MulPosition step (Nat.iter i (M33.MulPosition step) p)).
    rewrite IH, M33_MulPosition_Mul. reflexivity.
Qed.

(** The loop of [NewRotateSDF2] that works out the box: after [k] turns the
    vertices have been moved [k] times by [step], and the two corners bound
    the vertices of every copy so far. *)
Lemma NewRotateSDF2_box_loop (V0 : V2Set) (step : M33) (v0 : V2) (k : nat) :
  let st :=
    fold_left
      (fun (st : V2 * V2 * V2Set) (_ : Z) =>
         let '(bb_min, bb_max, v) := st in
         (V2.Min bb_min (V2Set.Min v), V2.Max bb_max (V2Set.Max v),
          M33.MulVertices v step))
      (Range (Z.of_nat k)) (v0, v0, V0) in
  snd st = map (Nat.iter k (M33.MulPosition step)) V0 /\
  forall i : nat, (i < k)%nat ->
    let vi := map (Nat.iter i (M33.MulPosition step)) V0 in
    V2.X (fst (fst st)) <= V2.X (V2Set.Min vi) /\
    V2.Y (fst (fst st)) <= V2.Y (V2Set.Min vi) /\
    V2.X (V2Set.Max vi) <= V2.X (snd (fst st)) /\
    V2.Y (V2Set.Max vi) <= V2.Y (snd (fst st)).
Proof.
  cbv zeta. induction k as [ | k IH ].
  - split; [ | intros i Hi; lia ].
    cbn. rewrite <- (map_id V0) at 1. apply map_ext. reflexivity.
  - rewrite Range_S, fold_left_app. cbn [fold_left].
    destruct (fold_left _ (Range (Z.of_nat k)) _) as [[mn mx] v].
    cbn [fst snd] in *. destruct IH as [Ev IH]. split.
    + unfold M33.MulVertices. rewrite Ev, map_map. apply map_ext. reflexivity.
    + intros i Hi.
      change (V2.X (V2.Min mn (V2Set.Min v))) with (Rmin (V2.X mn) (V2.X (V2Set.Min v))).
      change (V2.Y (V2.Min mn (V2Set.Min v))) with (Rmin (V2.Y mn) (V2.Y (V2Set.Min v))).
      change (V2.X (V2.Max mx (V2Set.Max v))) with (Rmax (V2.X mx) (V2.X (V2Set.Max v))).
      change (V2.Y (V2.Max mx (V2Set.Max v))) with (Rmax (V2.Y mx) (V2.Y (V2Set.Max v))).
      pose proof (Rmin_l (V2.X mn) (V2.X (V2Set.Min v))).
      pose proof (Rmin_r (V2.X mn) (V2.X (V2Set.Min v))).
      pose proof (Rmin_l (V2.Y mn) (V2.Y (V2Set.Min v))).
      pose proof (Rmin_r (V2.Y mn) (V2.Y (V2Set.Min v))).
      pose proof (Rmax_l (V2.X mx) (V2.X (V2Set.Max v))).
      pose proof (Rmax_r (V2.X mx) (V2.X (V2Set.Max v))).
      pose proof (Rmax_l (V2.Y mx) (V2.Y (V2Set.Max v))).
      pose proof (Rmax_r (V2.Y mx) (V2.Y (V2Set.Max v))).
      destruct (Nat.eq_dec i k) as [-> | Hne].
      * rewrite <- Ev. lra.
      * specialize (IH i ltac:(lia)). lra.
Qed.

(** X20: a rotate node of a child with a sound box has a sound box, for an
    invertible [step]: the box that the constructor works out from the
    vertices of the child's box, moved again and again by [step], holds
    every point at which the node is [<= 0]. *)
Theorem Rotate2D_Sound (S : SDF2) (num : Z) (step : M33) (a : SDF2) :
  M33.Determinant step <> 0 -> Sound2 S ->
  NewRotateSDF2 S num step = Some a -> Sound2 a.
Proof.
  intros Hdet HS E. unfold NewRotateSDF2 in E.
  destruct (num <=? 0)%Z eqn:En; [discriminate | ]. apply Z.leb_gt in En.
  cbv zeta in E.
  pose proof (NewRotateSDF2_box_loop (Box2.Vertices (SDF2.BoundingBox S)) step
                (index (Box2.Vertices (SDF2.BoundingBox S)) 0 (V2.mk 0 0))
                (Z.to_nat num)) as Hloop.
  cbv zeta in Hloop. rewrite Z2Nat.id in Hloop by lia.
  destruct (fold_left _ (Range num) _) as [[mn mx] v].
  cbn [fst snd] in Hloop. destruct Hloop as [_ Hloop].
  inversion E; subst a; clear E.
  intros p Hp. cbn [SDF2.Evaluate RotateSDF2.iface] in Hp.
  apply RotateSDF2_inside_copy in Hp. destruct Hp as [i [Hi Hc]].
  apply HS in Hc.
  destruct (iter_MulPosition_matrix step i) as [M HM].
  apply (M33_MulBox_Contains M) in Hc.
  rewrite <- HM in Hc. rewrite iter_inverse in Hc
    by (intros y; apply M33_MulPosition_Inverse; exact Hdet).
  unfold M33.MulBox, M33.MulVertices in Hc. cbv zeta in Hc.
  rewrite <- (map_ext _ _ HM) in Hc.
  specialize (Hloop i ltac:(lia)). cbv zeta in Hloop.
  unfold Box2.Contains in *.
  cbn [SDF2.BoundingBox RotateSDF2.iface RotateSDF2.BoundingBox RotateSDF2.bb
       Box2.Min Box2.Max] in *.
  lra.
Qed.

(** The unit circle, three times, two apart along the X axis. *)
Lemma Rotate2D_Sound_witness :
  exists a : SDF2,
    NewRotateSDF2 (Circle2D 1) 3 (M33.mk 1 0 2 0 1 0) = Some a /\ Sound2 a.
Proof.
  destruct (NewRotateSDF2 (Circle2D 1) 3 (M33.mk 1 0 2 0 1 0)) as [a | ] eqn:E.
  - exists a. split; [reflexivity | ].
    apply (@Rotate2D_Sound (Circle2D 1) 3 (M33.mk 1 0 2 0 1 0) a).
    + unfold M33.Determinant. cbn. lra.
    + apply Circle2D_Sphere_Sound.
    + exact E.
  - exfalso. unfold NewRotateSDF2 in E. cbn [Z.leb Z.compare] in E. cbv zeta in E.
    destruct (fold_left _ _ _) as [[mn mx] v]. discriminate.
Defined.

(** ** Rotate in 3D *)

Lemma M44_MulPosition_Mul (a b : M44) (p : V3) :
  M44.MulPosition (M44.Mul a b) p = M44.MulPosition a (M44.MulPosition b p).
Proof.
  destruct a, b, p. unfold M44.MulPosition, M44.Mul. cbn. f_equal; ring.
Qed.

Lemma M44_MulPosition_Identity (p : V3) : M44.MulPosition Identity3d p = p.
Proof. destruct p. unfold M44.MulPosition, Identity3d. cbn. f_equal; ring. Qed.

(** The matrix [rot] of the loop of [Evaluate] after [i] turns applies the
    step of the node [i] times. *)
Lemma RotateSDF3_rot (stp : M44) (i : nat) (p : V3) :
  M44.MulPosition (Nat.iter i (fun r => M44.Mul r stp) Identity3d) p
  = Nat.iter i (M44.MulPosition stp) p.
Proof.
  revert p. induction i as [ | i IH ]; intros p.
  - apply M44_MulPosition_Identity.
  - change (Nat.iter (S i) (fun r => M44.Mul r stp) Identity3d)
      with (M44.Mul (Nat.iter i (fun r => M44.Mul r stp) Identity3d) stp).
    rewrite Nat.iter_succ_r, M44_MulPosition_Mul. apply IH.
Qed.

(** The loop of [Evaluate] accumulates the minimum over the copies. *)
Lemma RotateSDF3_Evaluate_copies (S : SDF3) (num : Z) (stp : M44) (bb : Box3) (p : V3) :
  RotateSDF3.Evaluate (RotateSDF3.mk S num stp NormalMin 0 bb) p
  = fold_left
      (fun d i => Rmin d (SDF3.Evaluate S (Nat.iter i (M44.MulPosition stp) p)))
      (seq 0 (Z.to_nat num)) MaxFloat64.
Proof.
  unfold RotateSDF3.Evaluate, NormalMin, Min, Range.
  cbn [RotateSDF3.sdf RotateSDF3.num RotateSDF3.step RotateSDF3.min RotateSDF3.k].
  set (f := fun (st : float64 * M44) (_ : Z) =>
              let (d, rot) := st in
              (Rmin d (SDF3.Evaluate S (M44.MulPosition rot p)), M44.Mul rot stp)).
  set (g := fun d i => Rmin d (SDF3.Evaluate S (Nat.iter i (M44.MulPosition stp) p))).
  assert (H : forall k : nat,
             fold_left f (map Z.of_nat (seq 0 k)) (MaxFloat64, Identity3d)
             = (fold_left g (seq 0 k) MaxFloat64,
                Nat.iter k (fun r => M44.Mul r stp) Identity3d)).
  { induction k as [ | k IH ]; [reflexivity | ].
    rewrite seq_S, map_app, !fold_left_app, IH. cbn [map fold_left Nat.add].
    unfold f at 1, g at 1. rewrite RotateSDF3_rot. reflexivity. }
  rewrite H. reflexivity.
Qed.

Lemma NewRotateSDF3_Some (S : SDF3) (num : Z) (step : M44) (a : SDF3) :
  NewRotateSDF3 S num step = Some a ->
  (0 < num)%Z /\
  exists bb, a = RotateSDF3.iface (RotateSDF3.mk S num (M44.Inverse step) NormalMin 0 bb).
Proof.
  unfold NewRotateSDF3. destruct (num <=? 0)%Z eqn:E; [discriminate | ].
  apply Z.leb_gt in E. cbv zeta.
  destruct (fold_left _ _ _) as [[mn mx] v]. intros H. inversion H.
  split; [exact E | ]. eexists. reflexivity.
Qed.

Lemma RotateSDF3_le_copy
    (S : SDF3) (num : Z) (stp : M44) (bb : Box3) (p : V3) (i : nat) :
  (Z.of_nat i < num)%Z ->
  RotateSDF3.Evaluate (RotateSDF3.mk S num stp NormalMin 0 bb) p
  <= SDF3.Evaluate S (Nat.iter i (M44.MulPosition stp) p).
Proof.
  intros Hi. rewrite RotateSDF3_Evaluate_copies.
  set (g := fun i => SDF3.Evaluate S (Nat.iter i (M44.MulPosition stp) p)).
  apply (proj2 (fold_min_le g (seq 0 (Z.to_nat num)) MaxFloat64) i).
  apply in_seq. lia.
Qed.

Lemma RotateSDF3_inside_copy
    (S : SDF3) (num : Z) (stp : M44) (bb : Box3) (p : V3) :
  RotateSDF3.Evaluate (RotateSDF3.mk S num stp NormalMin 0 bb) p <= 0 ->
  exists i : nat,
    (Z.of_nat i < num)%Z /\
    SDF3.Evaluate S (Nat.iter i (M44.MulPosition stp) p) <= 0.
Proof.
  rewrite RotateSDF3_Evaluate_copies.
  set (g := fun i => SDF3.Evaluate S (Nat.iter i (M44.MulPosition stp) p)).
  intros H.
  destruct (fold_min_attained g (seq 0 (Z.to_nat num)) MaxFloat64)
    as [E | [i [Hin E]]]; unfold g in E; cbv beta in E; rewrite E in H.
  - pose proof MaxFloat64_pos. lra.
  - apply in_seq in Hin. exists i. split; [lia | exact H].
Qed.

(** X21: a rotate node is the union of [num] copies of its child: the child
    itself, the child moved by [step], by [step] twice, and so on.  For an
    invertible [step]: a point of the child, moved [i < num] times by
    [step], is at a distance that is at most the child's at the point; and
    the node is [<= 0] at [p] exactly when [p] is a point [q] of the child
    moved [i < num] times by [step]. *)
Theorem Rotate3D_is_union_of_copies
    (S : SDF3) (num : Z) (step : M44) (a : SDF3) :
  M44.Determinant step <> 0 ->
  NewRotateSDF3 S num step = Some a ->
  (forall (i : nat) (q : V3),
      (Z.of_nat i < num)%Z ->
      SDF3.Evaluate a (Nat.iter i (M44.MulPosition step) q) <= SDF3.Evaluate S q)
  /\
  (forall p : V3,
      SDF3.Evaluate a p <= 0
      <-> exists (i : nat) (q : V3),
            (Z.of_nat i < num)%Z /\ p = Nat.iter i (M44.MulPosition step) q /\
            SDF3.Evaluate S q <= 0).
Proof.
  intros Hdet E. apply NewRotateSDF3_Some in E. destruct E as [Hnum [bb ->]].
  cbn [SDF3.Evaluate RotateSDF3.iface].
  assert (Hle : forall (i : nat) (q : V3),
             (Z.of_nat i < num)%Z ->
             RotateSDF3.Evaluate (RotateSDF3.mk S num (M44.Inverse step) NormalMin 0 bb)
               (Nat.iter i (M44.MulPosition step) q)
             <= SDF3.Evaluate S q).
  { intros i q Hi.
    pose proof (@RotateSDF3_le_copy S num (M44.Inverse step) bb
                  (Nat.iter i (M44.MulPosition step) q) i Hi) as H.
    rewrite iter_inverse in H; [exact H | ].
    intros y. apply M44_Inverse_MulPosition. exact Hdet. }
  split; [exact Hle | ].
  intros p. split.
  - intros H. apply RotateSDF3_inside_copy in H. destruct H as [i [Hi H]].
    exists i, (Nat.iter i (M44.MulPosition (M44.Inverse step)) p).
    split; [exact Hi | ]. split; [ | exact H ].
    symmetry. apply iter_inverse.
    intros y. apply M44_MulPosition_Inverse. exact Hdet.
  - intros [i [q [Hi [-> Hq]]]]. specialize (Hle i q Hi). lra.
Qed.

(** The unit sphere, three times, two apart along the X axis, in space. *)
Lemma Rotate3D_is_union_of_copies_witness :
  exists a : SDF3,
    NewRotateSDF3 (NewSphereSDF3 1) 3 (M44.mk 1 0 0 2 0 1 0 0 0 0 1 0) = Some a /\
    SDF3.Evaluate a (Nat.iter 2 (M44.MulPosition (M44.mk 1 0 0 2 0 1 0 0 0 0 1 0)) (V3.mk 0 0 0))
    <= SDF3.Evaluate (NewSphereSDF3 1) (V3.mk 0 0 0).
Proof.
  destruct (NewRotateSDF3 (NewSphereSDF3 1) 3 (M44.mk 1 0 0 2 0 1 0 0 0 0 1 0)) as [a | ] eqn:E.
  - exists a. split; [reflexivity | ].
    apply (@Rotate3D_is_union_of_copies (NewSphereSDF3 1) 3 (M44.mk 1 0 0 2 0 1 0 0 0 0 1 0) a).
    + unfold M44.Determinant. cbn. lra.
    + exact E.
    + lia.
  - exfalso. unfold NewRotateSDF3 in E. cbn [Z.leb Z.compare] in E. cbv zeta in E.
    destruct (fold_left _ _ _) as [[mn mx] v]. discriminate.
Defined.

Lemma iter_MulPosition_matrix3 (step : M44) (i : nat) :
  exists M : M44, forall p, Nat.iter i (M44.MulPosition step) p = M44.MulPosition M p.
Proof.
  induction i as [ | i [M IH] ].
  - exists Identity3d. intros p. symmetry. apply M44_MulPosition_Identity.
  - exists (M44.Mul step M). intros p.
    change (Nat.iter (S i) (M44.MulPosition step) p)
      with (M44.MulPosition step (Nat.iter i (M44.MulPosition step) p)).
    rewrite IH, M44_MulPosition_Mul. reflexivity.
Qed.

(** The loop of [NewRotateSDF3] that works out the box: after [k] turns the
    vertices have been moved [k] times by [step], and the two corners bound
    the vertices of every copy so far. *)
Lemma NewRotateSDF3_box_loop (V0 : V3Set) (step : M44) (v0 : V3) (k : nat) :
  let st :=
    fold_left
      (fun (st : V3 * V3 * V3Set) (_ : Z) =>
         let '(bb_min, bb_max, v) := st in
         (V3.Min bb_min (V3Set.Min v), V3.Max bb_max (V3Set.Max v),
          M44.MulVertices v step))
      (Range (Z.of_nat k)) (v0, v0, V0) in
  snd st = map (Nat.iter k (M44.MulPosition step)) V0 /\
  forall i : nat, (i < k)%nat ->
    let vi := map (Nat.iter i (M44.MulPosition step)) V0 in
    V3.X (fst (fst st)) <= V3.X (V3Set.Min vi) /\
    V3.Y (fst (fst st)) <= V3.Y (V3Set.Min vi) /\
    V3.Z (fst (fst st)) <= V3.Z (V3Set.Min vi) /\
    V3.X (V3Set.Max vi) <= V3.X (snd (fst st)) /\
    V3.Y (V3Set.Max vi) <= V3.Y (snd (fst st)) /\
    V3.Z (V3Set.Max vi) <= V3.Z (snd (fst st)).
Proof.
  cbv zeta. induction k as [ | k IH ].
  - split; [ | intros i Hi; lia ].
    cbn. rewrite <- (map_id V0) at 1. apply map_ext. reflexivity.
  - rewrite Range_S, fold_left_app. cbn [fold_left].
    destruct (fold_left _ (Range (Z.of_nat k)) _) as [[mn mx] v].
    cbn [fst snd] in *. destruct IH as [Ev IH]. split.
    + unfold M44.MulVertices. rewrite Ev, map_map. apply map_ext. reflexivity.
    + intros i Hi.
      change (V3.X (V3.Min mn (V3Set.Min v))) with (Rmin (V3.X mn) (V3.X (V3Set.Min v))).
      change (V3.Y (V3.Min mn (V3Set.Min v))) with (Rmin (V3.Y mn) (V3.Y (V3Set.Min v))).
      change (V3.Z (V3.Min mn (V3Set.Min v))) with (Rmin (V3.Z mn) (V3.Z (V3Set.Min v))).
      change (V3.X (V3.Max mx (V3Set.Max v))) with (Rmax (V3.X mx) (V3.X (V3Set.Max v))).
      change (V3.Y (V3.Max mx (V3Set.Max v))) with (Rmax (V3.Y mx) (V3.Y (V3Set.Max v))).
      change (V3.Z (V3.Max mx (V3Set.Max v))) with (Rmax (V3.Z mx) (V3.Z (V3Set.Max v))).
      pose proof (Rmin_l (V3.X mn) (V3.X (V3Set.Min v))).
      pose proof (Rmin_r (V3.X mn) (V3.X (V3Set.Min v))).
      pose proof (Rmin_l (V3.Y mn) (V3.Y (V3Set.Min v))).
      pose proof (Rmin_r (V3.Y mn) (V3.Y (V3Set.Min v))).
      pose proof (Rmin_l (V3.Z mn) (V3.Z (V3Set.Min v))).
      pose proof (Rmin_r (V3.Z mn) (V3.Z (V3Set.Min v))).
      pose proof (Rmax_l (V3.X mx) (V3.X (V3Set.Max v))).
      pose proof (Rmax_r (V3.X mx) (V3.X (V3Set.Max v))).
      pose proof (Rmax_l (V3.Y mx) (V3.Y (V3Set.Max v))).
      pose proof (Rmax_r (V3.Y mx) (V3.Y (V3Set.Max v))).
      pose proof (Rmax_l (V3.Z mx) (V3.Z (V3Set.Max v))).
      pose proof (Rmax_r (V3.Z mx) (V3.Z (V3Set.Max v))).
      destruct (Nat.eq_dec i k) as [-> | Hne].
      * rewrite <- Ev. lra.
      * specialize (IH i ltac:(lia)). lra.
Qed.

(** X22: a rotate node of a child with a sound box has a sound box, for an
    invertible [step]: the box that the constructor works out from the
    vertices of the child's box, moved again and again by [step], holds
    every point at which the node is [<= 0]. *)
Theorem Rotate3D_Sound (S : SDF3) (num : Z) (step : M44) (a : SDF3) :
  M44.Determinant step <> 0 -> Sound3 S ->
  NewRotateSDF3 S num step = Some a -> Sound3 a.
Proof.
  intros Hdet HS E. unfold NewRotateSDF3 in E.
  destruct (num <=? 0)%Z eqn:En; [discriminate | ]. apply Z.leb_gt in En.
  cbv zeta in E.
  pose proof (NewRotateSDF3_box_loop (Box3.Vertices (SDF3.BoundingBox S)) step
                (index (Box3.Vertices (SDF3.BoundingBox S)) 0 (V3.mk 0 0 0))
                (Z.to_nat num)) as Hloop.
  cbv zeta in Hloop. rewrite Z2Nat.id in Hloop by lia.
  destruct (fold_left _ (Range num) _) as [[mn mx] v].
  cbn [fst snd] in Hloop. destruct Hloop as [_ Hloop].
  inversion E; subst a; clear E.
  intros p Hp. cbn [SDF3.Evaluate RotateSDF3.iface] in Hp.
  apply RotateSDF3_inside_copy in Hp. destruct Hp as [i [Hi Hc]].
  apply HS in Hc.
  destruct (iter_MulPosition_matrix3 step i) as [M HM].
  apply (M44_MulBox_Contains M) in Hc.
  rewrite <- HM in Hc. rewrite iter_inverse in Hc
    by (intros y; apply M44_MulPosition_Inverse; exact Hdet).
  unfold M44.MulBox, M44.MulVertices in Hc. cbv zeta in Hc.
  rewrite <- (map_ext _ _ HM) in Hc.
  specialize (Hloop i ltac:(lia)). cbv zeta in Hloop.
  unfold Box3.Contains in *.
  cbn [SDF3.BoundingBox RotateSDF3.iface RotateSDF3.BoundingBox RotateSDF3.bb
       Box3.Min Box3.Max] in *.
  lra.
Qed.

(** The unit sphere, three times, two apart along the X axis, in space. *)
Lemma Rotate3D_Sound_witness :
  exists a : SDF3,
    NewRotateSDF3 (NewSphereSDF3 1) 3 (M44.mk 1 0 0 2 0 1 0 0 0 0 1 0) = Some a /\ Sound3 a.
Proof.
  destruct (NewRotateSDF3 (NewSphereSDF3 1) 3 (M44.mk 1 0 0 2 0 1 0 0 0 0 1 0)) as [a | ] eqn:E.
  - exists a. split; [reflexivity | ].
    apply (@Rotate3D_Sound (NewSphereSDF3 1) 3 (M44.mk 1 0 0 2 0 1 0 0 0 0 1 0) a).
    + unfold M44.Determinant. cbn. lra.
    + apply Circle2D_Sphere_Sound.
    + exact E.
  - exfalso. unfold NewRotateSDF3 in E. cbn [Z.leb Z.compare] in E. cbv zeta in E.
    destruct (fold_left _ _ _) as [[mn mx] v]. discriminate.
Defined.

(** ** Multiple circles and cylinders *)

Lemma fold_min_union {A : Type} (f : A -> R) (l : list A) :
  (forall x, In x l -> fold_left (fun d x => Rmin d (f x)) l MaxFloat64 <= f x) /\
  (fold_left (fun d x => Rmin d (f x)) l MaxFloat64 <= 0
   <-> exists x, In x l /\ f x <= 0).
Proof.
  split; [apply (proj2 (fold_min_le f l MaxFloat64)) | ]. split.
  - intros H. destruct (fold_min_attained f l MaxFloat64) as [E | [x [Hin E]]];
      rewrite E in H.
    + pose proof MaxFloat64_pos. lra.
    + exists x. split; assumption.
  - intros [x [Hin Hx]].
    pose proof (proj2 (fold_min_le f l MaxFloat64) x Hin). lra.
Qed.

(** X23: the multi-circle node is the union of circles of its radius around
    its positions, and the multi-cylinder node is the union of cylinders
    (not rounded) of its height and radius around its positions: the
    distance is at most the single shape's at the point moved back by any
    position, and it is [<= 0] exactly when some position's shape is. *)
Theorem Multi_is_union :
  (forall (radius : float64) (positions : V2Set) (p : V2),
      let one c := SDF2.Evaluate (Circle2D radius) (V2.Sub p c) in
      (forall c, In c positions ->
                 SDF2.Evaluate (NewMultiCircleSDF2 radius positions) p <= one c) /\
      (SDF2.Evaluate (NewMultiCircleSDF2 radius positions) p <= 0
       <-> exists c, In c positions /\ one c <= 0))
  /\
  (forall (height radius : float64) (positions : V2Set) (p : V3),
      let one c :=
        SDF3.Evaluate (NewCylinderSDF3 height radius 0)
          (V3.mk (V3.X p - V2.X c) (V3.Y p - V2.Y c) (V3.Z p)) in
      (forall c, In c positions ->
                 SDF3.Evaluate (NewMultiCylinderSDF3 height radius positions) p
                 <= one c) /\
      (SDF3.Evaluate (NewMultiCylinderSDF3 height radius positions) p <= 0
       <-> exists c, In c positions /\ one c <= 0)).
Proof.
  split.
  - intros radius positions p one.
    apply (fold_min_union one positions).
  - intros height radius positions p one.
    assert (E : forall c,
               one c
               = sdf_box2d
                   (V2.mk (V2.Length (V2.Sub (V2.mk (V3.X p) (V3.Y p)) c)) (V3.Z p))
                   (V2.mk radius (height / 2))).
    { intros c. unfold one. cbn [SDF3.Evaluate NewCylinderSDF3 CylinderSDF3.iface].
      unfold CylinderSDF3.Evaluate.
      cbn [CylinderSDF3.radius CylinderSDF3.height CylinderSDF3.round V3.X V3.Y V3.Z].
      unfold V2.Sub. cbn [V2.X V2.Y].
      replace (radius - 0) with radius by ring.
      replace (height / 2 - 0) with (height / 2) by ring. ring. }
    pose proof (fold_min_union one positions) as [H1 H2].
    cbn [SDF3.Evaluate NewMultiCylinderSDF3 MultiCylinderSDF3.iface].
    unfold MultiCylinderSDF3.Evaluate, Min.
    cbn [MultiCylinderSDF3.radius MultiCylinderSDF3.height MultiCylinderSDF3.positions].
    rewrite (fold_left_eq _ (fun d x => Rmin d (one x)) positions MaxFloat64)
      by (intros d x; rewrite E; reflexivity).
    split; assumption.
Qed.

(** ** 3MF: the sizes of the tables and the range of the indices *)

Lemma fill_length (entries : VertexMap.t) :
  forall out out' : list ThreeMFVertex,
    fold_left fill_step entries (Some out) = Some out' -> length out' = length out.
Proof.
  induction entries as [ | [w j] r IH ]; intros out out' Hf.
  - cbn in Hf. inversion Hf. reflexivity.
  - cbn [fold_left fill_step] in Hf.
    destruct (store out j (ThreeMFVertex.mk (V3.X w) (V3.Y w) (V3.Z w)))
      as [out1 | ] eqn:Es; [ | rewrite fill_None in Hf; discriminate ].
    apply store_inv in Es. destruct Es as [_ ->].
    rewrite (IH _ _ Hf). apply update_length.
Qed.

(** The map has one key for each position of the mesh. *)
Lemma build_length (l : list V3) :
  length (build l) = length (nodup V3_eq_dec l).
Proof.
  pose proof (build_keys_NoDup l) as Hk.
  pose proof (proj1 (build_invariant l)) as Hin.
  replace (length (build l)) with (length (keys (build l)))
    by (unfold keys; apply length_map).
  apply Nat.le_antisymm; apply NoDup_incl_length.
  - exact Hk.
  - intros v Hv. apply nodup_In. apply Hin. exact Hv.
  - apply NoDup_nodup.
  - intros v Hv. apply Hin. apply nodup_In in Hv. exact Hv.
Qed.

(** X24: when [Save3MF] returns, the triangle table has one entry for each
    triangle of the mesh, the vertex table has one entry for each position
    that occurs in the mesh (however often it occurs), and every index in
    the triangle table is an index of the vertex table. *)
Theorem Save3MF_tables
    (mesh : list Triangle3) (vs : list ThreeMFVertex) (ts : list ThreeMFTriangle) :
  Save3MF mesh = Some (vs, ts) ->
  length ts = length mesh /\
  length vs = length (nodup V3_eq_dec (mesh_vertices mesh)) /\
  forall o, In o ts ->
    (0 <= ThreeMFTriangle.V1 o < len vs)%Z /\
    (0 <= ThreeMFTriangle.V2 o < len vs)%Z /\
    (0 <= ThreeMFTriangle.V3 o < len vs)%Z.
Proof.
  intros Hs.
  assert (HB : InBounds (build (mesh_vertices mesh))).
  { apply Save3MF_InBounds. rewrite Hs. discriminate. }
  unfold Save3MF in Hs.
  destruct (outputVertices (dedupe mesh)) as [vs' | ] eqn:Ev; [ | discriminate ].
  inversion Hs; subst vs' ts; clear Hs.
  rewrite dedupe_build in *. set (l := mesh_vertices mesh) in *.
  unfold outputVertices in Ev. apply fill_length in Ev. rewrite repeat_length in Ev.
  split; [apply length_map | ]. split; [rewrite Ev; apply build_length | ].
  intros o Ho. unfold outputTriangles in Ho. apply in_map_iff in Ho.
  destruct Ho as [t [<- Ht]]. cbn [ThreeMFTriangle.V1 ThreeMFTriangle.V2 ThreeMFTriangle.V3].
  assert (Hc : forall v, In v l ->
               (0 <= VertexMap.get (build l) v < len vs)%Z).
  { intros v Hv. apply mem_build, mem_In_get in Hv. apply HB in Hv.
    unfold len, VertexMap.len in *. rewrite Ev. exact Hv. }
  repeat split; apply Hc; apply In_mesh_vertices; exists t; tauto.
Qed.

(** The square cut into two triangles along a diagonal: 4 positions,
    6 corners. *)
Lemma Save3MF_tables_witness :
  exists vs ts,
    Save3MF [Triangle3.mk (V3.mk 0 0 0) (V3.mk 1 0 0) (V3.mk 1 1 0);
             Triangle3.mk (V3.mk 0 0 0) (V3.mk 1 1 0) (V3.mk 0 1 0)] = Some (vs, ts) /\
    length ts = 2%nat.
Proof.
  destruct (Save3MF [Triangle3.mk (V3.mk 0 0 0) (V3.mk 1 0 0) (V3.mk 1 1 0);
                     Triangle3.mk (V3.mk 0 0 0) (V3.mk 1 1 0) (V3.mk 0 1 0)])
    as [[vs ts] | ] eqn:E.
  - exists vs, ts. split; [reflexivity | ].
    apply (Save3MF_tables _ E).
  - exfalso. apply Save3MF_None_iff in E. destruct E as [l [v [E Hin]]].
    cbn in E.
    change [V3.mk 0 0 0; V3.mk 1 0 0; V3.mk 1 1 0; V3.mk 0 0 0; V3.mk 1 1 0; V3.mk 0 1 0]
      with ([V3.mk 0 0 0; V3.mk 1 0 0; V3.mk 1 1 0; V3.mk 0 0 0; V3.mk 1 1 0]
              ++ [V3.mk 0 1 0]) in E.
    apply app_inj_tail in E. destruct E as [<- <-].
    cbn in Hin.
    destruct Hin as [H | [H | [H | [H | [H | []]]]]]; inversion H; lra.
Defined.

(** ** Slicing an extrusion *)

Lemma sqrt_1_0_0 : sqrt (1 * 1 + 0 * 0 + 0 * 0) = 1.
Proof. replace (1 * 1 + 0 * 0 + 0 * 0) with 1 by ring. apply sqrt_1. Qed.

(** A horizontal plane at the height [z0]: [Slice2D] evaluates the solid at
    [(x, y, z0)]. *)
Lemma Slice2D_horizontal (sdf : SDF3) (z0 : float64) (p : V2) :
  SDF2.Evaluate (Slice2D sdf (V3.mk 0 0 z0) (V3.mk 0 0 1)) p
  = SDF3.Evaluate sdf (V3.mk (V2.X p) (V2.Y p) z0).
Proof.
  unfold Slice2D. cbv zeta. cbn [V3.X V3.Y V3.Z].
  rewrite (@eqb_true 0 0) by reflexivity.
  cbn [SDF2.Evaluate SliceSDF2.iface]. unfold SliceSDF2.Evaluate.
  cbn [SliceSDF2.sdf SliceSDF2.a SliceSDF2.u SliceSDF2.v].
  f_equal.
  unfold V3.Normalize, V3.Cross, V3.Length. cbn [V3.X V3.Y V3.Z].
  replace (0 * 0 - 1 * 0) with 0 by ring.
  replace (1 * 1 - 0 * 0) with 1 by ring.
  replace (0 * 0 - 0 * 1) with 0 by ring.
  replace (0 * 0 + 1 * 1 + 0 * 0) with (1 * 1 + 0 * 0 + 0 * 0) by ring.
  rewrite sqrt_1_0_0, (@eqb_false 1 0) by lra.
  unfold V3.Add, V3.MulScalar. cbn [V3.X V3.Y V3.Z].
  f_equal; field.
Qed.

(** X25: an extrusion cut by a horizontal plane at the height [z0] is the
    profile, cut off by the slab term [max(-z0, z0 - h)]; for a height
    between 0 and [h] the slice is [<= 0] exactly where the profile is. *)
Theorem Slice2D_of_Extrude (S : SDF2) (h z0 : float64) :
  (forall p : V2,
      SDF2.Evaluate (Slice2D (NewExtrudeSDF3 S h) (V3.mk 0 0 z0) (V3.mk 0 0 1)) p
      = Rmax (SDF2.Evaluate S p) (Rmax (- z0) (z0 - h)))
  /\
  (0 <= z0 <= h ->
   forall p : V2,
     SDF2.Evaluate (Slice2D (NewExtrudeSDF3 S h) (V3.mk 0 0 z0) (V3.mk 0 0 1)) p <= 0
     <-> SDF2.Evaluate S p <= 0).
Proof.
  assert (E : forall p : V2,
             SDF2.Evaluate (Slice2D (NewExtrudeSDF3 S h) (V3.mk 0 0 z0) (V3.mk 0 0 1)) p
             = Rmax (SDF2.Evaluate S p) (Rmax (- z0) (z0 - h))).
  { intros [x y]. rewrite Slice2D_horizontal.
    cbn [SDF3.Evaluate NewExtrudeSDF3 ExtrudeSDF3.iface].
    unfold ExtrudeSDF3.Evaluate, Max.
    cbn [ExtrudeSDF3.sdf ExtrudeSDF3.height V3.X V3.Y V3.Z V2.X V2.Y]. reflexivity. }
  split; [exact E | ].
  intros Hz p. rewrite E.
  assert (Hslab : Rmax (- z0) (z0 - h) <= 0) by (apply Rmax_lub; lra).
  split.
  - intros H. apply Rmax_le_0 in H. tauto.
  - intros H. apply Rmax_lub; assumption.
Qed.

(** The unit circle extruded to the height 2 and cut at the height 1, at the
    centre. *)
Lemma Slice2D_of_Extrude_witness :
  SDF2.Evaluate (Slice2D (NewExtrudeSDF3 (Circle2D 1) 2) (V3.mk 0 0 1) (V3.mk 0 0 1))
    (V2.mk 0 0) <= 0
  <-> SDF2.Evaluate (Circle2D 1) (V2.mk 0 0) <= 0.
Proof.
  apply (proj2 (Slice2D_of_Extrude (Circle2D 1) 2 1)). lra.
Defined.

(** ** Solid of revolution: the angle *)

Lemma Mod_add_period (x y : float64) : 0 <= x -> 0 < y -> Mod (x + y) y = Mod x y.
Proof.
  intros Hx Hy. unfold Mod, Trunc.
  assert (Hq : 0 <= x / y).
  { apply Rmult_le_pos; [exact Hx | left; apply Rinv_0_lt_compat; exact Hy]. }
  replace ((x + y) / y) with (x / y + IZR 1) by (field; lra).
  rewrite !ltb_false by lra.
  rewrite Zfloor_addz, plus_IZR. ring.
Qed.

Lemma NewSorThetaSDF3_angle (S : SDF2) (t1 t2 : float64) :
  Mod (Abs t1) TAU = Mod (Abs t2) TAU -> NewSorThetaSDF3 S t1 = NewSorThetaSDF3 S t2.
Proof. intros H. unfold NewSorThetaSDF3. cbv zeta. rewrite H. reflexivity. Qed.

(** X26: [NewSorThetaSDF3] takes the angle without its sign and modulo a
    full turn: the opposite angle gives the same node, so does its absolute
    value plus a full turn, and a full turn gives the node of [NewSorSDF3], the
    whole solid of revolution. *)
Theorem NewSorThetaSDF3_normalizes (S : SDF2) (theta : float64) :
  NewSorThetaSDF3 S (- theta) = NewSorThetaSDF3 S theta /\
  NewSorThetaSDF3 S (Rabs theta + TAU) = NewSorThetaSDF3 S theta /\
  NewSorThetaSDF3 S TAU = NewSorSDF3 S.
Proof.
  pose proof TAU_pos as HT.
  split; [ | split ].
  - apply NewSorThetaSDF3_angle. unfold Abs. rewrite Rabs_Ropp. reflexivity.
  - apply NewSorThetaSDF3_angle. unfold Abs.
    pose proof (Rabs_pos theta) as Ha.
    rewrite (Rabs_pos_eq (Rabs theta + TAU)) by lra.
    apply Mod_add_period; assumption.
  - unfold NewSorSDF3. apply NewSorThetaSDF3_angle. unfold Abs.
    rewrite (Rabs_pos_eq TAU) by lra.
    replace TAU with (0 + TAU) at 1 by ring.
    rewrite Mod_add_period by lra.
    rewrite Rabs_R0. reflexivity.
Qed.
